(** * PennyLane QNode and Device: a shallow embedding

    The development follows [pennylane/qnode.py] and [pennylane/_device.py].
    Python objects live in an explicit object store, so that the aliasing
    between [QNode.ops], [QNode.queue] and [QNode.ev] is the one of the
    source; exceptions are results of a state-and-error monad that keeps the
    state reached when the exception was raised.  Floating point numbers are
    read as rationals with exact arithmetic; the arguments of [jacobian]
    keep their Python type, [int] or [float], which decides the element type
    of the array that the finite differences shift. *)

From Stdlib Require Import QArith Qabs ZArith Lia Bool.
From stdpp Require Import base list strings gmap.

Set Default Proof Using "Type".
Local Open Scope Z_scope.
Local Open Scope nat_scope.

(** ** Exceptions *)

Inductive exn :=
| QuantumFunctionError
| DeviceError
| ValueError
| IndexError
| KeyError
| AssertionError
| AttributeError
| TypeError
| NotImplementedError
| ZeroDivisionError
| NameError
| UserError.

Inductive result (A : Type) :=
| Ok (a : A)
| Raise (e : exn).
Arguments Ok {A} a.
Arguments Raise {A} e.

(** ** Numeric arrays *)

Inductive arr :=
| Vec (v : list Q)
| Mat (m : list (list Q)).

(** ** The variable registry ([pennylane.variable.Variable]) *)

Record variable := mkVariable {
  idx : nat;
  name : option string;
  mult : Q
}.

(** An operation parameter: a number, a [Variable] instance or an array. *)
Inductive param :=
| PNum (x : Q)
| PVar (v : variable)
| PArr (a : arr).

(** A parameter as the device receives it ([Operation.parameters]). *)
Inductive pval :=
| VNum (x : Q)
| VArr (a : arr).

(** ** Operations *)

Inductive kind := Gate | StatePrep | Observable.

Inductive rtype := Expectation | Variance | Sample.

(** The gradient methods ['A'], ['F'] and the per-instance mark ['A2'];
    Python's [None] is [None] of [option gmethod]. *)
Inductive gmethod := GA | GF | GA2.

Record operation := mkOperation {
  op_name : string;
  op_kind : kind;
  op_cv : bool;
  wires : list Z;
  params : list param;
  grad_method : option gmethod;
  grad_recipe : list (option (Q * Q));
  supports_heisenberg : bool;
  ev_order : option nat;
  return_type : option rtype;
  num_samples : option nat
}.

Definition is_observable (o : operation) : bool :=
  match op_kind o with Observable => true | _ => false end.

Definition set_params (ps : list param) (o : operation) : operation :=
  mkOperation (op_name o) (op_kind o) (op_cv o) (wires o) ps (grad_method o)
    (grad_recipe o) (supports_heisenberg o) (ev_order o) (return_type o)
    (num_samples o).

Definition set_grad_method (g : option gmethod) (o : operation) : operation :=
  mkOperation (op_name o) (op_kind o) (op_cv o) (wires o) (params o) g
    (grad_recipe o) (supports_heisenberg o) (ev_order o) (return_type o)
    (num_samples o).

Definition set_return_type (r : option rtype) (o : operation) : operation :=
  mkOperation (op_name o) (op_kind o) (op_cv o) (wires o) (params o)
    (grad_method o) (grad_recipe o) (supports_heisenberg o) (ev_order o) r
    (num_samples o).

(** ** Decidable equalities *)

Global Instance exn_eq_dec : EqDecision exn.
Proof. solve_decision. Defined.
Global Instance kind_eq_dec : EqDecision kind.
Proof. solve_decision. Defined.
Global Instance rtype_eq_dec : EqDecision rtype.
Proof. solve_decision. Defined.
Global Instance gmethod_eq_dec : EqDecision gmethod.
Proof. solve_decision. Defined.
Global Instance Q_eq_dec : EqDecision Q.
Proof. solve_decision. Defined.
Global Instance arr_eq_dec : EqDecision arr.
Proof. solve_decision. Defined.
Global Instance variable_eq_dec : EqDecision variable.
Proof. solve_decision. Defined.
Global Instance param_eq_dec : EqDecision param.
Proof. solve_decision. Defined.
Global Instance operation_eq_dec : EqDecision operation.
Proof. solve_decision. Defined.

(** ** Nested argument structures ([pennylane.utils]) *)

#[warnings="-register-all"]
Inductive nested (A : Type) :=
| Leaf (a : A)
| Seq (l : list (nested A)).
Arguments Leaf {A} a.
Arguments Seq {A} l.

(** Modelled from the spec: [pennylane/utils.py] is missing; [_flatten]
    lists the leaves of a nested structure in order. *)
Fixpoint _flatten {A : Type} (x : nested A) : list A :=
  match x with
  | Leaf a => [a]
  | Seq l => concat (List.map _flatten l)
  end.

Definition flatten_args {A : Type} (args : list (nested A)) : list A :=
  concat (List.map _flatten args).

Fixpoint nested_map {A C : Type} (f : A -> C) (x : nested A) : nested C :=
  match x with
  | Leaf a => Leaf (f a)
  | Seq l => Seq (List.map (nested_map f) l)
  end.

(** Modelled from the spec: [pennylane/utils.py] is missing; [unflatten]
    rebuilds the shape of the model from a flat list, and fails when the
    flat list is too short or too long. *)
Fixpoint unflatten_one {A B : Type} (m : nested B) (flat : list A)
  : option (nested A * list A) :=
  match m with
  | Leaf _ =>
      match flat with
      | a :: rest => Some (Leaf a, rest)
      | [] => None
      end
  | Seq l =>
      match
        (fix go (l : list (nested B)) (flat : list A)
           : option (list (nested A) * list A) :=
           match l with
           | [] => Some ([], flat)
           | y :: l' =>
               match unflatten_one y flat with
               | Some (n, rest) =>
                   match go l' rest with
                   | Some (ns, rest') => Some (n :: ns, rest')
                   | None => None
                   end
               | None => None
               end
           end) l flat
      with
      | Some (ns, rest) => Some (Seq ns, rest)
      | None => None
      end
  end.

Definition unflatten {A B : Type} (flat : list A) (model : list (nested B))
  : result (list (nested A)) :=
  match unflatten_one (Seq model) flat with
  | Some (Seq ns, []) => Ok ns
  | Some (_, _ :: _) => Raise ValueError
  | _ => Raise IndexError
  end.

(** ** Python dictionaries as association lists (insertion order kept) *)

Section Dict.
Context {K V : Type} `{EqDecision K}.

Fixpoint dict_get (d : list (K * V)) (k : K) : option V :=
  match d with
  | [] => None
  | (k', v) :: d' => if decide (k' = k) then Some v else dict_get d' k
  end.

(** [d[k] = v]: an existing key keeps its position. *)
Fixpoint dict_set (d : list (K * V)) (k : K) (v : V) : list (K * V) :=
  match d with
  | [] => [(k, v)]
  | (k', v') :: d' =>
      if decide (k' = k) then (k, v) :: d' else (k', v') :: dict_set d' k v
  end.

(** [d.update(e)] *)
Definition dict_update (d e : list (K * V)) : list (K * V) :=
  fold_left (fun acc kv => dict_set acc (fst kv) (snd kv)) e d.

Definition dict_values (d : list (K * V)) : list V := List.map snd d.
Definition dict_keys (d : list (K * V)) : list K := List.map fst d.
End Dict.

(** ** The state of the program *)

Inductive oconv := Squeeze | Float | AsArray.
Inductive ctype := CV | Qubit.

Definition varops := list (nat * list (nat * nat)).

Record qnode := mkQNode {
  cache : bool;
  num_variables : option nat;
  ops : list nat;
  queue : list nat;
  ev : list nat;
  variable_ops : varops;
  grad_method_for_par : list (nat * option gmethod);
  model : list (nested Q);
  keyword_defaults : list (string * nested Q);
  output_conversion : option oconv;
  output_dim : nat;
  type : option ctype
}.

Record device (B : Type) := mkDevice {
  _op_queue : option (list nat);
  _obs_queue : option (list nat);
  _parameters : option varops;
  backend : B
}.
Arguments mkDevice {B}.
Arguments _op_queue {B}.
Arguments _obs_queue {B}.
Arguments _parameters {B}.
Arguments backend {B}.

(** What the program did, for statements about how often something ran:
    [EvConstruct] is recorded when [QNode.construct] is entered and
    [EvEvaluate flat] when [QNode.evaluate] is entered with arguments that
    flatten to [flat]. *)
Inductive event :=
| EvConstruct
| EvEvaluate (flat : list Q).

Record world (B : Type) := mkWorld {
  heap : list operation;
  _current_context : option nat;
  free_param_values : list Q;
  kwarg_values : list (string * list Q);
  dev : device B;
  qn : qnode;
  log : list event
}.
Arguments mkWorld {B}.
Arguments heap {B}.
Arguments _current_context {B}.
Arguments free_param_values {B}.
Arguments kwarg_values {B}.
Arguments dev {B}.
Arguments qn {B}.
Arguments log {B}.

(** Field updates of the records. *)

Definition set_qn {B} (f : qnode -> qnode) (w : world B) : world B :=
  mkWorld (heap w) (_current_context w) (free_param_values w) (kwarg_values w)
    (dev w) (f (qn w)) (log w).

Definition set_dev {B} (f : device B -> device B) (w : world B) : world B :=
  mkWorld (heap w) (_current_context w) (free_param_values w) (kwarg_values w)
    (f (dev w)) (qn w) (log w).

Definition set_heap {B} (h : list operation) (w : world B) : world B :=
  mkWorld h (_current_context w) (free_param_values w) (kwarg_values w)
    (dev w) (qn w) (log w).

Definition set_context {B} (c : option nat) (w : world B) : world B :=
  mkWorld (heap w) c (free_param_values w) (kwarg_values w)
    (dev w) (qn w) (log w).

Definition set_free_param_values {B} (v : list Q) (w : world B) : world B :=
  mkWorld (heap w) (_current_context w) v (kwarg_values w)
    (dev w) (qn w) (log w).

Definition set_kwarg_values {B} (v : list (string * list Q)) (w : world B)
  : world B :=
  mkWorld (heap w) (_current_context w) (free_param_values w) v
    (dev w) (qn w) (log w).

Definition add_log {B} (e : event) (w : world B) : world B :=
  mkWorld (heap w) (_current_context w) (free_param_values w) (kwarg_values w)
    (dev w) (qn w) (log w ++ [e]).

Definition with_cache (c : bool) (q : qnode) : qnode :=
  mkQNode c (num_variables q) (ops q) (queue q) (ev q) (variable_ops q)
    (grad_method_for_par q) (model q) (keyword_defaults q)
    (output_conversion q) (output_dim q) (type q).

Definition with_num_variables (n : option nat) (q : qnode) : qnode :=
  mkQNode (cache q) n (ops q) (queue q) (ev q) (variable_ops q)
    (grad_method_for_par q) (model q) (keyword_defaults q)
    (output_conversion q) (output_dim q) (type q).

Definition with_ops (l : list nat) (q : qnode) : qnode :=
  mkQNode (cache q) (num_variables q) l (queue q) (ev q) (variable_ops q)
    (grad_method_for_par q) (model q) (keyword_defaults q)
    (output_conversion q) (output_dim q) (type q).

Definition with_queue (l : list nat) (q : qnode) : qnode :=
  mkQNode (cache q) (num_variables q) (ops q) l (ev q) (variable_ops q)
    (grad_method_for_par q) (model q) (keyword_defaults q)
    (output_conversion q) (output_dim q) (type q).

Definition with_ev (l : list nat) (q : qnode) : qnode :=
  mkQNode (cache q) (num_variables q) (ops q) (queue q) l (variable_ops q)
    (grad_method_for_par q) (model q) (keyword_defaults q)
    (output_conversion q) (output_dim q) (type q).

Definition with_variable_ops (v : varops) (q : qnode) : qnode :=
  mkQNode (cache q) (num_variables q) (ops q) (queue q) (ev q) v
    (grad_method_for_par q) (model q) (keyword_defaults q)
    (output_conversion q) (output_dim q) (type q).

Definition with_grad_method_for_par (g : list (nat * option gmethod))
  (q : qnode) : qnode :=
  mkQNode (cache q) (num_variables q) (ops q) (queue q) (ev q) (variable_ops q)
    g (model q) (keyword_defaults q)
    (output_conversion q) (output_dim q) (type q).

Definition with_model (m : list (nested Q)) (q : qnode) : qnode :=
  mkQNode (cache q) (num_variables q) (ops q) (queue q) (ev q) (variable_ops q)
    (grad_method_for_par q) m (keyword_defaults q)
    (output_conversion q) (output_dim q) (type q).

Definition with_keyword_defaults (d : list (string * nested Q)) (q : qnode)
  : qnode :=
  mkQNode (cache q) (num_variables q) (ops q) (queue q) (ev q) (variable_ops q)
    (grad_method_for_par q) (model q) d
    (output_conversion q) (output_dim q) (type q).

Definition with_output (c : oconv) (d : nat) (q : qnode) : qnode :=
  mkQNode (cache q) (num_variables q) (ops q) (queue q) (ev q) (variable_ops q)
    (grad_method_for_par q) (model q) (keyword_defaults q)
    (Some c) d (type q).

Definition with_type (t : ctype) (q : qnode) : qnode :=
  mkQNode (cache q) (num_variables q) (ops q) (queue q) (ev q) (variable_ops q)
    (grad_method_for_par q) (model q) (keyword_defaults q)
    (output_conversion q) (output_dim q) (Some t).

Definition with_queues {B} (a b : option (list nat)) (c : option varops)
  (d : device B) : device B :=
  mkDevice a b c (backend d).

Definition with_backend {B} (b : B) (d : device B) : device B :=
  mkDevice (_op_queue d) (_obs_queue d) (_parameters d) b.

(** ** The state-and-error monad

    A computation returns a value or raises, and in both cases leaves the
    state it reached: what an exception leaves behind is part of the
    result. *)

Definition M (B A : Type) : Type := world B -> result A * world B.

Definition ret {B A} (a : A) : M B A := fun w => (Ok a, w).

Definition raise {B A} (e : exn) : M B A := fun w => (Raise e, w).

Definition bind {B A C} (m : M B A) (k : A -> M B C) : M B C :=
  fun w =>
    match m w with
    | (Ok a, w') => k a w'
    | (Raise e, w') => (Raise e, w')
    end.

Notation "x <- c1 ;; c2" := (bind c1 (fun x => c2))
  (at level 100, c1 at next level, right associativity).
Notation "c1 ;; c2" := (bind c1 (fun _ => c2))
  (at level 100, right associativity).

Definition gets {B A} (f : world B -> A) : M B A := fun w => (Ok (f w), w).

Definition modify {B} (f : world B -> world B) : M B unit :=
  fun w => (Ok tt, f w).

Definition lift {B A} (r : result A) : M B A := fun w => (r, w).

Definition from_option {B A} (e : exn) (o : option A) : M B A :=
  match o with
  | Some a => ret a
  | None => raise e
  end.

(** [try: m finally: c] *)
Definition try_finally {B A} (m : M B A) (c : M B unit) : M B A :=
  fun w =>
    match m w with
    | (r, w') =>
        match c w' with
        | (Ok _, w'') => (r, w'')
        | (Raise e, w'') => (Raise e, w'')
        end
    end.

(** [for x in l: f x] *)
Fixpoint for_each {B A} (l : list A) (f : A -> M B unit) : M B unit :=
  match l with
  | [] => ret tt
  | x :: l' => f x ;; for_each l' f
  end.

(** [[f x for x in l]] *)
Fixpoint map_m {B A C} (f : A -> M B C) (l : list A) : M B (list C) :=
  match l with
  | [] => ret []
  | x :: l' => y <- f x ;; ys <- map_m f l' ;; ret (y :: ys)
  end.

(** The loop [for x in l: acc = f acc x]. *)
Fixpoint fold_m {B A C} (f : C -> A -> M B C) (l : list A) (acc : C)
  : M B C :=
  match l with
  | [] => ret acc
  | x :: l' => acc' <- f acc x ;; fold_m f l' acc'
  end.

(** The object store. *)

Definition deref {B} (r : nat) : M B operation :=
  fun w => match heap w !! r with
           | Some o => (Ok o, w)
           | None => (Raise AttributeError, w)
           end.

Definition alloc {B} (o : operation) : M B nat :=
  fun w => (Ok (length (heap w)), set_heap (heap w ++ [o]) w).

Definition store {B} (r : nat) (o : operation) : M B unit :=
  modify (fun w => set_heap (<[r := o]> (heap w)) w).

(** [copy.deepcopy] of an operation: a new object with the same fields. *)
Definition deepcopy {B} (r : nat) : M B nat :=
  o <- deref r ;; alloc o.

(** ** NumPy on rationals *)

(** The double nearest to pi, as [numpy.pi] has it. *)
Definition np_pi : Q := 884279719003555 # 281474976710656.

(** Elementwise operations broadcast a one-element operand; a scalar is a
    one-element vector. *)
Definition np_zip (f : Q -> Q -> Q) (a b : list Q) : result (list Q) :=
  if Nat.eqb (length a) (length b) then Ok (zip_with f a b)
  else match a, b with
       | [x], _ => Ok (List.map (f x) b)
       | _, [y] => Ok (List.map (fun x => f x y) a)
       | _, _ => Raise ValueError
       end.

Definition np_add := np_zip Qplus.
Definition np_sub := np_zip Qminus.
Definition np_mul := np_zip Qmult.
Definition np_scale (v : list Q) (c : Q) : list Q :=
  List.map (fun x => (x * c)%Q) v.

(** An element of an array of floats that a division gave: NumPy divides
    by zero without raising, and the element is then [inf], [-inf] or
    [nan]. *)
Inductive npfloat :=
| Finite (x : Q)
| NotFinite.

(** [v / c] for an array [v] of floats and a number [c]. *)
Definition np_true_divide (v : list Q) (c : Q) : list npfloat :=
  if Qeq_bool c 0 then List.map (fun _ => NotFinite) v
  else List.map (fun x => Finite (x / c)%Q) v.

(** *** The arguments as an array

    An argument of the node is a Python [int] or a [float].  The circuit
    reads either as the number it is, a rational here; the type of the
    numbers decides the type of the elements of [np.array] of the
    arguments, and with it what an item assignment stores. *)
Inductive number :=
| NInt (z : Z)
| NFloat (x : Q).

Definition float_of (n : number) : Q :=
  match n with
  | NInt z => inject_Z z
  | NFloat x => x
  end.

Inductive ndarray :=
| IntArray (a : list Z)
| FloatArray (a : list Q).

(** The arguments as the numbers they are. *)
Definition values (args : list (nested number)) : list (nested Q) :=
  List.map (nested_map float_of) args.

(** The integers of a list that holds [int]s only. *)
Fixpoint ints (l : list number) : option (list Z) :=
  match l with
  | [] => Some []
  | NInt z :: l' =>
      match ints l' with
      | Some zs => Some (z :: zs)
      | None => None
      end
  | NFloat _ :: _ => None
  end.

(** [np.array(l)]: an array of integers when [l] holds [int]s only, an
    array of floats otherwise; the empty array is one of floats. *)
Definition np_array (l : list number) : ndarray :=
  match l, ints l with
  | _ :: _, Some zs => IntArray zs
  | _, _ => FloatArray (List.map float_of l)
  end.

(** The elements of an array, as numbers. *)
Definition tolist (a : ndarray) : list Q :=
  match a with
  | IntArray zs => List.map inject_Z zs
  | FloatArray xs => xs
  end.

(** The cast of a float to an integer type: the fraction is cut off,
    towards zero. *)
Definition trunc (x : Q) : Z := Z.quot (Qnum x) (Z.pos (Qden x)).

(** [a[i] = x] for an index inside the array: an array of integers stores
    the cast of [x], item assignment does not change the type of the
    elements. *)
Definition setitem (a : ndarray) (i : nat) (x : Q) : ndarray :=
  match a with
  | IntArray zs => IntArray (<[i := trunc x]> zs)
  | FloatArray xs => FloatArray (<[i := x]> xs)
  end.

(** [np.where(mask, a, b)] on vectors of the length of the mask, with
    one-element operands broadcast. *)
Definition np_pick (a : list Q) (n i : nat) : result Q :=
  match (if Nat.eqb (length a) n then a !! i
         else match a with [x] => Some x | _ => None end) with
  | Some x => Ok x
  | None => Raise ValueError
  end.

Fixpoint np_where_from (mask : list bool) (a b : list Q) (n i : nat)
  : result (list Q) :=
  match mask with
  | [] => Ok []
  | m :: mask' =>
      match np_pick (if m then a else b) n i with
      | Ok x =>
          match np_where_from mask' a b n (S i) with
          | Ok xs => Ok (x :: xs)
          | Raise e => Raise e
          end
      | Raise e => Raise e
      end
  end.

Definition np_where (mask : list bool) (a b : list Q) : result (list Q) :=
  np_where_from mask a b (length mask) 0.

Definition matrix := list (list Q).

Definition rect (c : nat) (m : matrix) : bool :=
  forallb (fun r => Nat.eqb (length r) c) m.

Definition cols (m : matrix) : nat :=
  match m with
  | [] => 0
  | r :: _ => length r
  end.

Definition dot (u v : list Q) : Q :=
  fold_right Qplus 0%Q (zip_with Qmult u v).

Definition transpose (m : matrix) : matrix :=
  List.map (fun j => List.map (fun r => nth j r 0%Q) m) (seq 0 (cols m)).

Definition eye (n : nat) : matrix :=
  List.map (fun i => List.map (fun j => if Nat.eqb i j then 1%Q else 0%Q)
                       (seq 0 n)) (seq 0 n).

(** [a @ b] *)
Definition matmul (a b : matrix) : result matrix :=
  if rect (length b) a && rect (cols b) b then
    Ok (List.map (fun r => List.map (dot r) (transpose b)) a)
  else Raise ValueError.

(** [v @ b] for a vector [v] *)
Definition vecmat (v : list Q) (b : matrix) : result (list Q) :=
  if Nat.eqb (length v) (length b) && rect (cols b) b then
    Ok (List.map (dot v) (transpose b))
  else Raise ValueError.

Definition mat_zip (f : Q -> Q -> Q) (a b : matrix) : result matrix :=
  if Nat.eqb (length a) (length b) && rect (cols a) a && rect (cols a) b then
    Ok (zip_with (zip_with f) a b)
  else Raise ValueError.

Definition mat_scale (a : matrix) (c : Q) : matrix :=
  List.map (fun r => np_scale r c) a.

(** [np.kron(A, A.T)] for the row vector [A = [v]]: the outer product. *)
Definition outer (v : list Q) : matrix :=
  List.map (fun x => List.map (fun y => (y * x)%Q) v) v.

(** [np.allclose(a, b)] with the default tolerances. *)
Definition close (x y : Q) : bool :=
  Qle_bool (Qabs (x - y)) ((1 # 100000000) + (1 # 100000) * Qabs y).

Definition allclose (a b : matrix) : bool :=
  Nat.eqb (length a) (length b)
  && forallb (fun rs => Nat.eqb (length (fst rs)) (length (snd rs))
                        && forallb (fun xy => close (fst xy) (snd xy))
                             (zip (fst rs) (snd rs)))
       (zip a b).

(** A measured value: a number, or the array of a sample. *)
Inductive mval :=
| MNum (x : Q)
| MArr (a : list Q).

(** [np.asarray] of a result whose entries are numbers. *)
Fixpoint as_floats (l : list mval) : result (list Q) :=
  match l with
  | [] => Ok []
  | MNum x :: l' =>
      match as_floats l' with
      | Ok xs => Ok (x :: xs)
      | Raise e => Raise e
      end
  | MArr _ :: _ => Raise TypeError
  end.

(** ** What the modelled code is given

    The abstract methods of a [Device] plugin, over a backend state [B].
    Every method receives the device it is called on, with the three
    private fields that the properties [op_queue], [obs_queue] and
    [parameters] read; it returns a new backend state or a value. *)
Record plugin (B : Type) := mkPlugin {
  num_wires : nat;
  operations : list string;
  observables : list string;
  reset : device B -> B;
  pre_apply : device B -> result B;
  apply : string -> list Z -> list pval -> device B -> result B;
  post_apply : device B -> result B;
  pre_measure : device B -> result B;
  expval : string -> list Z -> list pval -> device B -> result Q;
  var : string -> list Z -> list pval -> device B -> result Q;
  sample : string -> list Z -> list pval -> nat -> device B -> result (list Q);
  post_measure : device B -> result B
}.
Arguments mkPlugin {B}.
Arguments num_wires {B}.
Arguments operations {B}.
Arguments observables {B}.
Arguments reset {B}.
Arguments pre_apply {B}.
Arguments apply {B}.
Arguments post_apply {B}.
Arguments pre_measure {B}.
Arguments expval {B}.
Arguments var {B}.
Arguments sample {B}.
Arguments post_measure {B}.

(** The part of the operation library ([pennylane.operation],
    [pennylane.ops]) that the gradient code calls: the Heisenberg
    representations and the constructors of two observables. *)
Record oplib := mkOplib {
  heisenberg_tr : operation -> list pval -> nat -> bool -> result matrix;
  heisenberg_obs : operation -> list pval -> nat -> result arr;
  _heisenberg_rep : operation -> list pval -> result (list Q);
  Hermitian : matrix -> list Z -> operation;
  PolyXP : arr -> list Z -> operation
}.

(** What running the quantum function does: it constructs operations, each
    of which enters [QNode._append_op], it may raise, and it returns a
    value.  A returned item is the [i]-th operation the run constructed, an
    operation constructed without queuing, or something that is not an
    operation. *)
Inductive action :=
| AAppend (o : operation)
| ARaise (e : exn).

Inductive item :=
| ItemObj (i : nat)
| ItemFresh (o : operation)
| ItemOther.

(** The returned value: one object, or a [Sequence] of objects. *)
Inductive retval :=
| RetOne (x : item)
| RetSeq (xs : list item).

Record script := mkScript {
  actions : list action;
  returned : retval
}.

(** A quantum function: the defaults of its keyword arguments
    ([_get_default_args]) and its body. *)
Record qfunc := mkQFunc {
  defaults : list (string * nested Q);
  body : list (nested param) -> list (string * nested param) -> script
}.

Section Model.
Context {B : Type}.
Variable P : plugin B.
Variable L : oplib.
Variable func : qfunc.
(** The identity of the [QNode] of the state, as the context slot holds
    it. *)
Variable self : nat.

Local Abbreviation M := (M B).

(** *** Variables and parameters *)

(** Modelled from the spec: [pennylane/variable.py] is missing; a slot
    resolves to [free_values[idx] * mult], or to
    [kwarg_values[name][idx] * mult] when it has a name. *)
Definition val (v : variable) : M Q :=
  fun w =>
    match name v with
    | None =>
        match free_param_values w !! idx v with
        | Some x => (Ok (x * mult v)%Q, w)
        | None => (Raise IndexError, w)
        end
    | Some k =>
        match dict_get (kwarg_values w) k with
        | Some a =>
            match a !! idx v with
            | Some x => (Ok (x * mult v)%Q, w)
            | None => (Raise IndexError, w)
            end
        | None => (Raise KeyError, w)
        end
    end.

(** Modelled from the spec: [pennylane/operation.py] is missing;
    [Operation.parameters] is the parameters with every slot resolved. *)
Definition Operation_parameters (o : operation) : M (list pval) :=
  map_m (fun p => match p with
                  | PNum x => ret (VNum x)
                  | PArr a => ret (VArr a)
                  | PVar v => x <- val v ;; ret (VNum x)
                  end) (params o).

(** *** [Device] *)

Definition check_validity (queue observables_ : list nat) : M unit :=
  for_each queue (fun r =>
    o <- deref r ;;
    if bool_decide (op_name o ∈ operations P) then ret tt
    else raise DeviceError) ;;
  for_each observables_ (fun r =>
    o <- deref r ;;
    if bool_decide (op_name o ∈ observables P) then ret tt
    else raise DeviceError).

(** A call of a plugin method that changes the backend. *)
Definition call (f : device B -> result B) : M unit :=
  fun w =>
    match f (dev w) with
    | Ok b => (Ok tt, set_dev (with_backend b) w)
    | Raise e => (Raise e, w)
    end.

(** A call of a plugin method that returns a value. *)
Definition ask {A} (f : device B -> result A) : M A :=
  fun w => (f (dev w), w).

(** One observable of the measurement loop of [execute].  The parameters
    of the observable are resolved in the branch of its return type, as
    an argument of the call of the plugin: for a sample after the test of
    [num_samples], and not at all for an observable without return type.
    The three return types are the only ones there are, so the last branch
    of the source, for any other return type, has no counterpart. *)
Definition measure (results : list mval) (r : nat) : M (list mval) :=
  obs <- deref r ;;
  match return_type obs with
  | Some Expectation =>
      ps <- Operation_parameters obs ;;
      x <- ask (expval P (op_name obs) (wires obs) ps) ;;
      ret (results ++ [MNum x])
  | Some Variance =>
      ps <- Operation_parameters obs ;;
      x <- ask (var P (op_name obs) (wires obs) ps) ;;
      ret (results ++ [MNum x])
  | Some Sample =>
      match num_samples obs with
      | None => raise DeviceError
      | Some n =>
          ps <- Operation_parameters obs ;;
          a <- ask (sample P (op_name obs) (wires obs) ps n) ;;
          ret (results ++ [MArr a])
      end
  | None => ret results
  end.

(** The first statements of [execute]: the validity check and the three
    assignments. *)
Definition execute_enter (queue observables_ : list nat)
  (parameters_ : varops) : M unit :=
  check_validity queue observables_ ;;
  modify (set_dev (with_queues (Some queue) (Some observables_)
                     (Some (dict_update [] parameters_)))).

(** The body of the [with self.execution_context()] block up to
    [post_measure]; the default context manager does nothing. *)
Definition execute_body (queue observables_ : list nat) : M (list mval) :=
  call (pre_apply P) ;;
  for_each queue (fun r =>
    operation <- deref r ;;
    ps <- Operation_parameters operation ;;
    call (apply P (op_name operation) (wires operation) ps)) ;;
  call (post_apply P) ;;
  call (pre_measure P) ;;
  results <- fold_m measure observables_ [] ;;
  call (post_measure P) ;;
  ret results.

(** The three assignments of [None] before the [return]. *)
Definition execute_leave : M unit :=
  modify (set_dev (with_queues None None None)).

Definition execute (queue observables_ : list nat) (parameters_ : varops)
  : M (list mval) :=
  execute_enter queue observables_ parameters_ ;;
  results <- execute_body queue observables_ ;;
  execute_leave ;;
  ret results.

(** The three properties, on a device. *)
Definition op_queue (d : device B) : result (list nat) :=
  match _op_queue d with
  | None => Raise ValueError
  | Some q => Ok q
  end.

Definition obs_queue (d : device B) : result (list nat) :=
  match _obs_queue d with
  | None => Raise ValueError
  | Some q => Ok q
  end.

Definition parameters (d : device B) : result varops :=
  match _parameters d with
  | None => Raise ValueError
  | Some q => Ok q
  end.

(** [Device.__init__] *)
Definition Device_init (b : B) : device B := mkDevice None None None b.

(** *** [QNode]: tracing *)

(** [QNode.__init__] *)
Definition QNode_init (cache_ : bool) : qnode :=
  mkQNode cache_ None [] [] [] [] [] [] [] None 0 None.

Definition _append_op (r : nat) : M unit :=
  op <- deref r ;;
  q <- gets qn ;;
  if is_observable op then
    match return_type op with
    | None => modify (set_qn (with_queue (queue q ++ [r])))
    | Some _ => modify (set_qn (with_ev (ev q ++ [r])))
    end
  else
    match ev q with
    | _ :: _ => raise QuantumFunctionError
    | [] => modify (set_qn (with_queue (queue q ++ [r])))
    end.

(** One step of the quantum function. *)
Definition run_action (a : action) : M unit :=
  match a with
  | AAppend o => r <- alloc o ;; _append_op r
  | ARaise e => raise e
  end.

(** The object a returned item stands for, if it is an operation. *)
Definition resolve_item (base : nat) (x : item) : M (option nat) :=
  match x with
  | ItemObj i =>
      h <- gets heap ;;
      if bool_decide (base + i < length h) then ret (Some (base + i))
      else ret None
  | ItemFresh o => r <- alloc o ;; ret (Some r)
  | ItemOther => ret None
  end.

(** The call of [self.func] on the variables and keyword arguments. *)
Definition call_func (variables : list (nested param))
  (kw : list (string * nested param))
  : M (option nat + list (option nat)) :=
  h <- gets heap ;;
  for_each (actions (body func variables kw)) run_action ;;
  match returned (body func variables kw) with
  | RetOne x => r <- resolve_item (length h) x ;; ret (inl r)
  | RetSeq xs => rs <- map_m (resolve_item (length h)) xs ;; ret (inr rs)
  end.

(** [isinstance(x, Observable)] for a returned object. *)
Definition observable_ref (x : option nat) : M (option nat) :=
  match x with
  | None => ret None
  | Some r =>
      o <- deref r ;;
      if is_observable o then ret (Some r) else ret None
  end.

(** The references of a sequence whose elements are all observables. *)
Fixpoint all_observables (xs : list (option nat)) : M (option (list nat)) :=
  match xs with
  | [] => ret (Some [])
  | x :: xs' =>
      y <- observable_ref x ;;
      match y with
      | None => ret None
      | Some r =>
          ys <- all_observables xs' ;;
          match ys with
          | None => ret None
          | Some rs => ret (Some (r :: rs))
          end
      end
  end.

(** The validation of the returned value: sets the output conversion and
    dimension and gives the tuple [res]. *)
Definition validate_return (res : option nat + list (option nat))
  : M (list nat) :=
  match res with
  | inl x =>
      y <- observable_ref x ;;
      match y with
      | Some r =>
          o <- deref r ;;
          modify (set_qn (with_output
            (if bool_decide (return_type o = Some Sample) then Squeeze
             else Float) 1)) ;;
          ret [r]
      | None => raise QuantumFunctionError
      end
  | inr xs =>
      match xs with
      | [] => raise QuantumFunctionError
      | _ :: _ =>
          ys <- all_observables xs ;;
          match ys with
          | Some rs =>
              modify (set_qn (with_output AsArray (length rs))) ;;
              ret rs
          | None => raise QuantumFunctionError
          end
      end
  end.

(** The size of a parameter in [_flatten(op.params)]. *)
Definition flat_size (p : param) : nat :=
  match p with
  | PNum _ | PVar _ => 1
  | PArr (Vec v) => length v
  | PArr (Mat m) => length (concat m)
  end.

(** [d.setdefault(k, []).append(x)] *)
Definition setdefault_append (d : varops) (k : nat) (x : nat * nat)
  : varops :=
  match dict_get d k with
  | Some l => dict_set d k (l ++ [x])
  | None => d ++ [(k, [x])]
  end.

(** The inner loop of the variable map: the parameters of operation [k],
    from flat position [i] on. *)
Fixpoint scan_params (k i : nat) (ps : list param) (d : varops) : varops :=
  match ps with
  | [] => d
  | p :: ps' =>
      scan_params k (i + flat_size p) ps'
        (match p with
         | PVar v =>
             match name v with
             | None => setdefault_append d (idx v) (k, i)
             | Some _ => d
             end
         | _ => d
         end)
  end.

Fixpoint scan_ops (k : nat) (os : list operation) (d : varops) : varops :=
  match os with
  | [] => d
  | o :: os' => scan_ops (S k) os' (scan_params k 0 (params o) d)
  end.

(** *** [QNode]: the gradient method of a parameter *)

Inductive only := OnlyG | OnlyE.

Definition _op_successors (o_idx : nat) (what : only) : M (list nat) :=
  q <- gets qn ;;
  succ <- map_m (fun r => o <- deref r ;; ret (r, o))
            (drop (o_idx + 1) (ops q)) ;;
  ret (List.map fst
         (List.filter (fun ro => match what with
                            | OnlyE => is_observable (snd ro)
                            | OnlyG => negb (is_observable (snd ro))
                            end) succ)).

(** The loop of [best_for_op] over the observables that follow: [Some m]
    when the loop returns [m], [None] when it runs to its end. *)
Fixpoint scan_ev_successors (r : nat) (xs : list nat)
  : M (option gmethod) :=
  match xs with
  | [] => ret None
  | x :: xs' =>
      o <- deref x ;;
      match ev_order o with
      | None => ret (Some GF)
      | Some 2 =>
          if bool_decide (return_type o = Some Variance) then ret (Some GF)
          else
            op <- deref r ;;
            store r (set_grad_method (Some GA2) op) ;;
            scan_ev_successors r xs'
      | Some _ => scan_ev_successors r xs'
      end
  end.

Definition best_for_op (o_idx : nat) : M (option gmethod) :=
  q <- gets qn ;;
  r <- from_option IndexError (ops q !! o_idx) ;;
  op <- deref r ;;
  if negb (op_cv op) then ret (grad_method op)
  else if bool_decide (grad_method op = Some GA) then
    successors <- _op_successors o_idx OnlyG ;;
    succ <- map_m deref successors ;;
    if forallb supports_heisenberg succ then
      ev_successors <- _op_successors o_idx OnlyE ;;
      m <- scan_ev_successors r ev_successors ;;
      match m with
      | Some g => ret (Some g)
      | None => ret (Some GA)
      end
    else ret (Some GF)
  else ret (grad_method op).

(** The choice of [_best_method] from the list [temp]. *)
Definition choose_method (temp : list (option gmethod)) : option gmethod :=
  if forallb (fun k => bool_decide (k = Some GA)) temp then Some GA
  else if bool_decide (None ∈ temp) then None
  else Some GF.

Definition best_methods (idx_ : nat) : M (list (option gmethod)) :=
  q <- gets qn ;;
  sites <- from_option KeyError (dict_get (variable_ops q) idx_) ;;
  map_m (fun s => best_for_op (fst s)) sites.

Definition _best_method (idx_ : nat) : M (option gmethod) :=
  temp <- best_methods idx_ ;;
  ret (choose_method temp).

(** *** [QNode.construct] *)

(** The keyword argument [key] with every leaf replaced by a named
    [Variable]. *)
Definition kwarg_variable (kv : string * nested Q)
  : M (string * nested param) :=
  match
    unflatten_one (snd kv)
      (List.map (fun i => PVar (mkVariable i (Some (fst kv)) 1))
         (seq 0 (length (_flatten (snd kv)))))
  with
  | Some (n, _) => ret (fst kv, n)
  | None => raise IndexError
  end.

(** The classification of the circuit as CV or qubit. *)
Definition classify (os : list operation) : result ctype :=
  let temp :=
    List.map op_cv
      (List.filter (fun o => negb (String.eqb (op_name o) "Identity")) os) in
  if forallb (fun b => b) temp then Ok CV
  else if negb (existsb (fun b => b) temp) then Ok Qubit
  else Raise QuantumFunctionError.

(** [construct] up to the context: the variables and keyword arguments
    that the quantum function will receive. *)
Definition construct_begin (args : list (nested Q))
  (kwargs : list (string * nested Q))
  : M (list (nested param) * list (string * nested param)) :=
  modify (add_log EvConstruct) ;;
  modify (set_qn (with_queue [])) ;;
  modify (set_qn (with_ev [])) ;;
  let temp := List.map (fun i => PVar (mkVariable i None 1))
                (seq 0 (length (flatten_args args))) in
  modify (set_qn (with_num_variables (Some (length temp)))) ;;
  modify (set_qn (with_model args)) ;;
  variables <- lift (unflatten temp args) ;;
  modify (set_qn (with_keyword_defaults (defaults func))) ;;
  let keyword_values :=
    dict_update (dict_update [] (defaults func)) kwargs in
  q <- gets qn ;;
  kw <- (if cache q then map_m kwarg_variable keyword_values
         else ret (List.map (fun kv => (fst kv, nested_map PNum (snd kv)))
                     keyword_values)) ;;
  modify (set_free_param_values (flatten_args args)) ;;
  modify (set_kwarg_values
            (List.map (fun kv => (fst kv, _flatten (snd kv)))
               keyword_values)) ;;
  ret (variables, kw).

(** The test and assignment of [QNode._current_context]. *)
Definition enter_context : M unit :=
  c <- gets _current_context ;;
  match c with
  | None => modify (set_context (Some self))
  | Some _ => raise QuantumFunctionError
  end.

(** The [try] statement: the quantum function runs, and the context is
    removed in the [finally] clause. *)
Definition trace (variables : list (nested param))
  (kw : list (string * nested param))
  : M (option nat + list (option nat)) :=
  try_finally (call_func variables kw) (modify (set_context None)).

(** The body of the loop over the returned observables. *)
Definition has_return_type (x : nat) : M unit :=
  o <- deref x ;;
  match return_type o with
  | None => raise QuantumFunctionError
  | Some _ => ret tt
  end.

(** The three checks of the returned value: its shape, the return types
    and the comparison with the observables that were queued. *)
Definition check_return (res : option nat + list (option nat))
  : M (list nat) :=
  res <- validate_return res ;;
  for_each res has_return_type ;;
  q <- gets qn ;;
  (if bool_decide (res = ev q) then ret tt
   else raise QuantumFunctionError) ;;
  ret res.

(** [construct] after the checks of the returned value. *)
Definition construct_finish (res : list nat) : M unit :=
  q <- gets qn ;;
  modify (set_qn (with_ev res)) ;;
  modify (set_qn (with_ops (queue q ++ res))) ;;
  os <- map_m deref (queue q ++ res) ;;
  t <- lift (classify os) ;;
  modify (set_qn (with_type t)) ;;
  modify (set_qn (with_variable_ops (scan_ops 0 os []))) ;;
  g <- fold_m (fun acc k => m <- _best_method k ;; ret (acc ++ [(k, m)]))
         (dict_keys (scan_ops 0 os [])) [] ;;
  modify (set_qn (with_grad_method_for_par g)).

Definition construct (args : list (nested Q))
  (kwargs : list (string * nested Q)) : M unit :=
  vk <- construct_begin args kwargs ;;
  enter_context ;;
  res <- trace (fst vk) (snd vk) ;;
  res <- check_return res ;;
  construct_finish res.

(** *** [QNode.evaluate] *)

Definition set_binding (args : list Q) (kwargs : list (string * nested Q))
  : M unit :=
  q <- gets qn ;;
  modify (set_free_param_values args) ;;
  modify (set_kwarg_values
            (dict_update
               (dict_update []
                  (List.map (fun kv => (fst kv, _flatten (snd kv)))
                     (keyword_defaults q)))
               (List.map (fun kv => (fst kv, _flatten (snd kv))) kwargs))).

Definition check_op (o : operation) : M unit :=
  if forallb (fun w => negb (Z.ltb w 0)
                       && negb (Z.leb (Z.of_nat (num_wires P)) w))
       (wires o)
  then ret tt else raise QuantumFunctionError.

Definition convert (c : oconv) (x : list mval) : result (list mval) :=
  match c with
  | Float =>
      match x with
      | [MNum y] => Ok [MNum y]
      | _ => Raise TypeError
      end
  | Squeeze | AsArray => Ok x
  end.

(** The first statement of [evaluate]: whether the circuit is
    constructed again. *)
Definition maybe_construct (args : list (nested Q))
  (kwargs : list (string * nested Q)) : M unit :=
  q <- gets qn ;;
  if bool_decide (ops q = []) || negb (cache q) then
    match num_variables q with
    | Some n =>
        if Nat.eqb (length (flatten_args args)) n then
          shaped_args <- lift (unflatten (flatten_args args) (model q)) ;;
          construct shaped_args kwargs
        else ret tt
    | None => construct args kwargs
    end
  else ret tt.

(** The two checks of the wires in [evaluate]: no wire is measured
    twice, and every wire exists on the device. *)
Definition circuit_checks : M unit :=
  q <- gets qn ;;
  evs <- map_m deref (ev q) ;;
  (if bool_decide (NoDup (concat (List.map wires evs))) then ret tt
   else raise QuantumFunctionError) ;;
  os <- map_m deref (ops q) ;;
  for_each os check_op.

(** [evaluate] from the binding of the variables on: the circuit as it
    stands is run on the values [args]. *)
Definition run_circuit (args : list Q) (kwargs : list (string * nested Q))
  : M (list mval) :=
  set_binding args kwargs ;;
  call (fun d => Ok (reset P d)) ;;
  circuit_checks ;;
  q <- gets qn ;;
  x <- execute (queue q) (ev q) (variable_ops q) ;;
  c <- from_option AttributeError (output_conversion q) ;;
  lift (convert c x).

Definition evaluate (args : list (nested Q))
  (kwargs : list (string * nested Q)) : M (list mval) :=
  modify (add_log (EvEvaluate (flatten_args args))) ;;
  maybe_construct args kwargs ;;
  run_circuit (flatten_args args) kwargs.

Definition evaluate_obs (obs : list nat) (args : list Q)
  (kwargs : list (string * nested Q)) : M (list mval) :=
  set_binding args kwargs ;;
  call (fun d => Ok (reset P d)) ;;
  q <- gets qn ;;
  execute (queue q) obs (variable_ops q).

(** [np.asarray(self.evaluate(args, ...))] on a flat array of
    arguments. *)
Definition evaluate_flat (args : list Q)
  (kwargs : list (string * nested Q)) : M (list Q) :=
  y <- evaluate (List.map Leaf args) kwargs ;;
  lift (as_floats y).

(** *** Finite differences *)

(** [params_] is the array that [jacobian] built from the arguments, and
    [shift_params] a copy of it: the shifted value is stored in an array
    with the element type of [params_].  The difference is divided as
    NumPy divides arrays. *)
Definition _pd_finite_diff (params_ : ndarray) (idx_ : nat) (h : Q)
  (order : nat) (y0 : option (list Q)) (kwargs : list (string * nested Q))
  : M (list npfloat) :=
  match order with
  | 1 =>
      x <- from_option IndexError (tolist params_ !! idx_) ;;
      let shift_params := setitem params_ idx_ (x + h)%Q in
      y <- evaluate_flat (tolist shift_params) kwargs ;;
      y0 <- from_option TypeError y0 ;;
      d <- lift (np_sub y y0) ;;
      ret (np_true_divide d h)
  | 2 =>
      x <- from_option IndexError (tolist params_ !! idx_) ;;
      let shift_params := setitem params_ idx_ (x + (1 # 2) * h)%Q in
      y2 <- evaluate_flat (tolist shift_params) kwargs ;;
      let shift_params := setitem shift_params idx_ (x - (1 # 2) * h)%Q in
      y1 <- evaluate_flat (tolist shift_params) kwargs ;;
      d <- lift (np_sub y2 y1) ;;
      ret (np_true_divide d h)
  | _ => raise ValueError
  end.

(** *** The analytic method *)

(** [op.params[p_idx] = x] on the object [r]. *)
Definition set_param (r p_idx : nat) (x : param) : M unit :=
  op <- deref r ;;
  store r (set_params (<[p_idx := x]> (params op)) op).

(** [op.heisenberg_tr(w, inverse)] at the current binding. *)
Definition tr_of (r : nat) (inverse : bool) : M matrix :=
  op <- deref r ;;
  ps <- Operation_parameters op ;;
  lift (heisenberg_tr L op ps (num_wires P) inverse).

(** [tr_obs]: the observable transformed by [Z], as a new expectation. *)
Definition tr_obs (Z : matrix) (r : nat) : M nat :=
  ex <- deref r ;;
  ps <- Operation_parameters ex ;;
  q <- lift (heisenberg_obs L ex ps (num_wires P)) ;;
  qp <- match q with
        | Vec v => qp <- lift (vecmat v Z) ;; ret (Vec qp)
        | Mat m =>
            qp <- lift (matmul m Z) ;;
            qp <- lift (mat_zip Qplus qp (transpose qp)) ;;
            ret (Mat qp)
        end ;;
  alloc (set_return_type (Some Expectation)
           (PolyXP L qp (List.map Z.of_nat (seq 0 (num_wires P))))).

(** The order-2 branch for one site: the value added to [pd]. *)
Definition pd_order2 (r o_idx : nat) (multiplier : Q)
  (shift_p1 shift_p2 unshifted_params : list Q)
  (kwargs : list (string * nested Q)) : M (list Q) :=
  modify (set_free_param_values shift_p1) ;;
  Z2 <- tr_of r false ;;
  modify (set_free_param_values shift_p2) ;;
  Z1 <- tr_of r false ;;
  Z <- lift (mat_zip Qminus Z2 Z1) ;;
  modify (set_free_param_values unshifted_params) ;;
  Z0 <- tr_of r true ;;
  Z <- lift (matmul (mat_scale Z multiplier) Z0) ;;
  successors <- _op_successors o_idx OnlyG ;;
  BB <- fold_m (fun (acc : matrix * matrix) BB =>
                  temp <- tr_of BB false ;;
                  B_ <- lift (matmul temp (fst acc)) ;;
                  temp <- tr_of BB true ;;
                  B_inv <- lift (matmul (snd acc) temp) ;;
                  ret (B_, B_inv))
          successors
          (eye (1 + 2 * num_wires P), eye (1 + 2 * num_wires P)) ;;
  Z <- lift (matmul (fst BB) Z) ;;
  Z <- lift (matmul Z (snd BB)) ;;
  q <- gets qn ;;
  obs <- map_m (tr_obs Z) (ev q) ;;
  temp <- evaluate_obs obs unshifted_params kwargs ;;
  lift (as_floats temp).

(** The body of the loop of [_pd_analytic] for one site.  The division
    of the shift by a scale that is zero raises, as the division of Python
    numbers does. *)
Definition pd_site (params_ : list Q) (idx_ : nat) (force_order2 : bool)
  (kwargs : list (string * nested Q)) (n : nat)
  (pd : list Q) (site : nat * nat) : M (list Q) :=
  q <- gets qn ;;
  r <- from_option IndexError (ops q !! fst site) ;;
  op <- deref r ;;
  orig <- from_option IndexError (params op !! snd site) ;;
  orig <- match orig with
          | PVar v => ret v
          | _ => raise AttributeError
          end ;;
  (if Nat.eqb (idx orig) idx_ then ret tt else raise AssertionError) ;;
  set_param r (snd site) (PVar (mkVariable n (name orig) (mult orig))) ;;
  recipe <- from_option IndexError (grad_recipe op !! snd site) ;;
  let multiplier :=
    ((match recipe with None => 1 # 2 | Some cs => fst cs end)
     * mult orig)%Q in
  (if Qeq_bool (mult orig) 0 then raise ZeroDivisionError else ret tt) ;;
  let shift :=
    ((match recipe with None => np_pi / 2 | Some cs => snd cs end)
     / mult orig)%Q in
  x <- from_option IndexError (params_ !! idx_) ;;
  let shift_p1 := params_ ++ [(x + shift)%Q] in
  let shift_p2 := params_ ++ [(x - shift)%Q] in
  pd <- (if negb force_order2
            && negb (bool_decide (grad_method op = Some GA2)) then
           y2 <- evaluate_flat shift_p1 kwargs ;;
           y1 <- evaluate_flat shift_p2 kwargs ;;
           d <- lift (np_sub y2 y1) ;;
           lift (np_add pd (np_scale d multiplier))
         else
           temp <- pd_order2 r (fst site) multiplier shift_p1 shift_p2
                     (params_ ++ [x]) kwargs ;;
           lift (np_add pd temp)) ;;
  set_param r (snd site) (PVar orig) ;;
  ret pd.

Definition _pd_analytic (params_ : list Q) (idx_ : nat)
  (force_order2 : bool) (kwargs : list (string * nested Q)) : M (list Q) :=
  q <- gets qn ;;
  n <- from_option TypeError (num_variables q) ;;
  sites <- from_option KeyError (dict_get (variable_ops q) idx_) ;;
  fold_m (pd_site params_ idx_ force_order2 kwargs n) sites [0%Q].

(** *** The analytic method for variances *)

(** [self.ev[i] = r] *)
Definition set_ev_at (i r : nat) : M unit :=
  q <- gets qn ;;
  modify (set_qn (with_ev (<[i := r]> (ev q)))).

(** One iteration of the loop of [_pd_analytic_var] over [self.ev]. *)
Definition var_step (param_values : list Q) (param_idx : nat)
  (kwargs : list (string * nested Q))
  (pdA2 : option (list Q)) (i : nat) : M (option (list Q)) :=
  q <- gets qn ;;
  er <- from_option IndexError (ev q !! i) ;;
  e <- deref er ;;
  if negb (bool_decide (return_type e = Some Variance)) then ret pdA2
  else
    store er (set_return_type (Some Expectation) e) ;;
    match type q with
    | Some Qubit =>
        if String.eqb (op_name e) "Hermitian" then
          A <- from_option IndexError (params e !! 0) ;;
          A <- match A with
               | PArr (Mat m) => ret m
               | _ => raise TypeError
               end ;;
          AA <- lift (matmul A A) ;;
          if negb (allclose AA (eye (length A))) then
            old <- deepcopy er ;;
            new <- alloc (set_return_type (Some Expectation)
                            (Hermitian L AA (wires e))) ;;
            set_ev_at i new ;;
            pd <- _pd_analytic param_values param_idx false kwargs ;;
            set_ev_at i old ;;
            ret (Some pd)
          else ret (Some [0%Q])
        else ret (Some [0%Q])
    | Some CV =>
        old <- deepcopy er ;;
        oldo <- deref old ;;
        ps <- Operation_parameters oldo ;;
        A <- lift (_heisenberg_rep L e ps) ;;
        new <- alloc (set_return_type (Some Expectation)
                        (PolyXP L (Mat (outer A)) (wires oldo))) ;;
        set_ev_at i new ;;
        pd <- _pd_analytic param_values param_idx true kwargs ;;
        set_ev_at i old ;;
        ret (Some pd)
    | None => raise AttributeError
    end.

Definition is_variance (r : nat) : M bool :=
  e <- deref r ;; ret (bool_decide (return_type e = Some Variance)).

Definition _pd_analytic_var (param_values : list Q) (param_idx : nat)
  (kwargs : list (string * nested Q)) : M (list Q) :=
  q <- gets qn ;;
  old_ev <- map_m deepcopy (ev q) ;;
  where_var <- map_m is_variance (ev q) ;;
  pdA2 <- fold_m (var_step param_values param_idx kwargs)
            (seq 0 (length (ev q))) None ;;
  q <- gets qn ;;
  modify (set_qn (with_cache true)) ;;
  evA <- evaluate_flat param_values kwargs ;;
  pdA <- _pd_analytic param_values param_idx false kwargs ;;
  modify (set_qn (with_ev old_ev)) ;;
  modify (set_qn (with_cache (cache q))) ;;
  pdA2 <- from_option NameError pdA2 ;;
  t <- lift (np_mul (List.map (fun x => (2 * x)%Q) evA) pdA) ;;
  t <- lift (np_sub pdA2 t) ;;
  lift (np_where where_var t pdA).

(** The variance rule as the specification words it, observable by
    observable: the entry of position [i] is the derivative of the
    expectation of the square of the [i]-th observable, taken from the
    iteration of that observable, and the column is assembled from these
    entries.  [_pd_analytic_var] above is the source; this one is kept
    apart to compare the two. *)
Definition variance_rule_step (param_values : list Q) (param_idx : nat)
  (kwargs : list (string * nested Q)) (n : nat)
  (acc : list Q) (i : nat) : M (list Q) :=
  v <- var_step param_values param_idx kwargs None i ;;
  match v with
  | None => ret (acc ++ [0%Q])
  | Some pd => x <- lift (np_pick pd n i) ;; ret (acc ++ [x])
  end.

Definition variance_rule (param_values : list Q) (param_idx : nat)
  (kwargs : list (string * nested Q)) : M (list Q) :=
  q <- gets qn ;;
  old_ev <- map_m deepcopy (ev q) ;;
  where_var <- map_m is_variance (ev q) ;;
  pdA2 <- fold_m (variance_rule_step param_values param_idx kwargs
                    (length (ev q)))
            (seq 0 (length (ev q))) [] ;;
  q <- gets qn ;;
  modify (set_qn (with_cache true)) ;;
  evA <- evaluate_flat param_values kwargs ;;
  pdA <- _pd_analytic param_values param_idx false kwargs ;;
  modify (set_qn (with_ev old_ev)) ;;
  modify (set_qn (with_cache (cache q))) ;;
  t <- lift (np_mul (List.map (fun x => (2 * x)%Q) evA) pdA) ;;
  t <- lift (np_sub pdA2 t) ;;
  lift (np_where where_var t pdA).

(** *** [QNode.jacobian] *)

Inductive jmethod := MethodA | MethodF | MethodB | MethodOther.

(** [check_method(m)]: whether a parameter of [which] has best method
    [m]. *)
Definition check_method (g : list (nat * option gmethod))
  (which : list nat) (m : option gmethod) : bool :=
  existsb (fun kv => bool_decide (snd kv = m)
                     && bool_decide (fst kv ∈ which)) g.

(** [grad[:, i] = v] *)
Definition column {A} (dim : nat) (v : list A) : result (list A) :=
  if Nat.eqb (length v) dim then Ok v
  else match v with
       | [x] => Ok (repeat x dim)
       | _ => Raise ValueError
       end.

(** One iteration of the loop over [which]: the column of parameter
    [k]. *)
Definition jacobian_column (flat_params : ndarray)
  (method : list (nat * option gmethod)) (h : Q) (order : nat)
  (y0 : option (list Q)) (variances : bool) (dim : nat)
  (kwargs : list (string * nested Q)) (k : nat) : M (list npfloat) :=
  q <- gets qn ;;
  match dict_get (variable_ops q) k with
  | None => ret (repeat (Finite 0) dim)
  | Some _ =>
      par_method <- from_option KeyError (dict_get method k) ;;
      match par_method with
      | Some GA =>
          v <- (if variances
                then _pd_analytic_var (tolist flat_params) k kwargs
                else _pd_analytic (tolist flat_params) k false kwargs) ;;
          lift (column dim (List.map Finite v))
      | Some GF =>
          v <- _pd_finite_diff flat_params k h order y0 kwargs ;;
          lift (column dim v)
      | _ => raise ValueError
      end
  end.

(** [jacobian] up to the choice of the methods: the parameters [which]
    and the method of each. *)
Definition jacobian_setup (params_ : list (nested Q))
  (which : option (list nat)) (method : jmethod)
  (kwargs : list (string * nested Q))
  : M (list nat * list (nat * option gmethod)) :=
  q <- gets qn ;;
  (if bool_decide (ops q = []) || negb (cache q)
   then construct params_ kwargs else ret tt) ;;
  q <- gets qn ;;
  evs <- map_m deref (ev q) ;;
  (if existsb (fun e => bool_decide (return_type e = Some Sample)) evs
   then raise QuantumFunctionError else ret tt) ;;
  which <- match which with
           | None => ret (seq 0 (length (flatten_args params_)))
           | Some [] => raise ValueError
           | Some wh =>
               n <- from_option TypeError (num_variables q) ;;
               if existsb (fun k => Nat.leb n k) wh then raise ValueError
               else if bool_decide (NoDup wh) then ret wh
               else raise ValueError
           end ;;
  (if check_method (grad_method_for_par q) which None
   then raise ValueError else ret tt) ;;
  method <- match method with
            | MethodA =>
                if check_method (grad_method_for_par q) which (Some GF)
                then raise ValueError
                else ret (fold_left (fun d k => dict_set d k (Some GA))
                            which [])
            | MethodF =>
                ret (fold_left (fun d k => dict_set d k (Some GF)) which [])
            | MethodB => ret (grad_method_for_par q)
            | MethodOther => raise ValueError
            end ;;
  ret (which, method).

(** The value [y0] of the circuit at [params], for the finite differences
    of order 1. *)
Definition jacobian_y0 (params_ : list (nested Q))
  (method : list (nat * option gmethod)) (order : nat)
  (kwargs : list (string * nested Q)) : M (option (list Q)) :=
  if bool_decide (Some GF ∈ dict_values method) then
    if Nat.eqb order 1 then
      y <- evaluate params_ kwargs ;;
      y <- lift (as_floats y) ;;
      ret (Some y)
    else ret None
  else ret None.

(** The loop over [which]. *)
Definition jacobian_columns (flat_params : ndarray)
  (method : list (nat * option gmethod)) (h : Q) (order : nat)
  (y0 : option (list Q)) (kwargs : list (string * nested Q))
  (which : list nat) : M (list (list npfloat)) :=
  q <- gets qn ;;
  evs <- map_m deref (ev q) ;;
  let variances :=
    existsb (fun e => bool_decide (return_type e = Some Variance)) evs in
  map_m (jacobian_column flat_params method h order y0 variances
           (output_dim q) kwargs) which.

(** The Jacobian as the list of its columns, one for each parameter of
    [which].  The circuit is constructed and evaluated on the arguments as
    the numbers they are; [flat_params] is [np.array] of them.  The keyword
    arguments [h] and [order] are arguments here; [which] holds no negative
    index; [shots] and [force_order2] are not passed. *)
Definition jacobian (params_ : list (nested number))
  (which : option (list nat)) (method : jmethod) (h : Q) (order : nat)
  (kwargs : list (string * nested Q)) : M (list (list npfloat)) :=
  wm <- jacobian_setup (values params_) which method kwargs ;;
  y0 <- jacobian_y0 (values params_) (snd wm) order kwargs ;;
  jacobian_columns (np_array (flatten_args params_)) (snd wm) h order y0
    kwargs (fst wm).

End Model.

(** ** Further functions of the two files *)

Section Dict_pop.
Context {K V : Type} `{EqDecision K}.

(** [d.pop(k, None)]: the dictionary without the key [k]. *)
Fixpoint dict_pop (d : list (K * V)) (k : K) : list (K * V) :=
  match d with
  | [] => []
  | (k', v) :: d' => if decide (k' = k) then d' else (k', v) :: dict_pop d' k
  end.
End Dict_pop.

(** The keyword arguments that belong to [QNode.jacobian]. *)
Definition jacobian_keys : list string := ["h"; "order"; "shots"; "force_order2"].

Definition pop_jacobian_kwargs {V : Type} (kwargs : list (string * V))
  : list (string * V) :=
  let circuit_kwargs := dict_update [] kwargs in
  fold_left dict_pop jacobian_keys circuit_kwargs.

Section Inv_dict.
Context {K V : Type} `{Countable K} `{EqDecision V}.

(** [ret.setdefault(v, set()).add(k)] *)
Definition setdefault_add (ret : list (V * gset K)) (v : V) (k : K)
  : list (V * gset K) :=
  match dict_get ret v with
  | Some s => dict_set ret v (s ∪ {[k]})
  | None => ret ++ [(v, {[k]})]
  end.

Definition _inv_dict (d : list (K * V)) : list (V * gset K) :=
  fold_left (fun ret kv => setdefault_add ret (snd kv) (fst kv)) d [].
End Inv_dict.

(** [check_method(m)] as [jacobian] defines it, on the reversed map:
    [mmap.get(m, set()).intersection(which)]. *)
Definition check_method_set (g : list (nat * option gmethod))
  (which : list nat) (m : option gmethod) : gset nat :=
  default ∅ (dict_get (_inv_dict g) m) ∩ list_to_set which.

(** The argument of [supports_operation] and [supports_observable]: a
    class, with its name and whether it is a subclass of [Operation] and of
    [Observable], a string, or anything else. *)
Inductive pyarg :=
| ArgClass (name_ : string) (is_operation_class is_observable_class : bool)
| ArgStr (s : string)
| ArgOther.

Section Supports.
Context {B : Type}.
Variable P : plugin B.

Definition supports_operation (operation : pyarg) : result bool :=
  match operation with
  | ArgClass n true _ => Ok (bool_decide (n ∈ operations P))
  | ArgStr s => Ok (bool_decide (s ∈ operations P))
  | _ => Raise ValueError
  end.

Definition supports_observable (observable : pyarg) : result bool :=
  match observable with
  | ArgClass n _ true => Ok (bool_decide (n ∈ observables P))
  | ArgStr s => Ok (bool_decide (s ∈ observables P))
  | _ => Raise ValueError
  end.
End Supports.

(** ** Two devices and a few circuits, to run the definitions

    The first device keeps one number, the sum of the parameters of the
    gates applied since the last reset.  The expectation of an observable is
    that number, scaled by the first entry of the matrix when the observable
    carries one; the variance is its square.  [plain_device] is the same
    device without [var] and [sample], as the base class [Device] leaves
    them.  The second device, [exact_device], is a simulator of qubits. *)
Module Examples.

Definition total (ps : list pval) : Q :=
  fold_right (fun p acc => match p with
                           | VNum x => (x + acc)%Q
                           | VArr _ => acc
                           end) 0%Q ps.

Definition scale_of (ps : list pval) : Q :=
  match ps with
  | VArr (Mat ((x :: _) :: _)) :: _ => x
  | _ => 1%Q
  end.

Definition sum_device : plugin Q :=
  mkPlugin 2
    ["RX"; "RZ"] ["PauliZ"; "Hermitian"]
    (fun _ => 0%Q)
    (fun d => Ok (backend d))
    (fun _ _ ps d => Ok (backend d + total ps)%Q)
    (fun d => Ok (backend d))
    (fun d => Ok (backend d))
    (fun _ _ ps d => Ok (backend d * scale_of ps)%Q)
    (fun _ _ ps d => Ok (backend d * backend d * scale_of ps)%Q)
    (fun _ _ _ _ _ => Raise NotImplementedError)
    (fun d => Ok (backend d)).

Definition plain_device : plugin Q :=
  mkPlugin 2
    ["RX"; "RZ"] ["PauliZ"; "Hermitian"]
    (fun _ => 0%Q)
    (fun d => Ok (backend d))
    (fun _ _ ps d => Ok (backend d + total ps)%Q)
    (fun d => Ok (backend d))
    (fun d => Ok (backend d))
    (fun _ _ ps d => Ok (backend d * scale_of ps)%Q)
    (fun _ _ _ _ => Raise NotImplementedError)
    (fun _ _ _ _ _ => Raise NotImplementedError)
    (fun d => Ok (backend d)).

(** The same device again, except that it rejects a gate parameter
    above 2 with a [DeviceError]. *)
Definition limited_device : plugin Q :=
  mkPlugin 2
    ["RX"; "RZ"] ["PauliZ"; "Hermitian"]
    (fun _ => 0%Q)
    (fun d => Ok (backend d))
    (fun _ _ ps d => if Qle_bool (total ps) 2 then Ok (backend d + total ps)%Q
                     else Raise DeviceError)
    (fun d => Ok (backend d))
    (fun d => Ok (backend d))
    (fun _ _ ps d => Ok (backend d * scale_of ps)%Q)
    (fun _ _ ps d => Ok (backend d * backend d * scale_of ps)%Q)
    (fun _ _ _ _ _ => Raise NotImplementedError)
    (fun d => Ok (backend d)).

Definition qubit_ops : oplib :=
  mkOplib
    (fun _ _ _ _ => Raise NotImplementedError)
    (fun _ _ _ => Raise NotImplementedError)
    (fun _ _ => Raise NotImplementedError)
    (fun A w => mkOperation "Hermitian" Observable false w [PArr (Mat A)]
                  (Some GF) [None] false None None None)
    (fun q w => mkOperation "PolyXP" Observable true w [PArr q]
                  (Some GF) [None] false (Some 2) None None).

Definition RX (p : param) (w : Z) : operation :=
  mkOperation "RX" Gate false [w] [p] (Some GA) [None] false None None None.

Definition PauliZ (w : Z) (r : option rtype) : operation :=
  mkOperation "PauliZ" Observable false [w] [] None [] false None r None.

Definition first_arg (args : list (nested param)) : param :=
  match args with
  | Leaf p :: _ => p
  | _ => PNum 0
  end.

(** [RX(x, wires=0); return expval(PauliZ(0))] *)
Definition rx_circuit : qfunc :=
  mkQFunc []
    (fun args _ =>
       mkScript [AAppend (RX (first_arg args) 0);
                 AAppend (PauliZ 0 (Some Expectation))]
         (RetOne (ItemObj 1))).

(** [RX(x, wires=0); return var(Hermitian(2 I, wires=0)),
    var(PauliZ(1))] *)
Definition two_var_circuit : qfunc :=
  mkQFunc []
    (fun args _ =>
       mkScript [AAppend (RX (first_arg args) 0);
                 AAppend (set_return_type (Some Variance)
                            (Hermitian qubit_ops [[2; 0]; [0; 2]]%Q [0%Z]));
                 AAppend (PauliZ 1 (Some Variance))]
         (RetSeq [ItemObj 1; ItemObj 2])).

Definition RZ (p : param) (w : Z) : operation :=
  mkOperation "RZ" Gate false [w] [p] (Some GA) [None] false None None None.

Definition second_arg (args : list (nested param)) : param :=
  match args with
  | _ :: Leaf p :: _ => p
  | _ => PNum 0
  end.

(** [Displacement(a, phi, wires=0); return expval(NumberOperator(0))]: a
    Gaussian gate with two parameters, before an observable of order
    2. *)
Definition Displacement (a phi : param) (w : Z) : operation :=
  mkOperation "Displacement" Gate true [w] [a; phi] (Some GA) [None; None]
    true None None None.

Definition NumberOperator (w : Z) (r : option rtype) : operation :=
  mkOperation "NumberOperator" Observable true [w] [] None [] false
    (Some 2) r None.

Definition displacement_circuit : qfunc :=
  mkQFunc []
    (fun args _ =>
       mkScript [AAppend (Displacement (first_arg args) (second_arg args) 0);
                 AAppend (NumberOperator 0 (Some Expectation))]
         (RetOne (ItemObj 1))).

(** [RX(x, wires=0); RZ(y, wires=0); RX(x, wires=0);
    return expval(PauliZ(0))]: the first parameter is used twice. *)
Definition fanout_circuit : qfunc :=
  mkQFunc []
    (fun args _ =>
       mkScript [AAppend (RX (first_arg args) 0);
                 AAppend (RZ (second_arg args) 0);
                 AAppend (RX (first_arg args) 0);
                 AAppend (PauliZ 0 (Some Expectation))]
         (RetOne (ItemObj 3))).

(** An exact simulator over the rationals, of two qubits that no gate
    entangles.  The state of a wire is a real amplitude vector [(c, s)],
    kept without normalisation.  The gate [RY] rotates it; its parameter is
    the tangent of half the angle, which keeps the amplitudes rational.
    The expectation of an observable with the real symmetric matrix [m] is
    [psi m psi / psi psi], and its variance is the expectation of [m m]
    less the square of that of [m]. *)
Definition rotate (t : Q) (cs : Q * Q) : Q * Q :=
  (fst cs - t * snd cs, snd cs + t * fst cs)%Q.

Definition mean (m : matrix) (cs : Q * Q) : result Q :=
  match m with
  | [[a; b]; [b'; d]] =>
      Ok ((a * fst cs * fst cs + (b + b') * fst cs * snd cs
           + d * snd cs * snd cs)
          / (fst cs * fst cs + snd cs * snd cs))%Q
  | _ => Raise ValueError
  end.

Definition matrix_of (name_ : string) (ps : list pval) : result matrix :=
  if String.eqb name_ "PauliZ" then Ok [[1; 0]; [0; - (1)]]%Q
  else match ps with
       | [VArr (Mat m)] => Ok m
       | _ => Raise ValueError
       end.

Definition on_wire {A} (ws : list Z) (st : list (Q * Q))
  (k : nat -> Q * Q -> result A) : result A :=
  match ws with
  | [w] =>
      match st !! Z.to_nat w with
      | Some cs => k (Z.to_nat w) cs
      | None => Raise IndexError
      end
  | _ => Raise ValueError
  end.

Definition exact_device : plugin (list (Q * Q)) :=
  mkPlugin 2
    ["RY"] ["PauliZ"; "Hermitian"]
    (fun _ => [(1, 0); (1, 0)]%Q)
    (fun d => Ok (backend d))
    (fun _ ws ps d =>
       match ps with
       | [VNum t] =>
           on_wire ws (backend d)
             (fun i cs => Ok (<[i := rotate t cs]> (backend d)))
       | _ => Raise ValueError
       end)
    (fun d => Ok (backend d))
    (fun d => Ok (backend d))
    (fun n ws ps d =>
       match matrix_of n ps with
       | Ok m => on_wire ws (backend d) (fun _ cs => mean m cs)
       | Raise e => Raise e
       end)
    (fun n ws ps d =>
       match matrix_of n ps with
       | Ok m =>
           on_wire ws (backend d)
             (fun _ cs =>
                match matmul m m with
                | Ok mm =>
                    match mean mm cs, mean m cs with
                    | Ok e2, Ok e1 => Ok (e2 - e1 * e1)%Q
                    | Raise e, _ | _, Raise e => Raise e
                    end
                | Raise e => Raise e
                end)
       | Raise e => Raise e
       end)
    (fun _ _ _ _ _ => Raise NotImplementedError)
    (fun d => Ok (backend d)).

Definition RY (p : param) (w : Z) : operation :=
  mkOperation "RY" Gate false [w] [p] (Some GA) [None] false None None None.

(** [RY(x, wires=0); return expval(PauliZ(0))] *)
Definition ry_circuit : qfunc :=
  mkQFunc []
    (fun args _ =>
       mkScript [AAppend (RY (first_arg args) 0);
                 AAppend (PauliZ 0 (Some Expectation))]
         (RetOne (ItemObj 1))).

(** [RY(x, wires=0); return var(Hermitian(A, wires=0)), var(PauliZ(1))]
    for the matrix [A] with the rows [1, 0] and [0, 2], whose square has
    the rows [1, 0] and [0, 4]. *)
Definition two_variances_circuit : qfunc :=
  mkQFunc []
    (fun args _ =>
       mkScript [AAppend (RY (first_arg args) 0);
                 AAppend (set_return_type (Some Variance)
                            (Hermitian qubit_ops [[1; 0]; [0; 2]]%Q [0%Z]));
                 AAppend (PauliZ 1 (Some Variance))]
         (RetSeq [ItemObj 1; ItemObj 2])).

(** A new node on the exact simulator. *)
Definition start_exact (cache_ : bool) : world (list (Q * Q)) :=
  mkWorld [] None [] [] (Device_init [(1, 0); (1, 0)]%Q) (QNode_init cache_)
    [].

(** The cached nodes of the two circuits after construction for one
    argument. *)
Definition ry_traced : world (list (Q * Q)) :=
  snd (construct ry_circuit 0 [Leaf 1%Q] [] (start_exact true)).

Definition two_variances_traced : world (list (Q * Q)) :=
  snd (construct two_variances_circuit 0 [Leaf 1%Q] [] (start_exact true)).

(** A new node on a new device. *)
Definition start (cache_ : bool) : world Q :=
  mkWorld [] None [] [] (Device_init 0%Q) (QNode_init cache_) [].

(** A new device and the observable [var(PauliZ(0))] in the store. *)
Definition one_variance : world Q :=
  mkWorld [PauliZ 0 (Some Variance)] None [] []
    (Device_init 0%Q) (QNode_init false) [].

(** The cached node of [rx_circuit] after its circuit was constructed
    for one argument. *)
Definition rx_traced : world Q :=
  snd (construct rx_circuit 0 [Leaf 1%Q] [] (start true)).

(** The cached node of [two_var_circuit] after construction. *)
Definition two_var_traced : world Q :=
  snd (construct two_var_circuit 0 [Leaf 1%Q] [] (start true)).

(** A store with a gate, a measured observable and an observable
    without return type, and a node whose buffer [ev] holds the measured
    observable. *)
Definition three_objects : world Q :=
  mkWorld [RX (PNum 1) 0; PauliZ 0 (Some Expectation); PauliZ 1 None]
    None [] [] (Device_init 0%Q)
    (with_ev [1] (with_queue [0] (QNode_init false))) [].

(** The cached node of [fanout_circuit] after construction. *)
Definition fanout_traced : world Q :=
  snd (construct fanout_circuit 0 [Leaf 1%Q; Leaf 2%Q] [] (start true)).

(** The node of [rx_circuit] without caching, after one evaluation. *)
Definition rx_evaluated : world Q :=
  snd (evaluate sum_device rx_circuit 0 [Leaf 1%Q] [] (start false)).

End Examples.

(** ** Notions used in the statements *)

(** The object [r] of the store [h] is an observable with a return type: a
    measured observable. *)
Definition is_measured_at (h : list operation) (r : nat) : bool :=
  match h !! r with
  | Some o =>
      is_observable o
      && match return_type o with Some _ => true | None => false end
  | None => false
  end.

(** The objects of a returned value that is one operation or a non-empty
    sequence of operations. *)
Definition returned_objects (res : option nat + list (option nat))
  : option (list nat) :=
  match res with
  | inl (Some r) => Some [r]
  | inl None => None
  | inr [] => None
  | inr xs => if forallb (fun x : option nat => bool_decide (is_Some x)) xs
              then Some (omap id xs) else None
  end.

(** Every object that a returned value names is in the store. *)
Definition refs_valid (h : list operation)
  (res : option nat + list (option nat)) : Prop :=
  match res with
  | inl x => forall r, x = Some r -> r < length h
  | inr xs => forall r, Some r ∈ xs -> r < length h
  end.

(** How often [QNode.construct] was entered. *)
Definition constructs (l : list event) : nat :=
  length (List.filter (fun e => match e with
                               | EvConstruct => true
                               | EvEvaluate _ => false
                               end) l).

(** The computation [m], run in [w], enters [QNode.construct]: the
circuit is traced again. *)
Definition retraces {B A} (m : M B A) (w : world B) : Prop :=
  constructs (log w) < constructs (log (snd (m w))).

(** The objects that the references [rs] name in the store [h]. *)
Definition objects (h : list operation) (rs : list nat) : list operation :=
  omap (fun r => h !! r) rs.

(** The operations after position [o_idx] of the circuit. *)
Definition successors_of (h : list operation) (circuit : list nat)
  (o_idx : nat) : list operation :=
  objects h (drop (o_idx + 1) circuit).

(** What makes the analytic method of a CV operation fall back to finite
    differences: a later operation that is not an observable and does not
    support the Heisenberg picture, a later observable without order, or a
    later observable of order 2 that is a variance. *)
Definition degraded (succ : list operation) : Prop :=
  (exists x, x ∈ succ /\ is_observable x = false
             /\ supports_heisenberg x = false)
  \/ (exists x, x ∈ succ /\ is_observable x = true /\ ev_order x = None)
  \/ (exists x, x ∈ succ /\ is_observable x = true
                 /\ ev_order x = Some 2 /\ return_type x = Some Variance).

(** The choice of [_op_successors]. *)
Definition kind_filter (what : only) (o : operation) : bool :=
  match what with
  | OnlyE => is_observable o
  | OnlyG => negb (is_observable o)
  end.

(** The observables that stop the loop of [best_for_op]. *)
Definition stops (o : operation) : bool :=
  match ev_order o with
  | None => true
  | Some 2 => bool_decide (return_type o = Some Variance)
  | Some _ => false
  end.

(** The arguments of the calls of [QNode.evaluate], in order. *)
Definition evaluations (l : list event) : list (list Q) :=
  omap (fun e => match e with
                 | EvConstruct => None
                 | EvEvaluate flat => Some flat
                 end) l.

(** [runs f l w ys w']: the loop [[f x for x in l]] started in [w] runs
    through, gives [ys] and ends in [w']. *)
Inductive runs {B A C} (f : A -> M B C)
  : list A -> world B -> list C -> world B -> Prop :=
| runs_nil w : runs f [] w [] w
| runs_cons a l w c w1 cs w' :
    f a w = (Ok c, w1) -> runs f l w1 cs w' ->
    runs f (a :: l) w (c :: cs) w'.

(** The value of a parameter under a binding of the variables, as a
    function. *)
Definition resolve (fpv : list Q) (kwv : list (string * list Q)) (p : param)
  : result pval :=
  match p with
  | PNum x => Ok (VNum x)
  | PArr a => Ok (VArr a)
  | PVar v =>
      match name v with
      | None =>
          match fpv !! idx v with
          | Some x => Ok (VNum (x * mult v)%Q)
          | None => Raise IndexError
          end
      | Some k =>
          match dict_get kwv k with
          | Some a =>
              match a !! idx v with
              | Some x => Ok (VNum (x * mult v)%Q)
              | None => Raise IndexError
              end
          | None => Raise KeyError
          end
      end
  end.

Fixpoint resolve_all (fpv : list Q) (kwv : list (string * list Q))
  (ps : list param) : result (list pval) :=
  match ps with
  | [] => Ok []
  | p :: ps' =>
      match resolve fpv kwv p with
      | Ok v =>
          match resolve_all fpv kwv ps' with
          | Ok vs => Ok (v :: vs)
          | Raise e => Raise e
          end
      | Raise e => Raise e
      end
  end.

(** What the device and the checks of [evaluate] see of an operation under
    a binding. *)
Definition view (fpv : list Q) (kwv : list (string * list Q)) (o : operation)
  : string * list Z * option rtype * option nat * result (list pval) :=
  (op_name o, wires o, return_type o, num_samples o,
   resolve_all fpv kwv (params o)).

(** The state [w] with the number [value] in the place of parameter [p] of
    the object [r]. *)
Definition with_number {B} (w : world B) (r p : nat) (value : Q) : world B :=
  match heap w !! r with
  | Some op =>
      set_heap (<[r := set_params (<[p := PNum value]> (params op)) op]>
                  (heap w)) w
  | None => w
  end.

(** The value of the circuit of [w] at the parameters [params_], with the
    parameter [p] of the object [r] alone set to [value]. *)
Definition site_value {B} (P : plugin B) (w : world B) (params_ : list Q)
  (kwargs : list (string * nested Q)) (r p : nat) (value : Q)
  : result (list Q) :=
  fst ((y <- run_circuit P params_ kwargs ;; lift (as_floats y))
         (with_number w r p value)).

(** The shift rule of a parameter: the multiplier and the shift of the
    recipe, [(0.5, pi/2)] without one. *)
Definition recipe_of (op : operation) (p : nat) : option (Q * Q) :=
  match grad_recipe op !! p with
  | Some (Some cs) => Some cs
  | Some None => Some (1 # 2, np_pi / 2)%Q
  | None => None
  end.

(** The sum of the terms, from [0.0] on, as NumPy adds them. *)
Definition np_sum (terms : list (list Q)) : result (list Q) :=
  fold_left (fun acc t => match acc with
                          | Ok a => np_add a t
                          | Raise e => Raise e
                          end) terms (Ok [0%Q]).

(** The term of the use site [(o, p)] of parameter [k]: the difference of
    the two values of the circuit with the parameter of that site alone
    shifted by [+ s / mult] and [- s / mult], times [c] and [mult]. *)
Definition site_term {B} (P : plugin B) (w : world B) (params_ : list Q)
  (k : nat) (kwargs : list (string * nested Q)) (site : nat * nat)
  (t : list Q) : Prop :=
  exists r op v x c s yp ym d,
    ops (qn w) !! fst site = Some r
    /\ heap w !! r = Some op
    /\ params op !! snd site = Some (PVar v)
    /\ idx v = k
    /\ params_ !! k = Some x
    /\ recipe_of op (snd site) = Some (c, s)
    /\ site_value P w params_ kwargs r (snd site)
         ((x + s / mult v) * mult v)%Q = Ok yp
    /\ site_value P w params_ kwargs r (snd site)
         ((x - s / mult v) * mult v)%Q = Ok ym
    /\ np_sub yp ym = Ok d
    /\ t = np_scale d (c * mult v)%Q
    /\ (length yp = length ym ->
         Forall2 Qeq t
           (zip_with (fun a b => ((a - b) * c * mult v)%Q) yp ym)).

(** Two states that the device cannot tell apart while it runs the
    circuit: the same node, and objects with the same view under the
    binding of each state. *)
Definition same_views {B} (w1 w2 : world B) : Prop :=
  qn w1 = qn w2
  /\ forall r : nat,
       view (free_param_values w1) (kwarg_values w1) <$> (heap w1 !! r)
       = view (free_param_values w2) (kwarg_values w2) <$> (heap w2 !! r).

(** The outcomes of two computations agree: both return, with related
    values and states, or both raise the same exception. *)
Definition agree {B A1 A2} (post : world B -> world B -> Prop)
  (RV : A1 -> A2 -> Prop)
  (x1 : result A1 * world B) (x2 : result A2 * world B) : Prop :=
  match x1, x2 with
  | (Ok a1, w1), (Ok a2, w2) => RV a1 a2 /\ post w1 w2
  | (Raise e1, _), (Raise e2, _) => e1 = e2
  | _, _ => False
  end.

(** [m1] and [m2] run alike from related states. *)
Definition sim {B A1 A2} (pre post : world B -> world B -> Prop)
  (RV : A1 -> A2 -> Prop) (m1 : M B A1) (m2 : M B A2) : Prop :=
  forall w1 w2, pre w1 w2 -> agree post RV (m1 w1) (m2 w2).

(** The keyword values that [set_binding] installs. *)
Definition kw_binding (q : qnode) (kwargs : list (string * nested Q))
  : list (string * list Q) :=
  dict_update
    (dict_update []
       (List.map (fun kv => (fst kv, _flatten (snd kv))) (keyword_defaults q)))
    (List.map (fun kv => (fst kv, _flatten (snd kv))) kwargs).

(** Two objects with the same name, wires, return type and number of
    samples. *)
Definition same_static (o1 o2 : operation) : Prop :=
  op_name o1 = op_name o2 /\ wires o1 = wires o2
  /\ return_type o1 = return_type o2 /\ num_samples o1 = num_samples o2.

(** Every free variable of the store has an index below [n]. *)
Definition free_below (n : nat) (h : list operation) : bool :=
  forallb (fun o =>
             forallb (fun p => match p with
                               | PVar v =>
                                   match name v with
                                   | None => Nat.ltb (idx v) n
                                   | Some _ => true
                                   end
                               | _ => true
                               end) (params o)) h.

(** The use sites are of analytic order 1: the operation is not marked
    ['A2'] and the variable of the site is a free one. *)
Definition sites_order1 (h : list operation) (circuit : list nat)
  (sites : list (nat * nat)) : bool :=
  forallb (fun site : nat * nat =>
             match circuit !! fst site with
             | Some r =>
                 match h !! r with
                 | Some op =>
                     negb (bool_decide (grad_method op = Some GA2))
                     && match params op !! snd site with
                        | Some (PVar v) => bool_decide (name v = None)
                        | _ => true
                        end
                 | None => true
                 end
             | None => true
             end) sites.

(** The returned value is acceptable: measured observables, the same
    objects as the buffer [evq], in the same order. *)
Definition accepted (h : list operation) (evq : list nat)
  (res : option nat + list (option nat)) : Prop :=
  exists rs, returned_objects res = Some rs
             /\ Forall (fun r => is_measured_at h r = true) rs
             /\ rs = evq.

(** ** Notions used in the further properties *)

(** Every operation of [queue] and every observable of [obs] is supported
    by the device, as [supports_operation] and [supports_observable] answer
    for its name. *)
Definition supported {B} (P : plugin B) (h : list operation)
  (queue obs : list nat) : Prop :=
  Forall (fun o => supports_operation P (ArgStr (op_name o)) = Ok true)
    (objects h queue)
  /\ Forall (fun o => supports_observable P (ArgStr (op_name o)) = Ok true)
       (objects h obs).

(** What [execute] appends for an observable: a number for an expectation
    or a variance, an array for a sample. *)
Definition result_of (o : operation) (v : mval) : Prop :=
  match return_type o with
  | Some Sample => exists a, v = MArr a
  | _ => exists x, v = MNum x
  end.

(** The object was given a return type by [expval], [var] or [sample]. *)
Definition has_return (o : operation) : bool :=
  match return_type o with Some _ => true | None => false end.

(** A store with a gate, a measured observable, an observable without
    return type whose parameter is a variable without value, and a sample
    without a number of samples whose parameter is such a variable too. *)
Definition unbound_observables : world Q :=
  mkWorld [Examples.RX (PNum 1) 0; Examples.PauliZ 0 (Some Expectation);
           mkOperation "Hermitian" Observable false [1%Z]
             [PVar (mkVariable 3 None 1)] None [None] false None None None;
           mkOperation "Hermitian" Observable false [1%Z]
             [PVar (mkVariable 3 None 1)] None [None] false None
             (Some Sample) None]
    None [] [] (Device_init 0%Q) (QNode_init false) [].

(** The flattened parameters of an operation, position by position: the
    [Variable] at the position, if there is one. *)
Definition flat_variables (ps : list param) : list (option variable) :=
  concat (List.map (fun p => match p with
                             | PVar v => [Some v]
                             | _ => repeat None (flat_size p)
                             end) ps).

(** [site = (k, i)] is a use site of the free parameter [j] in the circuit
    [os]: position [i] of the flattened parameters of operation [k] is a
    [Variable] without name of index [j]. *)
Definition is_site (os : list operation) (j : nat) (site : nat * nat) : Prop :=
  exists o v, os !! fst site = Some o
              /\ flat_variables (params o) !! snd site = Some (Some v)
              /\ idx v = j /\ name v = None.

(** The free variables among the flattened parameters [fl] of operation
    [k], each with its site, the first position being [i]. *)
Fixpoint sites_from (k i : nat) (fl : list (option variable))
  : list (nat * (nat * nat)) :=
  match fl with
  | [] => []
  | ov :: fl' =>
      match ov with
      | Some v =>
          match name v with
          | None => [(idx v, (k, i))]
          | Some _ => []
          end
      | None => []
      end ++ sites_from k (S i) fl'
  end.

(** The free variables of the circuit [os], each with its site, [k] being
    the position of the first operation. *)
Fixpoint all_sites (k : nat) (os : list operation)
  : list (nat * (nat * nat)) :=
  match os with
  | [] => []
  | o :: os' =>
      sites_from k 0 (flat_variables (params o)) ++ all_sites (S k) os'
  end.

(** An object without its gradient mark, the one field that
    [_best_method] writes. *)
Definition unmarked (o : operation) : operation := set_grad_method None o.

(** A measured observable: an observable with a return type. *)
Definition measured (o : operation) : bool :=
  is_observable o && has_return o.

(** The wires of the circuit pass the checks of [evaluate]: no wire is
    measured by two returned observables, and every wire of every operation
    exists on the device. *)
Definition wires_ok {B} (P : plugin B) (h : list operation) (q : qnode)
  : Prop :=
  NoDup (concat (List.map wires (objects h (ev q))))
  /\ Forall (fun o => Forall (fun w => (0 <= w < Z.of_nat (num_wires P))%Z)
                        (wires o))
       (objects h (ops q)).

(** The operations that decide the type of a circuit: all but
    [Identity]. *)
Definition typed (os : list operation) : list operation :=
  List.filter (fun o => negb (String.eqb (op_name o) "Identity")) os.

(** A cached node whose two returned observables measure the same
    wire. *)
Definition twice_measured : world Q :=
  mkWorld [Examples.RX (PVar (mkVariable 0 None 1)) 0;
           Examples.PauliZ 0 (Some Expectation);
           Examples.PauliZ 0 (Some Expectation)]
    None [] [] (Device_init 0%Q)
    (with_cache true
       (with_num_variables (Some 1)
          (with_ops [0; 1; 2]
             (with_ev [1; 2] (with_queue [0] (QNode_init false))))))
    [].

(** The parameters that a call of [jacobian] asks for: those of [which],
    or all of them. *)
Definition requested {A} (params_ : list (nested A))
  (which : option (list nat)) : list nat :=
  match which with
  | None => seq 0 (length (flatten_args params_))
  | Some wh => wh
  end.

(** A request that [jacobian] refuses with [ValueError] on a node with [n]
    free parameters and the gradient methods [g]: [which] is empty, names
    a parameter that is not there or names one twice; a requested parameter
    has no gradient method; the method is unknown; or the analytic method
    is asked for a requested parameter whose best method is finite
    differences. *)
Definition refused {A} (n : nat) (g : list (nat * option gmethod))
  (params_ : list (nested A)) (which : option (list nat)) (method : jmethod)
  : Prop :=
  (exists wh, which = Some wh
              /\ (wh = [] \/ (exists k, k ∈ wh /\ n <= k) \/ ~ NoDup wh))
  \/ (exists k, k ∈ requested params_ which /\ (k, None) ∈ g)
  \/ method = MethodOther
  \/ (method = MethodA
      /\ exists k, k ∈ requested params_ which /\ (k, Some GF) ∈ g).

(** The node has a cached circuit: [jacobian] and [evaluate] do not
    trace it again. *)
Definition cached {B} (w : world B) : Prop :=
  cache (qn w) = true /\ ops (qn w) <> [].

(** A cached node whose circuit returns a sample. *)
Definition sampled : world Q :=
  mkWorld [Examples.RX (PVar (mkVariable 0 None 1)) 0;
           set_return_type (Some Sample) (Examples.PauliZ 0 None)]
    None [] [] (Device_init 0%Q)
    (with_cache true
       (with_num_variables (Some 1)
          (with_ops [0; 1]
             (with_ev [1] (with_queue [0] (QNode_init false))))))
    [].

(** The evaluations that the use site [site] of parameter [k] costs
    [_pd_analytic] on the circuit of [w]: none when [force_order2] is set
    or the operation of the site carries the mark ['A2'], and otherwise two,
    at the parameters extended by the value of the parameter shifted up and
    then down. *)
Definition site_cost {B} (force : bool) (params_ : list Q) (k : nat)
  (w : world B) (site : nat * nat) (pts : list (list Q)) : Prop :=
  exists r op,
    ops (qn w) !! fst site = Some r /\ heap w !! r = Some op
    /\ if force || bool_decide (grad_method op = Some GA2) then pts = []
       else exists x s,
              params_ !! k = Some x
              /\ pts = [params_ ++ [(x + s)%Q]; params_ ++ [(x - s)%Q]].

(** The cached node of [rx_circuit] constructed for two arguments: the
    second one is used by no operation. *)
Definition rx_two_args : world Q :=
  snd (construct Examples.rx_circuit 0 [Leaf 1%Q; Leaf 2%Q] []
         (Examples.start true)).

(** The nested shape of a structure: the structure with its leaves
    forgotten. *)
Definition shape {A : Type} (x : nested A) : nested unit :=
  nested_map (fun _ => tt) x.

(** The [Variable] instances that replace the flattened values of an
    argument: one for each position, named [key] for a keyword
    argument. *)
Definition variables_for (key : option string) (n : nat) : list param :=
  List.map (fun i => PVar (mkVariable i key 1)) (seq 0 n).

(** * Properties *)

(** ** Stepping through computations *)

Lemma bind_ok {B A C} (m : M B A) (k : A -> M B C) w a w' :
  m w = (Ok a, w') -> bind m k w = k a w'.
Proof. intros H. unfold bind. now rewrite H. Qed.

Lemma bind_raise {B A C} (m : M B A) (k : A -> M B C) w e w' :
  m w = (Raise e, w') -> bind m k w = (Raise e, w').
Proof. intros H. unfold bind. now rewrite H. Qed.

Lemma bind_inv_ok {B A C} (m : M B A) (k : A -> M B C) w c w' :
  bind m k w = (Ok c, w') ->
  exists a w1, m w = (Ok a, w1) /\ k a w1 = (Ok c, w').
Proof.
  unfold bind. destruct (m w) as [[a|e] w1]; intros H.
  - now exists a, w1.
  - discriminate.
Qed.

Lemma bind_inv_raise {B A C} (m : M B A) (k : A -> M B C) w e w' :
  bind m k w = (Raise e, w') ->
  m w = (Raise e, w') \/
  exists a w1, m w = (Ok a, w1) /\ k a w1 = (Raise e, w').
Proof.
  unfold bind. destruct (m w) as [[a|e1] w1]; intros H.
  - right. now exists a, w1.
  - left. now inversion H.
Qed.

(** ** C7: what [_append_op] does with an operation *)

Section AppendOp.
Context {B : Type}.

(** C7. While the buffer of observables [ev] is not empty, appending an
    operation that is not an observable raises [QuantumFunctionError] and
    changes nothing; an observable with a return type is appended to
    [ev], an observable without one is appended to [queue], and neither
    raises, whatever the buffers hold. *)
Theorem append_op_discipline (w : world B) (r : nat) (op : operation) :
  heap w !! r = Some op ->
  (is_observable op = false -> ev (qn w) <> [] ->
     _append_op r w = (Raise QuantumFunctionError, w))
  /\ (is_observable op = true -> return_type op <> None ->
        _append_op r w
        = (Ok tt, set_qn (with_ev (ev (qn w) ++ [r])) w))
  /\ (is_observable op = true -> return_type op = None ->
        _append_op r w
        = (Ok tt, set_qn (with_queue (queue (qn w) ++ [r])) w)).
Proof.
  intros Hr. unfold _append_op, bind, deref, gets. rewrite Hr.
  repeat split.
  - intros Hk Hev. rewrite Hk.
    destruct (ev (qn w)) as [|x l]; [congruence | reflexivity].
  - intros Hk Hrt. rewrite Hk.
    destruct (return_type op); [reflexivity | congruence].
  - intros Hk Hrt. rewrite Hk, Hrt. reflexivity.
Qed.
End AppendOp.

Lemma append_op_discipline_witness :
  let w := Examples.three_objects in
  _append_op 0 w = (Raise QuantumFunctionError, w)
  /\ _append_op 1 w = (Ok tt, set_qn (with_ev (ev (qn w) ++ [1])) w)
  /\ _append_op 2 w = (Ok tt, set_qn (with_queue (queue (qn w) ++ [2])) w).
Proof.
  intros w. split; [|split].
  - apply (proj1 (append_op_discipline w 0 _ eq_refl));
      [reflexivity | discriminate].
  - apply (proj1 (proj2 (append_op_discipline w 1 _ eq_refl)));
      [reflexivity | discriminate].
  - apply (proj2 (proj2 (append_op_discipline w 2 _ eq_refl))); reflexivity.
Defined.

(** ** Parts of the state that a computation leaves alone *)

Definition preserves {B A X} (f : world B -> X) (m : M B A) : Prop :=
  forall w, f (snd (m w)) = f w.

Section Preserves.
Context {B X : Type}.
Variable f : world B -> X.

Lemma preserves_ret {A} (a : A) : preserves f (ret a).
Proof. intros w. reflexivity. Qed.

Lemma preserves_raise {A} (e : exn) : preserves f (@raise B A e).
Proof. intros w. reflexivity. Qed.

Lemma preserves_gets {A} (g : world B -> A) : preserves f (gets g).
Proof. intros w. reflexivity. Qed.

Lemma preserves_lift {A} (r : result A) : preserves f (lift r).
Proof. intros w. reflexivity. Qed.

Lemma preserves_from_option {A} e (o : option A) :
  preserves f (from_option e o).
Proof. intros w. destruct o; reflexivity. Qed.

Lemma preserves_deref r : preserves f (deref r).
Proof. intros w. unfold deref. destruct (heap w !! r); reflexivity. Qed.

Lemma preserves_modify (g : world B -> world B) :
  (forall w, f (g w) = f w) -> preserves f (modify g).
Proof. intros H w. apply H. Qed.

Lemma preserves_bind {A C} (m : M B A) (k : A -> M B C) :
  preserves f m -> (forall a, preserves f (k a)) -> preserves f (bind m k).
Proof.
  intros Hm Hk w. unfold bind. specialize (Hm w).
  destruct (m w) as [[a|e] w1]; simpl in *.
  - rewrite Hk. exact Hm.
  - exact Hm.
Qed.

Lemma preserves_for_each {A} (l : list A) (g : A -> M B unit) :
  (forall a, preserves f (g a)) -> preserves f (for_each l g).
Proof.
  intros Hg. induction l as [|x l IH]; simpl.
  - apply preserves_ret.
  - apply preserves_bind; auto.
Qed.

Lemma preserves_map_m {A C} (g : A -> M B C) (l : list A) :
  (forall a, preserves f (g a)) -> preserves f (map_m g l).
Proof.
  intros Hg. induction l as [|x l IH]; simpl.
  - apply preserves_ret.
  - apply preserves_bind; [auto|]. intros y.
    apply preserves_bind; [auto|]. intros ys. apply preserves_ret.
Qed.

Lemma preserves_fold_m {A C} (g : C -> A -> M B C) (l : list A) acc :
  (forall c a, preserves f (g c a)) -> preserves f (fold_m g l acc).
Proof.
  intros Hg. revert acc. induction l as [|x l IH]; intros acc; simpl.
  - apply preserves_ret.
  - apply preserves_bind; auto.
Qed.

Lemma preserves_try_finally {A} (m : M B A) (c : M B unit) :
  preserves f m -> preserves f c -> preserves f (try_finally m c).
Proof.
  intros Hm Hc w. unfold try_finally. specialize (Hm w).
  destruct (m w) as [r w1]. specialize (Hc w1).
  destruct (c w1) as [[u|e] w2]; simpl in *; congruence.
Qed.
End Preserves.

Create HintDb frame.

(** Breaks a goal [preserves f m] along the structure of [m]; [tac] closes
    the goals about calls of named functions. *)
Ltac pres_with tac :=
  repeat first
    [ solve [tac]
    | apply preserves_ret | apply preserves_raise | apply preserves_gets
    | apply preserves_lift | apply preserves_from_option
    | apply preserves_deref
    | apply preserves_modify; intros ?; reflexivity
    | apply preserves_bind; [| intros ?]
    | apply preserves_for_each; intros ?
    | apply preserves_map_m; intros ?
    | apply preserves_fold_m; intros ? ?
    | apply preserves_try_finally
    | match goal with
      | |- preserves _ (match ?x with _ => _ end) => destruct x
      | |- preserves _ (let _ := _ in _) => cbv zeta
      end ].

(** A projection of the state that the object store, the node, the
    device and the variable binding do not enter is kept by everything
    that neither logs nor touches the context. *)
Section Frame.
Context {B X : Type}.
Variable P : plugin B.
Variable L : oplib.
Variable func : qfunc.
Variable self : nat.
Variable f : world B -> X.
Hypothesis f_qn : forall g w, f (set_qn g w) = f w.
Hypothesis f_heap : forall h w, f (set_heap h w) = f w.
Hypothesis f_dev : forall g w, f (set_dev g w) = f w.
Hypothesis f_fpv : forall v w, f (set_free_param_values v w) = f w.
Hypothesis f_kwv : forall v w, f (set_kwarg_values v w) = f w.

Ltac frame := pres_with ltac:(eauto with frame).

Lemma frame_modify_qn g : preserves f (modify (set_qn g)).
Proof using f_qn. apply preserves_modify. auto. Qed.

Lemma frame_modify_dev g : preserves f (modify (set_dev g)).
Proof using f_dev. apply preserves_modify. auto. Qed.

Lemma frame_modify_fpv v : preserves f (modify (set_free_param_values v)).
Proof using f_fpv. apply preserves_modify. auto. Qed.

Lemma frame_modify_kwv v : preserves f (modify (set_kwarg_values v)).
Proof using f_kwv. apply preserves_modify. auto. Qed.

Lemma frame_alloc o : preserves f (alloc o).
Proof using f_heap. intros w. apply f_heap. Qed.

Lemma frame_store r o : preserves f (store r o).
Proof using f_heap. apply preserves_modify. auto. Qed.

Lemma frame_val v : preserves f (val v).
Proof.
  intros w. unfold val.
  repeat match goal with
         | |- context [match ?x with _ => _ end] => destruct x
         end; reflexivity.
Qed.

Lemma frame_call g : preserves f (call g).
Proof using f_dev.
  intros w. unfold call. destruct (g (dev w)); simpl; auto.
Qed.

Lemma frame_ask {A} (g : device B -> result A) : preserves f (ask g).
Proof. intros w. reflexivity. Qed.

Hint Resolve frame_modify_qn frame_modify_dev frame_modify_fpv
  frame_modify_kwv frame_alloc frame_store frame_val frame_call
  frame_ask : frame.

Lemma frame_deepcopy r : preserves f (deepcopy r).
Proof using f_heap. unfold deepcopy. frame. Qed.

Lemma frame_Operation_parameters o : preserves f (Operation_parameters o).
Proof. unfold Operation_parameters. frame. Qed.

Lemma frame_check_validity q o : preserves f (check_validity P q o).
Proof. unfold check_validity. frame. Qed.

Lemma frame_measure rs r : preserves f (measure P rs r).
Proof. unfold measure. frame. Qed.

Lemma frame_execute q o p : preserves f (execute P q o p).
Proof using f_dev.
  unfold execute, execute_enter, execute_body, execute_leave,
    check_validity, measure.
  frame.
Qed.

Lemma frame_append_op r : preserves f (_append_op r).
Proof using f_qn. unfold _append_op. frame. Qed.

Lemma frame_run_action a : preserves f (run_action a).
Proof using f_qn f_heap. unfold run_action, _append_op. frame. Qed.

Lemma frame_resolve_item b x : preserves f (resolve_item b x).
Proof using f_heap. unfold resolve_item. frame. Qed.

Hint Resolve frame_run_action frame_resolve_item : frame.

Lemma frame_call_func v kw : preserves f (call_func func v kw).
Proof using f_qn f_heap. unfold call_func. frame. Qed.

Lemma frame_observable_ref x : preserves f (observable_ref x).
Proof. unfold observable_ref. frame. Qed.

Hint Resolve frame_observable_ref : frame.

Lemma frame_all_observables xs : preserves f (all_observables xs).
Proof. induction xs as [|x xs IH]; simpl; frame. Qed.

Hint Resolve frame_all_observables : frame.

Lemma frame_validate_return res : preserves f (validate_return res).
Proof using f_qn. unfold validate_return. frame. Qed.

Hint Resolve frame_validate_return : frame.

Lemma frame_check_return res : preserves f (check_return res).
Proof using f_qn. unfold check_return, has_return_type. frame. Qed.

Lemma frame_op_successors i o : preserves f (_op_successors i o).
Proof. unfold _op_successors. frame. Qed.

Lemma frame_scan_ev_successors r xs : preserves f (scan_ev_successors r xs).
Proof using f_heap. induction xs as [|x xs IH]; simpl; frame. Qed.

Hint Resolve frame_op_successors frame_scan_ev_successors : frame.

Lemma frame_best_for_op i : preserves f (best_for_op i).
Proof using f_heap. unfold best_for_op. frame. Qed.

Hint Resolve frame_best_for_op : frame.

Lemma frame_best_method k : preserves f (_best_method k).
Proof using f_heap. unfold _best_method, best_methods. frame. Qed.

Hint Resolve frame_best_method : frame.

Lemma frame_construct_finish res : preserves f (construct_finish res).
Proof using f_qn f_heap. unfold construct_finish. frame. Qed.

Lemma frame_set_binding a k : preserves f (set_binding a k).
Proof using f_fpv f_kwv. unfold set_binding. frame. Qed.

Lemma frame_check_op o : preserves f (check_op P o).
Proof. unfold check_op. frame. Qed.
End Frame.

(** ** Nested structures *)

Lemma nested_ind' {A} (Q : nested A -> Prop) :
  (forall a, Q (Leaf a)) ->
  (forall l, Forall Q l -> Q (Seq l)) ->
  forall x, Q x.
Proof.
  intros HL HS. fix IH 1. intros [a|l].
  - apply HL.
  - apply HS. induction l as [|y l IHl]; constructor; [apply IH | exact IHl].
Qed.

Definition unflatten_seq {A C} :=
  fix go (l : list (nested C)) (flat : list A)
    : option (list (nested A) * list A) :=
    match l with
    | [] => Some ([], flat)
    | y :: l' =>
        match unflatten_one y flat with
        | Some (n, rest) =>
            match go l' rest with
            | Some (ns, rest') => Some (n :: ns, rest')
            | None => None
            end
        | None => None
        end
    end.

Lemma unflatten_one_ok {A C} (m : nested C) :
  forall flat : list A,
    length (_flatten m) <= length flat ->
    exists n, unflatten_one m flat = Some (n, drop (length (_flatten m)) flat).
Proof.
  induction m as [c|l IH] using nested_ind'; intros flat Hlen.
  - destruct flat as [|a rest]; simpl in *; [lia|].
    exists (Leaf a). reflexivity.
  - assert (Hseq : forall flat : list A,
               length (concat (List.map _flatten l)) <= length flat ->
               exists ns, unflatten_seq l flat
                          = Some (ns, drop (length (concat (List.map _flatten l)))
                                        flat)).
    { clear Hlen flat. induction IH as [|y l Hy _ IHl]; intros flat Hlen.
      - exists []. reflexivity.
      - simpl in Hlen. rewrite length_app in Hlen.
        destruct (Hy flat ltac:(lia)) as [n Hn].
        assert (Hd : length (concat (List.map _flatten l))
                     <= length (drop (length (_flatten y)) flat)).
        { rewrite length_drop. lia. }
        destruct (IHl _ Hd) as [ns Hns].
        exists (n :: ns). simpl. rewrite Hn. simpl in Hns. rewrite Hns.
        rewrite drop_drop, length_app. repeat f_equal; lia. }
    simpl in Hlen. destruct (Hseq flat Hlen) as [ns Hns].
    exists (Seq ns). simpl. unfold unflatten_seq in Hns. rewrite Hns.
    reflexivity.
Qed.

Lemma unflatten_one_seq {A C} (l : list (nested C)) (flat : list A) n rest :
  unflatten_one (Seq l) flat = Some (n, rest) -> exists ns, n = Seq ns.
Proof.
  simpl. match goal with |- context [match ?x with _ => _ end] => destruct x as [[ns r]|] end;
    intros H; inversion H. eauto.
Qed.

Lemma unflatten_same_length {A C} (flat : list A) (model_ : list (nested C)) :
  length flat = length (flatten_args model_) ->
  exists ns, unflatten flat model_ = Ok ns.
Proof.
  intros Hlen. unfold unflatten.
  assert (Hle : length (_flatten (Seq model_)) <= length flat).
  { simpl. unfold flatten_args in Hlen. lia. }
  destruct (unflatten_one_ok (Seq model_) flat Hle) as [n Hn].
  destruct (unflatten_one_seq _ _ _ _ Hn) as [ns ->].
  rewrite Hn. change (_flatten (Seq model_)) with (flatten_args model_).
  rewrite <- Hlen, drop_all. eauto.
Qed.

(** ** C9: the construction context *)

Section Context_slot.
Context {B : Type}.
Variable func : qfunc.
Variable self : nat.

Lemma kwarg_variable_ok (kv : string * nested Q) (w : world B) :
  exists x, kwarg_variable kv w = (Ok x, w).
Proof.
  unfold kwarg_variable.
  assert (Hle : length (_flatten (snd kv))
                <= length (List.map
                             (fun i => PVar (mkVariable i (Some (fst kv)) 1))
                             (seq 0 (length (_flatten (snd kv)))))).
  { rewrite length_map, length_seq. lia. }
  destruct (unflatten_one_ok (snd kv) _ Hle) as [n Hn].
  rewrite Hn. eauto.
Qed.

Lemma map_m_kwarg_variable_ok (l : list (string * nested Q)) (w : world B) :
  exists x, map_m kwarg_variable l w = (Ok x, w).
Proof.
  induction l as [|kv l [x IH]]; simpl.
  - eauto.
  - destruct (kwarg_variable_ok kv w) as [y Hy].
    unfold bind. rewrite Hy, IH. eauto.
Qed.

(** The part of [construct] before the context never raises; it leaves
    the context alone. *)
Lemma construct_begin_ok args kwargs (w : world B) :
  exists vk w1,
    construct_begin func args kwargs w = (Ok vk, w1)
    /\ _current_context w1 = _current_context w
    /\ log w1 = log w ++ [EvConstruct].
Proof.
  unfold construct_begin.
  match goal with
  | |- context [unflatten ?t args] =>
      destruct (unflatten_same_length t args) as [vs Hvs];
      [ now rewrite length_map, length_seq | ]
  end.
  unfold bind at 1 2 3 4 5 6 7 8. cbn [modify lift]. rewrite Hvs.
  cbn [gets]. unfold bind at 1.
  destruct (cache _).
  - match goal with
    | |- context [map_m kwarg_variable ?l ?w0] =>
        destruct (map_m_kwarg_variable_ok l w0) as [kw Hkw]
    end.
    rewrite Hkw. eexists _, _. split; [reflexivity|]. split; reflexivity.
  - eexists _, _. split; [reflexivity|]. split; reflexivity.
Qed.

Lemma context_after_checks res (w : world B) :
  _current_context
    (snd ((res <- check_return res ;; construct_finish res) w))
  = _current_context w.
Proof.
  revert w. apply preserves_bind.
  - apply frame_check_return. reflexivity.
  - intros rs. apply frame_construct_finish; reflexivity.
Qed.

End Context_slot.


(** ** C8: the validation of the returned value *)

Section Return_value.
Context {B : Type}.

Lemma deref_some (w : world B) r o :
  heap w !! r = Some o -> deref r w = (Ok o, w).
Proof. intros H. unfold deref. now rewrite H. Qed.

Lemma deref_inv (w w' : world B) r o :
  deref r w = (Ok o, w') -> w' = w /\ heap w !! r = Some o.
Proof.
  unfold deref. destruct (heap w !! r); intros H; inversion H; auto.
Qed.

Lemma observable_ref_inv (w w' : world B) x y :
  observable_ref x w = (Ok y, w') ->
  w' = w
  /\ forall r, y = Some r ->
       x = Some r
       /\ exists o, heap w !! r = Some o /\ is_observable o = true.
Proof.
  destruct x as [r|]; simpl.
  - intros H. apply bind_inv_ok in H as (o & w1 & Hd & H).
    apply deref_inv in Hd as [-> Hd].
    destruct (is_observable o) eqn:Ho; inversion H; subst;
      (split; [reflexivity|]); intros r' Hr'; inversion Hr'; subst.
    eauto.
  - intros H. inversion H. split; [reflexivity|]. discriminate.
Qed.

Lemma all_observables_inv xs : forall (w w' : world B) rs,
  all_observables xs w = (Ok (Some rs), w') ->
  w' = w /\ xs = List.map Some rs
  /\ Forall (fun r => exists o, heap w !! r = Some o
                                /\ is_observable o = true) rs.
Proof.
  induction xs as [|x xs IH]; intros w w' rs; simpl.
  - intros H. inversion H. auto.
  - intros H. apply bind_inv_ok in H as (y & w1 & Hy & H).
    apply observable_ref_inv in Hy as [-> Hy].
    destruct y as [r|]; [|inversion H].
    destruct (Hy r eq_refl) as [-> Ho].
    apply bind_inv_ok in H as (ys & w2 & Hys & H).
    destruct ys as [rs'|]; inversion H; subst.
    apply IH in Hys as (-> & -> & Hall). auto.
Qed.

Lemma validate_return_inv res (w w' : world B) rs :
  validate_return res w = (Ok rs, w') ->
  heap w' = heap w /\ ev (qn w') = ev (qn w)
  /\ returned_objects res = Some rs /\ rs <> []
  /\ Forall (fun r => exists o, heap w !! r = Some o
                                /\ is_observable o = true) rs.
Proof.
  destruct res as [x|xs]; simpl.
  - intros H. apply bind_inv_ok in H as (y & w1 & Hy & H).
    apply observable_ref_inv in Hy as [-> Hy].
    destruct y as [r|]; [|inversion H].
    destruct (Hy r eq_refl) as [-> Ho].
    apply bind_inv_ok in H as (o & w2 & Hd & H).
    apply deref_inv in Hd as [-> Hd].
    inversion H; subst. simpl. repeat split; auto; discriminate.
  - destruct xs as [|x xs]; [intros H; inversion H|].
    intros H. apply bind_inv_ok in H as (ys & w1 & Hys & H).
    destruct ys as [rs'|]; [|inversion H].
    apply all_observables_inv in Hys as (-> & Hxs & Hall).
    unfold bind, modify, ret in H. inversion H; subst rs' w'. clear H.
    rewrite Hxs. split; [reflexivity|]. split; [reflexivity|].
    split; [|split; [|exact Hall]].
    + destruct rs as [|r rs]; [discriminate|].
      assert (Hf : forall l : list nat,
                 forallb (fun x : option nat => bool_decide (is_Some x))
                   (List.map Some l) = true
                 /\ omap id (List.map Some l) = l).
      { induction l as [|a l [IH1 IH2]]; [auto|].
        split; [exact IH1|].
        change (a :: omap id (List.map Some l) = a :: l).
        now f_equal. }
      destruct (Hf (r :: rs)) as [Hf1 Hf2].
      change (returned_objects (inr (List.map Some (r :: rs))))
        with (if forallb (fun x : option nat => bool_decide (is_Some x))
                   (List.map Some (r :: rs))
              then Some (omap id (List.map Some (r :: rs))) else None).
      now rewrite Hf1, Hf2.
    + destruct rs; discriminate.
Qed.

Lemma return_types_inv rs : forall (w w' : world B),
  for_each rs has_return_type w = (Ok tt, w') ->
  w' = w
  /\ Forall (fun r => exists o, heap w !! r = Some o
                                /\ return_type o <> None) rs.
Proof.
  induction rs as [|r rs IH]; intros w w'; simpl.
  - intros H. inversion H. auto.
  - intros H. apply bind_inv_ok in H as ([] & w1 & Hr & H).
    unfold has_return_type in Hr.
    apply bind_inv_ok in Hr as (o & w2 & Hd & Hr).
    apply deref_inv in Hd as [-> Hd].
    destruct (return_type o) eqn:Hrt; inversion Hr; subst.
    apply IH in H as [-> Hall]. split; [reflexivity|].
    constructor; [|exact Hall]. exists o. split; [exact Hd | congruence].
Qed.

Lemma return_types_total rs : forall (w : world B),
  Forall (fun r => is_Some (heap w !! r)) rs ->
  for_each rs has_return_type w = (Ok tt, w)
  \/ for_each rs has_return_type w = (Raise QuantumFunctionError, w).
Proof.
  induction rs as [|r rs IH]; intros w Hall.
  - now left.
  - inversion Hall as [|? ? [o Ho] Hall']; subst.
    assert (Heq : for_each (r :: rs) has_return_type w
                  = match return_type o with
                    | Some _ => for_each rs has_return_type w
                    | None => (Raise QuantumFunctionError, w)
                    end).
    { simpl. unfold bind at 1. unfold has_return_type at 1.
      unfold bind at 1. rewrite (deref_some _ _ _ Ho).
      destruct (return_type o); reflexivity. }
    rewrite Heq. destruct (return_type o); [|now right].
    exact (IH w Hall').
Qed.

Lemma observable_ref_total x (w : world B) :
  (forall r, x = Some r -> r < length (heap w)) ->
  exists y, observable_ref x w = (Ok y, w).
Proof.
  intros Hv. destruct x as [r|]; simpl; [|eauto].
  destruct (lookup_lt_is_Some_2 (heap w) r (Hv r eq_refl)) as [o Ho].
  unfold bind. rewrite (deref_some _ _ _ Ho).
  destruct (is_observable o); eauto.
Qed.

Lemma all_observables_total xs : forall (w : world B),
  (forall r, Some r ∈ xs -> r < length (heap w)) ->
  exists ys, all_observables xs w = (Ok ys, w).
Proof.
  induction xs as [|x xs IH]; intros w Hv; simpl; [eauto|].
  destruct (observable_ref_total x w) as [y Hy].
  { intros r ->. apply Hv. left. }
  unfold bind at 1. rewrite Hy. destruct y as [r|]; [|eauto].
  destruct (IH w) as [ys Hys].
  { intros r' Hr'. apply Hv. now right. }
  unfold bind. rewrite Hys. destruct ys; eauto.
Qed.

Lemma validate_return_total res (w : world B) :
  refs_valid (heap w) res ->
  (exists rs w', validate_return res w = (Ok rs, w'))
  \/ validate_return res w = (Raise QuantumFunctionError, w).
Proof.
  intros Hv. destruct res as [x|xs]; simpl in *.
  - destruct (observable_ref_total x w Hv) as [y Hy].
    rewrite (bind_ok _ _ _ _ _ Hy). destruct y as [r|]; [|now right].
    apply observable_ref_inv in Hy as [_ Hy].
    destruct (Hy r eq_refl) as [_ (o & Ho & _)].
    left. rewrite (bind_ok _ _ _ _ _ (deref_some _ _ _ Ho)).
    eexists _, _. reflexivity.
  - destruct xs as [|x xs]; [now right|].
    destruct (all_observables_total (x :: xs) w Hv) as [ys Hys].
    rewrite (bind_ok _ _ _ _ _ Hys).
    destruct ys as [rs|]; [|now right].
    left. eexists _, _. reflexivity.
Qed.

Lemma check_return_inv res (w w' : world B) rs :
  check_return res w = (Ok rs, w') ->
  returned_objects res = Some rs /\ rs <> []
  /\ Forall (fun r => is_measured_at (heap w) r = true) rs
  /\ rs = ev (qn w).
Proof.
  unfold check_return. intros H.
  apply bind_inv_ok in H as (rs1 & w1 & Hval & H).
  apply validate_return_inv in Hval as (Hh & Hev & Hret & Hne & Hobs).
  apply bind_inv_ok in H as ([] & w2 & Hrt & H).
  apply return_types_inv in Hrt as [-> Hrt].
  unfold bind at 1 in H. cbn [gets] in H.
  destruct (bool_decide_reflect (rs1 = ev (qn w1))) as [Heq|Hneq];
    inversion H; subst rs w'.
  repeat split; auto; [|congruence].
  rewrite Hh in Hrt. clear - Hobs Hrt.
  induction Hobs as [|r l (o & Ho & Hk) _ IH]; constructor.
  - inversion Hrt as [|? ? (o' & Ho' & Hr') _]; subst.
    unfold is_measured_at. rewrite Ho. rewrite Ho in Ho'.
    inversion Ho'; subst. rewrite Hk.
    destruct (return_type o'); [reflexivity | congruence].
  - apply IH. now inversion Hrt.
Qed.

Lemma check_return_total res (w : world B) :
  refs_valid (heap w) res ->
  (exists rs w', check_return res w = (Ok rs, w'))
  \/ fst (check_return res w) = Raise QuantumFunctionError.
Proof.
  intros Hv. unfold check_return.
  destruct (validate_return_total res w Hv) as [(rs & w1 & Hval)|Hval].
  - rewrite (bind_ok _ _ _ _ _ Hval).
    apply validate_return_inv in Hval as (Hh & _ & _ & _ & Hobs).
    assert (Hsome : Forall (fun r => is_Some (heap w1 !! r)) rs).
    { rewrite Hh. eapply Forall_impl; [exact Hobs|].
      intros r (o & Ho & _). eauto. }
    destruct (return_types_total rs w1 Hsome) as [Hrt|Hrt].
    + rewrite (bind_ok _ _ _ _ _ Hrt).
      assert (Hg : gets qn w1 = (Ok (qn w1), w1)) by reflexivity.
      rewrite (bind_ok _ _ _ _ _ Hg).
      destruct (bool_decide (rs = ev (qn w1))).
      * left. eexists _, _. reflexivity.
      * right. reflexivity.
    + rewrite (bind_raise _ _ _ _ _ Hrt). now right.
  - rewrite (bind_raise _ _ _ _ _ Hval). now right.
Qed.

Lemma resolve_item_valid b x (w w' : world B) y :
  resolve_item b x w = (Ok y, w') ->
  length (heap w) <= length (heap w')
  /\ forall r, y = Some r -> r < length (heap w').
Proof.
  destruct x as [i|o|]; simpl.
  - intros H. apply bind_inv_ok in H as (h & w1 & Hg & H).
    inversion Hg; subst h w1.
    destruct (bool_decide_reflect (b + i < length (heap w))) as [Hlt|Hge];
      inversion H; subst; split; auto; intros r Hr; inversion Hr; subst;
      exact Hlt.
  - intros H. apply bind_inv_ok in H as (r0 & w1 & Ha & H).
    inversion Ha; subst r0 w1. inversion H; subst. simpl.
    rewrite length_app. simpl. split; [lia|].
    intros r Hr. inversion Hr. lia.
  - intros H. inversion H; subst. split; [lia|]. discriminate.
Qed.

Lemma map_resolve_item_valid b xs : forall (w w' : world B) ys,
  map_m (resolve_item b) xs w = (Ok ys, w') ->
  length (heap w) <= length (heap w')
  /\ forall r, Some r ∈ ys -> r < length (heap w').
Proof.
  induction xs as [|x xs IH]; intros w w' ys; simpl.
  - intros H. inversion H; subst. split; [lia|].
    intros r Hr. inversion Hr.
  - intros H. apply bind_inv_ok in H as (y & w1 & Hy & H).
    apply bind_inv_ok in H as (ys' & w2 & Hys & H).
    inversion H; subst.
    apply resolve_item_valid in Hy as [Hle1 Hy].
    apply IH in Hys as [Hle2 Hys]. split; [lia|].
    intros r Hr. apply elem_of_cons in Hr as [Hr|Hr].
    + specialize (Hy r (eq_sym Hr)). lia.
    + auto.
Qed.

(** Every object that the quantum function returns is in the store. *)
Lemma trace_refs_valid func v kw (w w' : world B) res :
  trace func v kw w = (Ok res, w') -> refs_valid (heap w') res.
Proof.
  unfold trace, try_finally.
  destruct (call_func func v kw w) as [r w1] eqn:Hc. simpl.
  intros H. inversion H; subst. clear H. simpl.
  unfold call_func in Hc.
  apply bind_inv_ok in Hc as (h & w2 & Hg & Hc).
  apply bind_inv_ok in Hc as ([] & w3 & _ & Hc).
  destruct (returned _) as [x|xs].
  - apply bind_inv_ok in Hc as (y & w4 & Hy & Hc). inversion Hc; subst.
    apply resolve_item_valid in Hy as [_ Hy]. exact Hy.
  - apply bind_inv_ok in Hc as (ys & w4 & Hy & Hc). inversion Hc; subst.
    apply map_resolve_item_valid in Hy as [_ Hy]. exact Hy.
Qed.

(** C8. [construct] accepts the value that the quantum function returns
    only when it is one measured observable or a non-empty sequence of
    measured observables that are the objects of the buffer [ev], in its
    order; a returned value that is not acceptable (something that is not
    an observable, an empty sequence, an observable without return type,
    other objects or another order) raises [QuantumFunctionError].  The
    first two parts are about the checks alone, the last two about
    [construct], in the state [w2] that the quantum function leaves. *)
Theorem return_value_validation res (w : world B) :
  (forall rs w', check_return res w = (Ok rs, w') ->
     returned_objects res = Some rs /\ rs <> []
     /\ Forall (fun r => is_measured_at (heap w) r = true) rs
     /\ rs = ev (qn w))
  /\ (refs_valid (heap w) res ->
      ~ accepted (heap w) (ev (qn w)) res ->
      fst (check_return res w) = Raise QuantumFunctionError)
  /\ (forall func self args kwargs (w0 w' : world B),
        construct func self args kwargs w0 = (Ok tt, w') ->
        exists vk (w1 : world B) res0 (w2 : world B),
          trace func (fst vk) (snd vk) w1 = (Ok res0, w2)
          /\ accepted (heap w2) (ev (qn w2)) res0)
  /\ (forall func self args kwargs (w0 w1 w1' w2 : world B) vk res0,
        construct_begin func args kwargs w0 = (Ok vk, w1) ->
        enter_context self w1 = (Ok tt, w1') ->
        trace func (fst vk) (snd vk) w1' = (Ok res0, w2) ->
        ~ accepted (heap w2) (ev (qn w2)) res0 ->
        fst (construct func self args kwargs w0)
        = Raise QuantumFunctionError).
Proof.
  assert (Hbad : forall res1 (w1 : world B),
             refs_valid (heap w1) res1 ->
             ~ accepted (heap w1) (ev (qn w1)) res1 ->
             fst (check_return res1 w1) = Raise QuantumFunctionError).
  { intros res1 w1 Hv Hna.
    destruct (check_return_total res1 w1 Hv) as [(rs & w' & H)|H];
      [|exact H].
    exfalso. apply Hna. apply check_return_inv in H as (H1 & _ & H2 & H3).
    exists rs. auto. }
  split; [|split; [|split]].
  - intros rs w'. apply check_return_inv.
  - apply Hbad.
  - intros func self args kwargs w0 w' H. unfold construct in H.
    apply bind_inv_ok in H as (vk & w1 & _ & H).
    apply bind_inv_ok in H as ([] & w1' & _ & H).
    apply bind_inv_ok in H as (res0 & w2 & Ht & H).
    apply bind_inv_ok in H as (rs & w3 & Hc & _).
    exists vk, w1', res0, w2. split; [exact Ht|].
    apply check_return_inv in Hc as (H1 & _ & H2 & H3). exists rs. auto.
  - intros func self args kwargs w0 w1 w1' w2 vk res0 Hb He Ht Hna.
    unfold construct.
    rewrite (bind_ok _ _ _ _ _ Hb), (bind_ok _ _ _ _ _ He),
      (bind_ok _ _ _ _ _ Ht).
    specialize (Hbad res0 w2 (trace_refs_valid _ _ _ _ _ _ Ht) Hna).
    unfold bind. destruct (check_return res0 w2) as [[rs|e] w3];
      simpl in Hbad |- *; [discriminate | congruence].
Qed.
End Return_value.

Lemma return_value_validation_witness :
  let w := Examples.three_objects in
  fst (check_return (inr []) w) = Raise QuantumFunctionError
  /\ fst (check_return (inl (Some 2)) w) = Raise QuantumFunctionError
  /\ fst (check_return (inr [Some 1; Some 1]) w) = Raise QuantumFunctionError
  /\ (returned_objects (inl (Some 1)) = Some [1] /\ [1] <> []
       /\ Forall (fun r => is_measured_at (heap w) r = true) [1]
       /\ [1] = ev (qn w)).
Proof.
  intros w.
  assert (Hno : forall res,
             (forall rs, returned_objects res = Some rs ->
                         Forall (fun r => is_measured_at (heap w) r = true) rs ->
                         rs <> [1]) ->
             ~ accepted (heap w) (ev (qn w)) res).
  { intros res H (rs & H1 & H2 & H3). exact (H rs H1 H2 H3). }
  split; [|split; [|split]].
  - apply (proj1 (proj2 (return_value_validation (inr []) w))).
    + intros r Hr. inversion Hr.
    + apply Hno. intros rs Hrs. discriminate.
  - apply (proj1 (proj2 (return_value_validation (inl (Some 2)) w))).
    + intros r Hr. inversion Hr. simpl. lia.
    + apply Hno. intros rs Hrs. inversion Hrs. discriminate.
  - apply (proj1 (proj2 (return_value_validation (inr [Some 1; Some 1]) w))).
    + intros r Hr. apply elem_of_cons in Hr as [Hr|Hr];
        [|apply elem_of_cons in Hr as [Hr|Hr]; [|inversion Hr]];
        inversion Hr; simpl; lia.
    + apply Hno. intros rs Hrs. inversion Hrs. discriminate.
  - apply (proj1 (return_value_validation (inl (Some 1)) w)
             [1] (set_qn (with_output Float 1) w)).
    reflexivity.
Defined.

(** ** C10: the queues of the device *)

Section Device_queues.
Context {B : Type}.
Variable P : plugin B.

Lemma queues_modify_backend g (w : world B) :
  _op_queue (dev (snd (call g w))) = _op_queue (dev w)
  /\ _obs_queue (dev (snd (call g w))) = _obs_queue (dev w)
  /\ _parameters (dev (snd (call g w))) = _parameters (dev w).
Proof. unfold call. destruct (g (dev w)); auto. Qed.

(** The body of [execute] leaves the three fields as they are. *)
Lemma execute_body_keeps_queues queue obs :
  preserves (fun w : world B =>
               (_op_queue (dev w), _obs_queue (dev w), _parameters (dev w)))
    (execute_body P queue obs).
Proof.
  assert (Hcall : forall g,
             preserves (fun w : world B =>
               (_op_queue (dev w), _obs_queue (dev w), _parameters (dev w)))
               (call g)).
  { intros g w. destruct (queues_modify_backend g w) as (-> & -> & ->).
    reflexivity. }
  unfold execute_body, measure.
  pres_with ltac:(first [ apply Hcall
                        | apply frame_val
                        | apply frame_ask ]).
Qed.

(** The lifecycle of the three fields where [execute] returns: the
    properties raise [ValueError] exactly when the field is [None]; a new
    device has them [None]; [execute] sets them when the validity check
    has passed; and when [execute] returns its results they are [None]
    again. *)
Lemma queues_lifecycle :
  (forall d : device B,
      (op_queue d = Raise ValueError <-> _op_queue d = None)
      /\ (obs_queue d = Raise ValueError <-> _obs_queue d = None)
      /\ (parameters d = Raise ValueError <-> _parameters d = None))
  /\ (forall b : B,
         op_queue (Device_init b) = Raise ValueError
         /\ obs_queue (Device_init b) = Raise ValueError
         /\ parameters (Device_init b) = Raise ValueError)
  /\ (forall queue obs pars (w w' : world B),
         execute_enter P queue obs pars w = (Ok tt, w') ->
         op_queue (dev w') = Ok queue
         /\ obs_queue (dev w') = Ok obs
         /\ parameters (dev w') = Ok (dict_update [] pars))
  /\ (forall queue obs pars (w w' : world B) res,
         execute P queue obs pars w = (Ok res, w') ->
         op_queue (dev w') = Raise ValueError
         /\ obs_queue (dev w') = Raise ValueError
         /\ parameters (dev w') = Raise ValueError).
Proof.
  split; [|split; [|split]].
  - intros d. unfold op_queue, obs_queue, parameters.
    destruct (_op_queue d), (_obs_queue d), (_parameters d);
      repeat split; intros; congruence.
  - intros b. repeat split.
  - intros queue obs pars w w' H. unfold execute_enter in H.
    apply bind_inv_ok in H as ([] & w1 & _ & H).
    inversion H; subst. repeat split.
  - intros queue obs pars w w' res H. unfold execute in H.
    apply bind_inv_ok in H as ([] & w1 & _ & H).
    apply bind_inv_ok in H as (rs & w2 & _ & H).
    apply bind_inv_ok in H as ([] & w3 & Hl & H).
    inversion H; subst. inversion Hl; subst. repeat split.
Qed.
End Device_queues.

(** C10, on a device that leaves [var] to the base class, asked for a
    variance.  Before [execute] the three properties raise [ValueError];
    [execute] raises [NotImplementedError] from [var], after the fields were
    set; afterwards, outside of any [execute], the three properties return
    the queues of the failed call instead of raising. *)
Theorem queues_after_failed_execute :
  let failed := execute Examples.plain_device [] [0] [] Examples.one_variance in
  op_queue (dev Examples.one_variance) = Raise ValueError
  /\ obs_queue (dev Examples.one_variance) = Raise ValueError
  /\ parameters (dev Examples.one_variance) = Raise ValueError
  /\ fst failed = Raise NotImplementedError
  /\ op_queue (dev (snd failed)) = Ok []
  /\ obs_queue (dev (snd failed)) = Ok [0]
  /\ parameters (dev (snd failed)) = Ok [].
Proof. vm_compute. repeat split. Qed.

(** ** C1: the substituted parameter after an error *)

(** C1, on the cached node of [RX(x); return expval(PauliZ(0))] and a
    device that rejects a parameter above 2.  At [x = 1] the node evaluates
    to 1.  [jacobian] with the analytic method raises the [DeviceError] of
    the shifted evaluation; the parameter of the gate, [Variable 0] before
    the call, is then still the temporary [Variable 1]; and the same
    evaluation as before now raises [IndexError]. *)
Theorem jacobian_error_leaves_substitution :
  let dev_ := Examples.limited_device in
  let failed :=
    jacobian dev_ Examples.qubit_ops Examples.rx_circuit 0 [Leaf (NFloat 1)]
      None MethodA (1 # 10) 1 [] Examples.rx_traced in
  fst (evaluate dev_ Examples.rx_circuit 0 [Leaf 1%Q] [] Examples.rx_traced)
  = Ok [MNum 1]
  /\ fst failed = Raise DeviceError
  /\ params <$> heap Examples.rx_traced !! 0
     = Some [PVar (mkVariable 0 None 1)]
  /\ params <$> heap (snd failed) !! 0 = Some [PVar (mkVariable 1 None 1)]
  /\ fst (evaluate dev_ Examples.rx_circuit 0 [Leaf 1%Q] [] (snd failed))
     = Raise IndexError.
Proof. vm_compute. repeat split. Qed.

(** ** C4: the variance rule with two variances *)

(** C4, on [RY(x); return var(Hermitian(A, 0)), var(PauliZ(1))] for the
    matrix [A] with the rows [1, 0] and [0, 2], at the parameter 1 on the
    exact simulator, where the expectation of [A] is
    [(1 + 2 t^2) / (1 + t^2)] and that of its square
    [(1 + 4 t^2) / (1 + t^2)] at the parameter [t].  The column that
    [_pd_analytic_var] returns, which is the column of [jacobian], and the
    column of the rule taken observable by observable agree at the second
    position and differ at the first: the code returns [- 2 <A> d<A>], the
    rule [d<A^2> - 2 <A> d<A>], the derivatives being the ones of the shift
    rule.  The derivative of the expectation of the square of the first
    observable, which is not zero, is lost when the loop reaches the second
    observable. *)
Theorem variance_rule_two_variances :
  let mean_A := fun t : Q => ((1 + 2 * t * t) / (1 + t * t))%Q in
  let mean_AA := fun t : Q => ((1 + 4 * t * t) / (1 + t * t))%Q in
  let shift_rule := fun f : Q -> Q =>
    ((f (1 + np_pi / 2) - f (1 - np_pi / 2)) * (1 # 2))%Q in
  exists code0 spec0 v1,
    fst (_pd_analytic_var Examples.exact_device Examples.qubit_ops
           Examples.two_variances_circuit 0 [1%Q] 0 []
           Examples.two_variances_traced)
    = Ok [code0; v1]
    /\ fst (jacobian Examples.exact_device Examples.qubit_ops
              Examples.two_variances_circuit 0 [Leaf (NFloat 1)] None MethodA
              (1 # 10) 1 [] Examples.two_variances_traced)
       = Ok [[Finite code0; Finite v1]]
    /\ fst (variance_rule Examples.exact_device Examples.qubit_ops
              Examples.two_variances_circuit 0 [1%Q] 0 []
              Examples.two_variances_traced)
       = Ok [spec0; v1]
    /\ ~ (code0 == spec0)%Q
    /\ (code0 == - (2) * mean_A 1 * shift_rule mean_A)%Q
    /\ (spec0 == shift_rule mean_AA - 2 * mean_A 1 * shift_rule mean_A)%Q
    /\ ~ (shift_rule mean_AA == 0)%Q.
Proof.
  intros mean_A mean_AA shift_rule.
  eexists _, _, _. split; [vm_compute; reflexivity|].
  split; [vm_compute; reflexivity|].
  split; [vm_compute; reflexivity|].
  split; [|split; [|split]]; vm_compute; congruence.
Qed.

(** ** C2: when [evaluate] constructs the circuit again *)

Section Retrace.
Context {B : Type}.
Variable P : plugin B.
Variable func : qfunc.
Variable self : nat.

Let count (w : world B) : nat := constructs (log w).

Lemma constructs_app l1 l2 :
  constructs (l1 ++ l2) = constructs l1 + constructs l2.
Proof. unfold constructs. now rewrite List.filter_app, length_app. Qed.

Lemma count_construct args kwargs (w : world B) :
  count (snd (construct func self args kwargs w)) = S (count w).
Proof.
  destruct (construct_begin_ok func args kwargs w) as (vk & w1 & H1 & _ & Hl).
  unfold construct. rewrite (bind_ok _ _ _ _ _ H1).
  assert (Hrest : preserves count
            (enter_context self ;;
             res <- trace func (fst vk) (snd vk) ;;
             res <- check_return res ;; construct_finish res)).
  { unfold enter_context, trace.
    pres_with ltac:(first [ apply frame_call_func; reflexivity
                          | apply frame_check_return; reflexivity
                          | apply frame_construct_finish; reflexivity ]). }
  rewrite Hrest. unfold count. rewrite Hl, constructs_app.
  change (constructs [EvConstruct]) with 1. lia.
Qed.

Lemma count_maybe_construct args kwargs (w : world B) n :
  num_variables (qn w) = Some n ->
  length (flatten_args (model (qn w))) = n ->
  count (snd (maybe_construct func self args kwargs w))
  = count w
    + (if (bool_decide (ops (qn w) = []) || negb (cache (qn w)))
          && Nat.eqb (length (flatten_args args)) n
       then 1 else 0).
Proof.
  intros Hn Hm. unfold maybe_construct. unfold bind at 1. cbn [gets].
  rewrite Hn.
  destruct (bool_decide (ops (qn w) = []) || negb (cache (qn w))); simpl;
    [|lia].
  destruct (Nat.eqb_spec (length (flatten_args args)) n) as [Hlen|Hlen];
    simpl; [|lia].
  destruct (unflatten_same_length (flatten_args args) (model (qn w)))
    as [shaped Hs]; [congruence|].
  unfold bind, lift. rewrite Hs.
  rewrite count_construct. lia.
Qed.

Lemma count_run_circuit args kwargs :
  preserves count (run_circuit P args kwargs).
Proof.
  unfold run_circuit, circuit_checks.
  pres_with ltac:(first [ apply frame_set_binding; reflexivity
                        | apply frame_call; reflexivity
                        | apply frame_check_op
                        | apply frame_execute; reflexivity ]).
Qed.

Lemma count_evaluate args kwargs (w : world B) n :
  num_variables (qn w) = Some n ->
  length (flatten_args (model (qn w))) = n ->
  count (snd (evaluate P func self args kwargs w))
  = count w
    + (if (bool_decide (ops (qn w) = []) || negb (cache (qn w)))
          && Nat.eqb (length (flatten_args args)) n
       then 1 else 0).
Proof.
  intros Hn Hm. unfold evaluate. unfold bind at 1. cbn [modify].
  set (w0 := add_log (EvEvaluate (flatten_args args)) w).
  assert (H0 : count w0 = count w).
  { unfold count, w0. simpl. rewrite constructs_app.
    change (constructs [EvEvaluate (flatten_args args)]) with 0. lia. }
  pose proof (count_maybe_construct args kwargs w0 n Hn Hm) as Hc.
  change (qn w0) with (qn w) in Hc. rewrite H0 in Hc.
  unfold bind at 1.
  destruct (maybe_construct func self args kwargs w0) as [[u|e] w1];
    simpl in Hc |- *; [|exact Hc].
  rewrite count_run_circuit. exact Hc.
Qed.

(** C2, as the code has it.  On a node whose circuit was constructed
    before, [evaluate] constructs it again if and only if the operations
    are empty or caching is off, and the arguments flatten to as many
    values as there are variables; with another number of values nothing
    is constructed. *)
Theorem retrace_condition args kwargs (w : world B) n :
  num_variables (qn w) = Some n ->
  length (flatten_args (model (qn w))) = n ->
  (retraces (evaluate P func self args kwargs) w
   <-> (ops (qn w) = [] \/ cache (qn w) = false)
       /\ length (flatten_args args) = n)
  /\ (length (flatten_args args) <> n ->
      ~ retraces (evaluate P func self args kwargs) w).
Proof.
  intros Hn Hm. unfold retraces.
  pose proof (count_evaluate args kwargs w n Hn Hm) as Hc.
  unfold count in Hc. rewrite Hc. clear Hc.
  destruct (bool_decide_reflect (ops (qn w) = [])) as [Ho|Ho];
    destruct (cache (qn w)) eqn:Hcache;
    destruct (Nat.eqb_spec (length (flatten_args args)) n) as [Hl|Hl];
    simpl; (split; [split|]); try lia; try tauto; try intuition congruence.
Qed.
End Retrace.

Lemma retrace_condition_witness :
  let w := Examples.rx_evaluated in
  (retraces (evaluate Examples.sum_device Examples.rx_circuit 0
               [Leaf 2%Q] []) w
   <-> (ops (qn w) = [] \/ cache (qn w) = false)
       /\ length (flatten_args [Leaf 2%Q]) = 1)
  /\ (length (flatten_args [Leaf 2%Q]) <> 1 ->
      ~ retraces (evaluate Examples.sum_device Examples.rx_circuit 0
                    [Leaf 2%Q] []) w).
Proof.
  intros w.
  apply (retrace_condition Examples.sum_device Examples.rx_circuit 0
           [Leaf 2%Q] [] w 1); reflexivity.
Defined.

(** C2 as the claim words it fails on the node of [rx_circuit] without
    caching, evaluated once with one argument and then with two: caching
    is off and the number of values differs from the number of variables,
    and the circuit is not constructed again. *)
Lemma retrace_claim_counterexample :
  let w := Examples.rx_evaluated in
  let args := [Leaf 1%Q; Leaf 2%Q] in
  num_variables (qn w) = Some 1
  /\ ~ (retraces (evaluate Examples.sum_device Examples.rx_circuit 0 args []) w
        <-> (cache (qn w) = false \/ length (flatten_args args) <> 1)).
Proof.
  intros w args. split; [reflexivity|].
  intros [_ H].
  assert (Hr : retraces (evaluate Examples.sum_device Examples.rx_circuit 0
                           args []) w).
  { apply H. left. reflexivity. }
  unfold retraces in Hr. vm_compute in Hr. lia.
Qed.

(** ** C5: the gradient method of a parameter *)

Section Best_method.
Context {B : Type}.

Lemma map_m_deref rs : forall w : world B,
  Forall (fun r => is_Some (heap w !! r)) rs ->
  map_m deref rs w = (Ok (objects (heap w) rs), w).
Proof.
  induction rs as [|r rs IH]; intros w Hv; [reflexivity|].
  inversion Hv as [|? ? [o Ho] Hv']; subst. simpl.
  rewrite (bind_ok _ _ _ _ _ (deref_some _ _ _ Ho)).
  rewrite (bind_ok _ _ _ _ _ (IH w Hv')).
  unfold objects. simpl. rewrite Ho. reflexivity.
Qed.

Lemma map_m_deref_pairs rs : forall w : world B,
  Forall (fun r => is_Some (heap w !! r)) rs ->
  map_m (fun r => o <- deref r ;; ret (r, o)) rs w
  = (Ok (omap (fun r => pair r <$> heap w !! r) rs), w).
Proof.
  induction rs as [|r rs IH]; intros w Hv; [reflexivity|].
  inversion Hv as [|? ? [o Ho] Hv']; subst. simpl.
  unfold bind at 1 2. rewrite (deref_some _ _ _ Ho). cbn [ret].
  rewrite (bind_ok _ _ _ _ _ (IH w Hv')). rewrite Ho. reflexivity.
Qed.

Lemma filter_pairs h what rs :
  Forall (fun r => is_Some (h !! r)) rs ->
  let refs := List.map fst
                (List.filter (fun ro : nat * operation => kind_filter what (snd ro))
                   (omap (fun r => pair r <$> h !! r) rs)) in
  Forall (fun r => is_Some (h !! r)) refs
  /\ objects h refs = List.filter (kind_filter what) (objects h rs).
Proof.
  induction 1 as [|r rs [o Ho] _ [IH1 IH2]]; simpl; [split; [constructor|reflexivity]|].
  unfold objects. simpl. rewrite Ho. simpl.
  destruct (kind_filter what o); simpl.
  - split; [constructor; eauto|]. rewrite Ho. f_equal. exact IH2.
  - split; [exact IH1 | exact IH2].
Qed.

Lemma op_successors_spec o_idx what (w : world B) :
  Forall (fun r => is_Some (heap w !! r)) (drop (o_idx + 1) (ops (qn w))) ->
  exists refs,
    _op_successors o_idx what w = (Ok refs, w)
    /\ Forall (fun r => is_Some (heap w !! r)) refs
    /\ objects (heap w) refs
       = List.filter (kind_filter what)
           (successors_of (heap w) (ops (qn w)) o_idx).
Proof.
  intros Hv. unfold _op_successors. unfold bind at 1. cbn [gets].
  rewrite (bind_ok _ _ _ _ _ (map_m_deref_pairs _ w Hv)).
  destruct (filter_pairs (heap w) what _ Hv) as [H1 H2].
  eexists. split; [|split; [exact H1 | exact H2]].
  reflexivity.
Qed.

Lemma stops_store (h : list operation) (r : nat) (op : operation) g
  (x : nat) :
  h !! r = Some op ->
  stops <$> (<[r := set_grad_method g op]> h !! x) = stops <$> (h !! x).
Proof.
  intros Hr. destruct (decide (r = x)) as [->|Hne].
  - rewrite list_lookup_insert_eq by (eapply lookup_lt_Some; eauto).
    rewrite Hr. reflexivity.
  - now rewrite list_lookup_insert_ne.
Qed.

Lemma existsb_objects_ext (f : operation -> bool) (h h' : list operation) xs :
  (forall y : nat, f <$> (h' !! y) = f <$> (h !! y)) ->
  existsb f (objects h' xs) = existsb f (objects h xs).
Proof.
  intros Hk. induction xs as [|x xs IH]; [reflexivity|].
  change (objects h' (x :: xs))
    with (match h' !! x with
          | Some o => o :: objects h' xs
          | None => objects h' xs
          end).
  change (objects h (x :: xs))
    with (match h !! x with
          | Some o => o :: objects h xs
          | None => objects h xs
          end).
  specialize (Hk x).
  destruct (h' !! x) as [o'|], (h !! x) as [o|]; simpl in Hk |- *;
    try discriminate; [|exact IH].
  inversion Hk as [Hk']. now rewrite Hk', IH.
Qed.

Lemma scan_ev_successors_spec r xs : forall w : world B,
  is_Some (heap w !! r) ->
  Forall (fun x => is_Some (heap w !! x)) xs ->
  fst (scan_ev_successors r xs w)
  = Ok (if existsb stops (objects (heap w) xs) then Some GF else None).
Proof.
  induction xs as [|x xs IH]; intros w Hr Hv; [reflexivity|].
  inversion Hv as [|? ? [o Ho] Hv']; subst.
  simpl. rewrite (bind_ok _ _ _ _ _ (deref_some _ _ _ Ho)).
  unfold objects. simpl. rewrite Ho. simpl. unfold stops at 1.
  destruct (ev_order o) as [[|[|[|n]]]|] eqn:Hord; simpl;
    try reflexivity; try (apply IH; assumption).
  destruct (bool_decide (return_type o = Some Variance)); [reflexivity|].
  simpl. destruct Hr as [opr Hopr].
  rewrite (bind_ok _ _ _ _ _ (deref_some _ _ _ Hopr)).
  unfold bind at 1. cbn [store modify].
  set (w' := set_heap _ w).
  assert (Hkeep : forall y, stops <$> (heap w' !! y) = stops <$> (heap w !! y)).
  { intros y. apply stops_store. exact Hopr. }
  assert (Hsome : forall y, is_Some (heap w !! y) -> is_Some (heap w' !! y)).
  { intros y [oy Hy]. specialize (Hkeep y). rewrite Hy in Hkeep.
    destruct (heap w' !! y); [eauto | discriminate]. }
  pose proof (existsb_objects_ext stops (heap w) (heap w') xs Hkeep) as Heq.
  rewrite IH; [| apply Hsome; eauto | eapply Forall_impl; [exact Hv'|]; auto ].
  now rewrite Heq.
Qed.

Lemma best_for_op_value o_idx (w : world B) r op :
  ops (qn w) !! o_idx = Some r ->
  heap w !! r = Some op ->
  Forall (fun r => is_Some (heap w !! r)) (drop (o_idx + 1) (ops (qn w))) ->
  let succ := successors_of (heap w) (ops (qn w)) o_idx in
  fst (best_for_op o_idx w)
  = Ok (if negb (op_cv op) then grad_method op
        else if bool_decide (grad_method op = Some GA) then
          if forallb supports_heisenberg
               (List.filter (kind_filter OnlyG) succ)
             && negb (existsb stops (List.filter (kind_filter OnlyE) succ))
          then Some GA else Some GF
        else grad_method op).
Proof.
  intros Hr Hop Hv succ. unfold best_for_op.
  unfold bind at 1. cbn [gets]. rewrite Hr. unfold bind at 1. cbn [from_option ret].
  rewrite (bind_ok _ _ _ _ _ (deref_some _ _ _ Hop)).
  destruct (op_cv op); simpl; [|reflexivity].
  destruct (bool_decide (grad_method op = Some GA)); [|reflexivity].
  destruct (op_successors_spec o_idx OnlyG w Hv) as (gs & Hg & Hgv & Hgo).
  rewrite (bind_ok _ _ _ _ _ Hg).
  rewrite (bind_ok _ _ _ _ _ (map_m_deref gs w Hgv)).
  rewrite Hgo. fold succ.
  destruct (forallb supports_heisenberg _); simpl; [|reflexivity].
  destruct (op_successors_spec o_idx OnlyE w Hv) as (es & He & Hev & Heo).
  rewrite (bind_ok _ _ _ _ _ He).
  pose proof (scan_ev_successors_spec r es w (ex_intro _ op Hop) Hev) as Hs.
  rewrite Heo in Hs. fold succ in Hs.
  unfold bind. destruct (scan_ev_successors r es w) as [[m|e] w1];
    simpl in Hs; inversion Hs; subst.
  destruct (existsb stops _); reflexivity.
Qed.

Lemma degraded_iff (succ : list operation) :
  degraded succ
  <-> forallb supports_heisenberg (List.filter (kind_filter OnlyG) succ)
      && negb (existsb stops (List.filter (kind_filter OnlyE) succ)) = false.
Proof.
  rewrite andb_false_iff, negb_false_iff.
  unfold degraded. split.
  - intros [(x & Hx & Hk & Hs)|[(x & Hx & Hk & Ho)|(x & Hx & Hk & Ho & Hv)]].
    + left. apply not_true_is_false. intros Hall.
      rewrite forallb_forall in Hall. specialize (Hall x).
      rewrite Hall in Hs; [discriminate|].
      apply filter_In. split; [now apply list_elem_of_In|].
      simpl. now rewrite Hk.
    + right. apply existsb_exists. exists x. split.
      * apply filter_In. split; [now apply list_elem_of_In | exact Hk].
      * unfold stops. now rewrite Ho.
    + right. apply existsb_exists. exists x. split.
      * apply filter_In. split; [now apply list_elem_of_In | exact Hk].
      * unfold stops. rewrite Ho. now apply bool_decide_eq_true.
  - intros [Hf|He].
    + left.
      assert (Hex : exists x, In x (List.filter (kind_filter OnlyG) succ)
                              /\ supports_heisenberg x = false).
      { clear - Hf. induction (List.filter (kind_filter OnlyG) succ)
          as [|a l IH]; simpl in Hf; [discriminate|].
        destruct (supports_heisenberg a) eqn:Ha.
        - destruct (IH Hf) as (x & Hx & Hs). exists x. split; [now right|auto].
        - exists a. split; [now left|auto]. }
      destruct Hex as (x & Hx & Hs). apply filter_In in Hx as [Hx Hk].
      exists x. split; [now apply list_elem_of_In|]. split; [|exact Hs].
      simpl in Hk. now apply negb_true_iff.
    + apply existsb_exists in He as (x & Hx & Hs).
      apply filter_In in Hx as [Hx Hk]. simpl in Hk.
      unfold stops in Hs.
      destruct (ev_order x) as [[|[|[|n]]]|] eqn:Ho; try discriminate.
      * right. right. exists x.
        split; [now apply list_elem_of_In|]. split; [exact Hk|].
        split; [exact Ho|]. now apply bool_decide_eq_true in Hs.
      * right. left. exists x.
        split; [now apply list_elem_of_In|]. split; [exact Hk|exact Ho].
Qed.

Lemma choose_method_spec temp :
  (choose_method temp = None <-> None ∈ temp)
  /\ (choose_method temp = Some GA <-> Forall (fun m => m = Some GA) temp)
  /\ (choose_method temp = Some GF
       <-> ~ None ∈ temp /\ ~ Forall (fun m => m = Some GA) temp).
Proof.
  assert (Hall : forallb (fun k => bool_decide (k = Some GA)) temp = true
                 <-> Forall (fun m => m = Some GA) temp).
  { rewrite forallb_forall, Forall_forall. split; intros H x Hx.
    - apply list_elem_of_In in Hx. specialize (H x Hx).
      now apply bool_decide_eq_true in H.
    - apply bool_decide_eq_true. apply H. now apply list_elem_of_In. }
  unfold choose_method.
  destruct (forallb _ temp) eqn:Hf.
  - assert (HA : Forall (fun m => m = Some GA) temp) by now apply Hall.
    assert (Hn : ~ None ∈ temp).
    { intros Hin. rewrite Forall_forall in HA. specialize (HA _ Hin).
      discriminate. }
    repeat split; intros; try tauto; try discriminate.
  - assert (HA : ~ Forall (fun m => m = Some GA) temp).
    { intros H. apply Hall in H. congruence. }
    destruct (bool_decide_reflect (None ∈ temp)) as [Hin|Hin];
      repeat split; intros; try tauto; try discriminate.
Qed.

End Best_method.

(** C5, on the CV circuit [Displacement(a, phi, wires=0);
    return expval(NumberOperator(0))].  Both parameters depend on the one
    gate, a CV operation with the hint ['A'], followed by no other gate and
    by one observable, an expectation of order 2: none of the conditions
    that make its method finite holds.  [construct] records ['A'] for the
    first parameter and ['F'] for the second.  The visit of the gate for
    the first parameter leaves the mark ['A2'] on it; on the visit for the
    second parameter [best_for_op] returns that mark, which is neither
    ['A'] nor none. *)
Theorem gradient_method_second_visit :
  let gate := Examples.Displacement (PVar (mkVariable 0 None 1))
                (PVar (mkVariable 1 None 1)) 0 in
  let r := construct Examples.displacement_circuit 0 [Leaf 1%Q; Leaf 2%Q] []
             (Examples.start true) in
  let w := snd r in
  fst r = Ok tt
  /\ heap w = [set_grad_method (Some GA2) gate;
               Examples.NumberOperator 0 (Some Expectation)]
  /\ ops (qn w) = [0; 1]
  /\ variable_ops (qn w) = [(0, [(0, 0)]); (1, [(0, 1)])]
  /\ op_cv gate = true /\ grad_method gate = Some GA
  /\ ~ degraded (successors_of (heap w) (ops (qn w)) 0)
  /\ grad_method_for_par (qn w) = [(0, Some GA); (1, Some GF)]
  /\ fst (best_for_op 0 w) = Ok (Some GA2).
Proof.
  intros gate r w. repeat split; try reflexivity.
  rewrite degraded_iff. vm_compute. discriminate.
Qed.

(** ** C6: finite differences *)

Lemma map_m_runs {B A C} (f : A -> M B C) l : forall w ys w',
  map_m f l w = (Ok ys, w') <-> runs f l w ys w'.
Proof.
  induction l as [|a l IH]; intros w ys w'; simpl.
  - split; intros H; inversion H; subst; [constructor | reflexivity].
  - split; intros H.
    + apply bind_inv_ok in H as (c & w1 & Hc & H).
      apply bind_inv_ok in H as (cs & w2 & Hcs & H).
      inversion H; subst. econstructor; [exact Hc|]. now apply IH.
    + inversion H as [|? ? ? c w1 cs ? Hc Hcs]; subst.
      rewrite (bind_ok _ _ _ _ _ Hc).
      apply IH in Hcs. rewrite (bind_ok _ _ _ _ _ Hcs). reflexivity.
Qed.

Lemma evaluations_app l1 l2 :
  evaluations (l1 ++ l2) = evaluations l1 ++ evaluations l2.
Proof. unfold evaluations. apply omap_app. Qed.

Section Finite_differences.
Context {B : Type}.
Variable P : plugin B.
Variable L : oplib.
Variable func : qfunc.
Variable self : nat.

Let evals (w : world B) : list (list Q) := evaluations (log w).

Lemma evals_construct args kwargs (w : world B) :
  evals (snd (construct func self args kwargs w)) = evals w.
Proof.
  destruct (construct_begin_ok func args kwargs w) as (vk & w1 & H1 & _ & Hl).
  unfold construct. rewrite (bind_ok _ _ _ _ _ H1).
  assert (Hrest : preserves evals
            (enter_context self ;;
             res <- trace func (fst vk) (snd vk) ;;
             res <- check_return res ;; construct_finish res)).
  { unfold enter_context, trace.
    pres_with ltac:(first [ apply frame_call_func; reflexivity
                          | apply frame_check_return; reflexivity
                          | apply frame_construct_finish; reflexivity ]). }
  rewrite Hrest. unfold evals. rewrite Hl, evaluations_app.
  apply app_nil_r.
Qed.

Lemma evals_maybe_construct args kwargs :
  preserves evals (maybe_construct func self args kwargs).
Proof.
  intros w. unfold maybe_construct. unfold bind at 1. cbn [gets].
  destruct (bool_decide (ops (qn w) = []) || negb (cache (qn w)));
    [|reflexivity].
  destruct (num_variables (qn w)) as [n|]; [|apply evals_construct].
  destruct (Nat.eqb (length (flatten_args args)) n); [|reflexivity].
  unfold bind, lift. destruct (unflatten _ _); [|reflexivity].
  apply evals_construct.
Qed.

Lemma evals_run_circuit args kwargs :
  preserves evals (run_circuit P args kwargs).
Proof.
  unfold run_circuit, circuit_checks.
  pres_with ltac:(first [ apply frame_set_binding; reflexivity
                        | apply frame_call; reflexivity
                        | apply frame_check_op
                        | apply frame_execute; reflexivity ]).
Qed.

(** A call of [evaluate] is one evaluation, however it ends. *)
Lemma evals_evaluate args kwargs (w : world B) :
  evals (snd (evaluate P func self args kwargs w))
  = evals w ++ [flatten_args args].
Proof.
  unfold evaluate. unfold bind at 1. cbn [modify].
  set (w0 := add_log (EvEvaluate (flatten_args args)) w).
  assert (H0 : evals w0 = evals w ++ [flatten_args args]).
  { unfold evals, w0. simpl. now rewrite evaluations_app. }
  rewrite <- H0.
  apply (preserves_bind evals).
  - apply evals_maybe_construct.
  - intros _. apply evals_run_circuit.
Qed.

Lemma flatten_leaves (a : list Q) : flatten_args (List.map Leaf a) = a.
Proof.
  unfold flatten_args. induction a as [|x a IH]; [reflexivity|].
  simpl. now rewrite IH.
Qed.

Lemma evals_evaluate_flat args kwargs (w : world B) :
  evals (snd (evaluate_flat P func self args kwargs w)) = evals w ++ [args].
Proof.
  unfold evaluate_flat, bind.
  pose proof (evals_evaluate (List.map Leaf args) kwargs w) as H.
  rewrite flatten_leaves in H.
  destruct (evaluate P func self (List.map Leaf args) kwargs w)
    as [[y|e] w1]; simpl in H |- *; [|exact H].
  unfold lift. simpl. exact H.
Qed.

Lemma evaluate_flat_inv args kwargs (w w' : world B) y :
  evaluate_flat P func self args kwargs w = (Ok y, w') ->
  evals w' = evals w ++ [args].
Proof.
  intros H. pose proof (evals_evaluate_flat args kwargs w) as He.
  now rewrite H in He.
Qed.

Lemma np_sub_same_length y y0 d :
  np_sub y y0 = Ok d -> length y = length y0 ->
  d = zip_with Qminus y y0.
Proof.
  unfold np_sub, np_zip. intros H Hl.
  rewrite (proj2 (Nat.eqb_eq _ _) Hl) in H. now inversion H.
Qed.

Lemma np_true_divide_zip y y0 h :
  Qeq_bool h 0 = false ->
  np_true_divide (zip_with Qminus y y0) h
  = zip_with (fun a b => Finite ((a - b) / h)%Q) y y0.
Proof.
  intros Hh. unfold np_true_divide. rewrite Hh.
  revert y0. induction y as [|a y IH]; intros [|b y0];
    simpl; try reflexivity. now rewrite IH.
Qed.

Lemma tolist_setitem a i x :
  tolist (setitem a i x)
  = match a with
    | IntArray _ => <[i := inject_Z (trunc x)]> (tolist a)
    | FloatArray _ => <[i := x]> (tolist a)
    end.
Proof.
  destruct a as [zs|xs]; simpl; [|reflexivity].
  apply list_fmap_insert.
Qed.

Lemma from_option_inv {A} e (o : option A) (w w' : world B) a :
  from_option e o w = (Ok a, w') -> o = Some a /\ w' = w.
Proof. destruct o; intros H; inversion H; auto. Qed.

Lemma lift_inv {A} (r : result A) (w w' : world B) a :
  lift r w = (Ok a, w') -> r = Ok a /\ w' = w.
Proof. unfold lift. intros H. inversion H; auto. Qed.

Lemma evals_jacobian_setup params_ which method kwargs :
  preserves evals (jacobian_setup func self params_ which method kwargs).
Proof.
  unfold jacobian_setup.
  pres_with ltac:(first [ exact (evals_construct params_ kwargs) ]).
Qed.

(** What [_pd_finite_diff] and [jacobian] do on any array.  A column of
    order 1 makes one evaluation, at the array with the element [k]
    assigned [x + h], and is [(y - y0) / h] for the [y0] it is given; of
    order 2 it makes two, at the array with the element [k] assigned
    [x + h/2] and then [x - h/2], and is [(y2 - y1) / h]; any other order
    raises [ValueError] and evaluates nothing.  In an array of floats the
    assignment stores the value; in an array of integers it stores its
    integer part.  In [jacobian], [y0] is the value of one evaluation at
    the arguments, made before the loop when the order is 1 and some method
    is finite, and every column of the loop receives it; a column whose
    method is finite is the result of [_pd_finite_diff] with that [y0] on
    [np.array] of the flattened arguments. *)
Lemma finite_difference_steps :
  (forall params_ k h y0 kwargs (w w' : world B) col,
      _pd_finite_diff P func self params_ k h 1 (Some y0) kwargs w
      = (Ok col, w') ->
      exists x y,
        let shifted := tolist (setitem params_ k (x + h)%Q) in
        tolist params_ !! k = Some x
        /\ evaluate_flat P func self shifted kwargs w = (Ok y, w')
        /\ evals w' = evals w ++ [shifted]
        /\ (length y = length y0 -> Qeq_bool h 0 = false ->
             col = zip_with (fun a b => Finite ((a - b) / h)%Q) y y0)
        /\ exists d, np_sub y y0 = Ok d /\ col = np_true_divide d h)
  /\ (forall params_ k h y0 kwargs (w w' : world B) col,
         _pd_finite_diff P func self params_ k h 2 y0 kwargs w
         = (Ok col, w') ->
         exists x y2 y1 (w1 : world B),
           let up := setitem params_ k (x + (1 # 2) * h)%Q in
           let down := setitem up k (x - (1 # 2) * h)%Q in
           tolist params_ !! k = Some x
           /\ evaluate_flat P func self (tolist up) kwargs w = (Ok y2, w1)
           /\ evaluate_flat P func self (tolist down) kwargs w1 = (Ok y1, w')
           /\ (length y2 = length y1 -> Qeq_bool h 0 = false ->
                col = zip_with (fun a b => Finite ((a - b) / h)%Q) y2 y1)
           /\ exists d, np_sub y2 y1 = Ok d /\ col = np_true_divide d h)
  /\ (forall params_ k h order y0 kwargs (w : world B),
         order <> 1 -> order <> 2 ->
         _pd_finite_diff P func self params_ k h order y0 kwargs w
         = (Raise ValueError, w))
  /\ (forall xs zs k x,
         tolist (setitem (FloatArray xs) k x) = <[k := x]> xs
         /\ tolist (setitem (IntArray zs) k x)
            = <[k := inject_Z (trunc x)]> (List.map inject_Z zs))
  /\ (forall params_ which method h order kwargs (w w' : world B) grad,
         jacobian P L func self params_ which method h order kwargs w
         = (Ok grad, w') ->
         let args := values params_ in
         exists wh md (w1 : world B) y0 (w2 : world B) variances dim,
           jacobian_setup func self args which method kwargs w
           = (Ok (wh, md), w1)
           /\ evals w1 = evals w
           /\ jacobian_y0 P func self args md order kwargs w1 = (Ok y0, w2)
           /\ runs (jacobian_column P L func self
                      (np_array (flatten_args params_)) md
                      h order y0 variances dim kwargs) wh w2 grad w'
           /\ (order = 1 -> Some GF ∈ dict_values md ->
                exists y v,
                  evaluate P func self args kwargs w1 = (Ok y, w2)
                  /\ as_floats y = Ok v /\ y0 = Some v
                  /\ evals w2 = evals w1 ++ [flatten_args args]))
  /\ (forall flat md h order y0 variances dim kwargs k (w w' : world B) col,
         jacobian_column P L func self flat md h order y0 variances dim
           kwargs k w = (Ok col, w') ->
         is_Some (dict_get (variable_ops (qn w)) k) ->
         dict_get md k = Some (Some GF) ->
         exists v,
           _pd_finite_diff P func self flat k h order y0 kwargs w
           = (Ok v, w')
           /\ column dim v = Ok col).
Proof.
  split; [|split; [|split; [|split; [|split]]]].
  - intros params_ k h y0 kwargs w w' col H. simpl in H.
    apply bind_inv_ok in H as (x & w1 & Hx & H).
    apply from_option_inv in Hx as [Hx ->].
    apply bind_inv_ok in H as (y & w2 & Hy & H).
    apply bind_inv_ok in H as (y0' & w3 & Hy0 & H).
    inversion Hy0; subst y0' w3.
    apply bind_inv_ok in H as (d & w4 & Hd & H).
    apply lift_inv in Hd as [Hd ->]. inversion H; subst.
    exists x, y. cbv zeta. split; [exact Hx|]. split; [exact Hy|].
    split; [eapply evaluate_flat_inv; exact Hy|]. split; [|eauto].
    intros Hl Hh. rewrite (np_sub_same_length _ _ _ Hd Hl).
    now apply np_true_divide_zip.
  - intros params_ k h y0 kwargs w w' col H. simpl in H.
    apply bind_inv_ok in H as (x & w1 & Hx & H).
    apply from_option_inv in Hx as [Hx ->].
    apply bind_inv_ok in H as (y2 & w2 & Hy2 & H).
    apply bind_inv_ok in H as (y1 & w3 & Hy1 & H).
    apply bind_inv_ok in H as (d & w4 & Hd & H).
    apply lift_inv in Hd as [Hd ->]. inversion H; subst.
    exists x, y2, y1, w2. cbv zeta. split; [exact Hx|]. split; [exact Hy2|].
    split; [exact Hy1|]. split; [|eauto].
    intros Hl Hh. rewrite (np_sub_same_length _ _ _ Hd Hl).
    now apply np_true_divide_zip.
  - intros params_ k h order y0 kwargs w H1 H2.
    destruct order as [|[|[|n]]]; try congruence; reflexivity.
  - intros xs zs k x. split; [reflexivity|].
    apply (tolist_setitem (IntArray zs)).
  - intros params_ which method h order kwargs w w' grad H args.
    unfold jacobian in H. fold args in H.
    apply bind_inv_ok in H as ([wh md] & w1 & Hs & H).
    apply bind_inv_ok in H as (y0 & w2 & Hy0 & H).
    unfold jacobian_columns in H.
    apply bind_inv_ok in H as (q & w3 & Hq & H). inversion Hq; subst q w3.
    apply bind_inv_ok in H as (evs & w3 & Hevs & H).
    assert (Hw3 : w3 = w2).
    { pose proof (preserves_map_m (fun w => w) deref (ev (qn w2))
                    (fun a => preserves_deref _ a) w2) as Hp.
      now rewrite Hevs in Hp. }
    subst w3. simpl in H. apply map_m_runs in H.
    exists wh, md, w1, y0, w2. eexists _, _.
    split; [exact Hs|].
    split; [pose proof (evals_jacobian_setup args which method kwargs w)
              as He; now rewrite Hs in He|].
    split; [exact Hy0|]. split; [exact H|].
    intros Ho Hin. subst order. unfold jacobian_y0 in Hy0.
    rewrite bool_decide_eq_true_2 in Hy0 by exact Hin. simpl in Hy0.
    apply bind_inv_ok in Hy0 as (y & w3 & Hy & Hy0).
    apply bind_inv_ok in Hy0 as (v & w4 & Hv & Hy0).
    apply lift_inv in Hv as [Hv ->]. inversion Hy0; subst.
    exists y, v. split; [exact Hy|]. split; [exact Hv|].
    split; [reflexivity|].
    pose proof (evals_evaluate args kwargs w1) as He.
    now rewrite Hy in He.
  - intros flat md h order y0 variances dim kwargs k w w' col H [s Hs] Hm.
    unfold jacobian_column in H.
    apply bind_inv_ok in H as (q & w1 & Hq & H). inversion Hq; subst q w1.
    rewrite Hs in H.
    apply bind_inv_ok in H as (pm & w1 & Hpm & H).
    apply from_option_inv in Hpm as [Hpm ->].
    rewrite Hm in Hpm. inversion Hpm; subst pm.
    apply bind_inv_ok in H as (v & w2 & Hv & H).
    apply lift_inv in H as [H ->]. eauto.
Qed.
End Finite_differences.

(** C6, on the cached node of [RY(x); return expval(PauliZ(0))] on the
    exact simulator, where the value of the circuit at the parameter [t] is
    [(1 - t^2) / (1 + t^2)]; [jacobian] is called with the method ['F'],
    the order 1 and the step [h = 1e-7].  On the argument [1.0] it
    evaluates the circuit at 1 and at [1 + h], and the column is
    [(y(1 + h) - y(1)) / h], which is not zero.  On the argument [1], an
    [int], it evaluates the circuit at 1 twice and the column is zero:
    [flat_params] is an array of integers, and the assignment of [1 + h]
    to its element stores 1. *)
Theorem finite_difference_integer_argument :
  let h := (1 # 10000000)%Q in
  let y := fun t : Q => ((1 - t * t) / (1 + t * t))%Q in
  let run := fun x : number =>
    jacobian Examples.exact_device Examples.qubit_ops Examples.ry_circuit 0
      [Leaf x] None MethodF h 1 [] Examples.ry_traced in
  evaluations (log Examples.ry_traced) = []
  /\ (exists d, fst (run (NFloat 1)) = Ok [[Finite d]]
                /\ (d == (y (1 + h) - y 1) / h)%Q /\ ~ (d == 0)%Q)
  /\ evaluations (log (snd (run (NFloat 1)))) = [[1%Q]; [(1 + h)%Q]]
  /\ np_array [NInt 1] = IntArray [1%Z]
  /\ (exists d, fst (run (NInt 1)) = Ok [[Finite d]] /\ (d == 0)%Q)
  /\ evaluations (log (snd (run (NInt 1)))) = [[1%Q]; [1%Q]].
Proof.
  intros h y run. split; [reflexivity|].
  split.
  { eexists. split; [vm_compute; reflexivity|].
    split; vm_compute; congruence. }
  split; [vm_compute; reflexivity|].
  split; [reflexivity|].
  split.
  { eexists. split; [vm_compute; reflexivity|]. vm_compute. reflexivity. }
  vm_compute. reflexivity.
Qed.

(** ** C3: the parameter-shift rule *)

Section Simulation.
Context {B : Type}.

Lemma sim_bind {A1 A2 C1 C2} (pre mid post : world B -> world B -> Prop)
  (RV : A1 -> A2 -> Prop) (RV' : C1 -> C2 -> Prop)
  (m1 : M B A1) (m2 : M B A2) (k1 : A1 -> M B C1) (k2 : A2 -> M B C2) :
  sim pre mid RV m1 m2 ->
  (forall a1 a2, RV a1 a2 -> sim mid post RV' (k1 a1) (k2 a2)) ->
  sim pre post RV' (bind m1 k1) (bind m2 k2).
Proof.
  intros Hm Hk w1 w2 Hpre. specialize (Hm w1 w2 Hpre). unfold bind.
  destruct (m1 w1) as [[a1|e1] w1'], (m2 w2) as [[a2|e2] w2'];
    simpl in Hm; try contradiction.
  - destruct Hm as [Ha Hw]. apply (Hk a1 a2 Ha w1' w2' Hw).
  - exact Hm.
Qed.

Lemma sim_ret {A1 A2} (R : world B -> world B -> Prop)
  (RV : A1 -> A2 -> Prop) a1 a2 :
  RV a1 a2 -> sim R R RV (ret a1) (ret a2).
Proof. intros H w1 w2 Hw. simpl. auto. Qed.

Lemma sim_raise {A1 A2} (pre post : world B -> world B -> Prop)
  (RV : A1 -> A2 -> Prop) e :
  sim pre post RV (raise e) (raise e).
Proof. intros w1 w2 _. reflexivity. Qed.

Lemma sim_weaken {A1 A2} (pre pre' post post' : world B -> world B -> Prop)
  (RV : A1 -> A2 -> Prop) m1 m2 :
  (forall w1 w2, pre' w1 w2 -> pre w1 w2) ->
  (forall w1 w2, post w1 w2 -> post' w1 w2) ->
  sim pre post RV m1 m2 -> sim pre' post' RV m1 m2.
Proof.
  intros Hpre Hpost H w1 w2 Hw. specialize (H w1 w2 (Hpre _ _ Hw)).
  unfold agree in *.
  destruct (m1 w1) as [[a1|e1] w1'], (m2 w2) as [[a2|e2] w2'];
    try contradiction; auto.
  destruct H. auto.
Qed.

Lemma sim_for_each {A1 A2} (R : world B -> world B -> Prop)
  (RX : A1 -> A2 -> Prop) (f1 : A1 -> M B unit) (f2 : A2 -> M B unit) l1 l2 :
  Forall2 RX l1 l2 ->
  (forall x1 x2, RX x1 x2 -> sim R R eq (f1 x1) (f2 x2)) ->
  sim R R eq (for_each l1 f1) (for_each l2 f2).
Proof.
  intros Hl Hf. induction Hl as [|x1 x2 l1 l2 Hx _ IH]; simpl.
  - now apply sim_ret.
  - eapply sim_bind; [apply Hf; exact Hx|]. intros _ _ _. exact IH.
Qed.

Lemma sim_map_m {A1 A2 C1 C2} (R : world B -> world B -> Prop)
  (RX : A1 -> A2 -> Prop) (RV : C1 -> C2 -> Prop)
  (f1 : A1 -> M B C1) (f2 : A2 -> M B C2) l1 l2 :
  Forall2 RX l1 l2 ->
  (forall x1 x2, RX x1 x2 -> sim R R RV (f1 x1) (f2 x2)) ->
  sim R R (Forall2 RV) (map_m f1 l1) (map_m f2 l2).
Proof.
  intros Hl Hf. induction Hl as [|x1 x2 l1 l2 Hx _ IH]; simpl.
  - apply sim_ret. constructor.
  - eapply sim_bind; [apply Hf; exact Hx|]. intros y1 y2 Hy.
    eapply sim_bind; [exact IH|]. intros ys1 ys2 Hys.
    apply sim_ret. now constructor.
Qed.

Lemma sim_fold_m {A C} (R : world B -> world B -> Prop)
  (f1 f2 : C -> A -> M B C) l :
  (forall c x, sim R R eq (f1 c x) (f2 c x)) ->
  forall acc, sim R R eq (fold_m f1 l acc) (fold_m f2 l acc).
Proof.
  intros Hf. induction l as [|x l IH]; intros acc; simpl.
  - now apply sim_ret.
  - eapply sim_bind; [apply Hf|]. intros c1 c2 <-. apply IH.
Qed.

Lemma Forall2_same {A} (R : A -> A -> Prop) (l : list A) :
  (forall x, R x x) -> Forall2 R l l.
Proof. intros H. induction l; constructor; auto. Qed.
End Simulation.

Section Run_alike.
Context {B : Type}.
Variable P : plugin B.
Hypothesis reset_constant : forall d d' : device B, reset P d = reset P d'.

Let RA (w1 w2 : world B) : Prop :=
  same_views w1 w2 /\ backend (dev w1) = backend (dev w2).
Let RB (w1 w2 : world B) : Prop :=
  same_views w1 w2 /\ dev w1 = dev w2.

Lemma Operation_parameters_pure o (w : world B) :
  Operation_parameters o w
  = (resolve_all (free_param_values w) (kwarg_values w) (params o), w).
Proof.
  unfold Operation_parameters.
  induction (params o) as [|p ps IH]; [reflexivity|].
  assert (Hp : (match p with
                | PNum x => ret (VNum x)
                | PVar v => x <- val v ;; ret (VNum x)
                | PArr a => ret (VArr a)
                end) w
               = (resolve (free_param_values w) (kwarg_values w) p, w)).
  { destruct p as [x|v|a]; try reflexivity.
    unfold bind, val, resolve.
    destruct (name v) as [k|].
    - destruct (dict_get (kwarg_values w) k) as [a|]; [|reflexivity].
      destruct (a !! idx v); reflexivity.
    - destruct (free_param_values w !! idx v); reflexivity. }
  simpl. destruct (resolve _ _ p) as [v|e].
  - rewrite (bind_ok _ _ _ _ _ Hp).
    destruct (resolve_all _ _ ps) as [vs|e].
    + rewrite (bind_ok _ _ _ _ _ IH). reflexivity.
    + rewrite (bind_raise _ _ _ _ _ IH). reflexivity.
  - rewrite (bind_raise _ _ _ _ _ Hp). reflexivity.
Qed.

Lemma same_views_static (w1 w2 : world B) r o1 o2 :
  same_views w1 w2 -> heap w1 !! r = Some o1 -> heap w2 !! r = Some o2 ->
  same_static o1 o2
  /\ resolve_all (free_param_values w1) (kwarg_values w1) (params o1)
     = resolve_all (free_param_values w2) (kwarg_values w2) (params o2).
Proof.
  intros [_ Hv] H1 H2. specialize (Hv r). rewrite H1, H2 in Hv.
  simpl in Hv. unfold view in Hv. inversion Hv. unfold same_static. auto.
Qed.

Lemma same_views_lookup (w1 w2 : world B) r :
  same_views w1 w2 ->
  (heap w1 !! r = None <-> heap w2 !! r = None).
Proof.
  intros [_ Hv]. specialize (Hv r).
  destruct (heap w1 !! r), (heap w2 !! r); simpl in Hv;
    split; intros H; try discriminate; reflexivity.
Qed.

(** A step that looks up the object [r] and continues with what the
    device sees of it. *)
Lemma sim_deref_step {A} (R : world B -> world B -> Prop)
  (k : operation -> M B A) r :
  (forall w1 w2, R w1 w2 -> same_views w1 w2) ->
  (forall w1 w2 o1 o2,
      R w1 w2 -> heap w1 !! r = Some o1 -> heap w2 !! r = Some o2 ->
      agree R eq (k o1 w1) (k o2 w2)) ->
  sim R R eq (o <- deref r ;; k o) (o <- deref r ;; k o).
Proof.
  intros HR Hk w1 w2 Hw. unfold bind, deref.
  pose proof (same_views_lookup w1 w2 r (HR _ _ Hw)) as Hn.
  destruct (heap w1 !! r) as [o1|] eqn:H1, (heap w2 !! r) as [o2|] eqn:H2.
  - apply Hk; assumption.
  - destruct Hn as [_ Hn]. specialize (Hn eq_refl). discriminate.
  - destruct Hn as [Hn _]. specialize (Hn eq_refl). discriminate.
  - reflexivity.
Qed.

Lemma RB_backend (w1 w2 : world B) b :
  RB w1 w2 -> RB (set_dev (with_backend b) w1) (set_dev (with_backend b) w2).
Proof.
  intros [[Hq Hv] Hd]. split; [split|].
  - exact Hq.
  - exact Hv.
  - simpl. now rewrite Hd.
Qed.

Lemma sim_call g : sim RB RB eq (call g) (call g).
Proof.
  intros w1 w2 Hw. unfold call. destruct Hw as [Hv Hd]. rewrite Hd.
  destruct (g (dev w2)) as [b|e]; simpl; [|reflexivity].
  split; [reflexivity|]. apply RB_backend. now split.
Qed.

(** The resolution of the parameters of two objects that the device sees
    alike. *)
Lemma agree_parameters {A} (R : world B -> world B -> Prop)
  (k1 k2 : list pval -> M B A) (w1 w2 : world B) o1 o2 :
  resolve_all (free_param_values w1) (kwarg_values w1) (params o1)
  = resolve_all (free_param_values w2) (kwarg_values w2) (params o2) ->
  (forall ps, agree R eq (k1 ps w1) (k2 ps w2)) ->
  agree R eq ((ps <- Operation_parameters o1 ;; k1 ps) w1)
    ((ps <- Operation_parameters o2 ;; k2 ps) w2).
Proof.
  intros Hr Hk. unfold bind. rewrite !Operation_parameters_pure, Hr.
  destruct (resolve_all _ _ (params o2)) as [ps|e]; [apply Hk|].
  exact eq_refl.
Qed.

Lemma sim_apply_step r :
  sim RB RB eq
    (operation <- deref r ;;
     ps <- Operation_parameters operation ;;
     call (apply P (op_name operation) (wires operation) ps))
    (operation <- deref r ;;
     ps <- Operation_parameters operation ;;
     call (apply P (op_name operation) (wires operation) ps)).
Proof.
  apply sim_deref_step; [intros w1 w2 [H _]; exact H|].
  intros w1 w2 o1 o2 Hw H1 H2.
  destruct (same_views_static w1 w2 r o1 o2 (proj1 Hw) H1 H2)
    as [(Hn & Hwi & _ & _) Hr].
  apply agree_parameters; [exact Hr|]. intros ps. rewrite Hn, Hwi.
  apply sim_call. exact Hw.
Qed.

Lemma sim_ask {A} (g : device B -> result A) : sim RB RB eq (ask g) (ask g).
Proof.
  intros w1 w2 Hw. unfold ask. destruct Hw as [Hv Hd]. rewrite Hd.
  destruct (g (dev w2)); simpl; [|reflexivity]. split; [reflexivity|].
  now split.
Qed.

Lemma sim_ask_append {A} (g : device B -> result A) (f : A -> list mval) :
  sim RB RB eq (x <- ask g ;; ret (f x)) (x <- ask g ;; ret (f x)).
Proof.
  apply (sim_bind RB RB RB eq eq); [apply sim_ask|].
  intros x ? <-. now apply sim_ret.
Qed.

Lemma sim_measure rs r : sim RB RB eq (measure P rs r) (measure P rs r).
Proof.
  unfold measure. apply sim_deref_step; [intros w1 w2 [H _]; exact H|].
  intros w1 w2 o1 o2 Hw H1 H2.
  destruct (same_views_static w1 w2 r o1 o2 (proj1 Hw) H1 H2)
    as [(Hn & Hwi & Hrt & Hns) Hr].
  rewrite Hn, Hwi, Hrt, Hns.
  destruct (return_type o2) as [[| |]|].
  - apply agree_parameters; [exact Hr|]. intros ps.
    apply (sim_ask_append (expval P (op_name o2) (wires o2) ps)
             (fun x => rs ++ [MNum x])). exact Hw.
  - apply agree_parameters; [exact Hr|]. intros ps.
    apply (sim_ask_append (var P (op_name o2) (wires o2) ps)
             (fun x => rs ++ [MNum x])). exact Hw.
  - destruct (num_samples o2) as [n|]; [|exact eq_refl].
    apply agree_parameters; [exact Hr|]. intros ps.
    apply (sim_ask_append (sample P (op_name o2) (wires o2) ps n)
             (fun a => rs ++ [MArr a])). exact Hw.
  - apply (sim_ret RB eq rs rs eq_refl). exact Hw.
Qed.

Lemma sim_execute_body queue obs :
  sim RB RB eq (execute_body P queue obs) (execute_body P queue obs).
Proof.
  unfold execute_body.
  eapply sim_bind; [apply sim_call|]. intros _ _ _.
  eapply sim_bind.
  { apply (sim_for_each RB eq); [apply Forall2_same; reflexivity|].
    intros r ? <-. apply sim_apply_step. }
  intros _ _ _.
  eapply sim_bind; [apply sim_call|]. intros _ _ _.
  eapply sim_bind; [apply sim_call|]. intros _ _ _.
  eapply sim_bind; [apply sim_fold_m; intros; apply sim_measure|].
  intros res ? <-.
  eapply sim_bind; [apply sim_call|]. intros _ _ _.
  now apply sim_ret.
Qed.

Lemma sim_deref (R : world B -> world B -> Prop) r :
  (forall w1 w2, R w1 w2 -> same_views w1 w2) ->
  sim R R same_static (deref r) (deref r).
Proof.
  intros HR w1 w2 Hw. unfold deref.
  pose proof (same_views_lookup w1 w2 r (HR _ _ Hw)) as Hn.
  destruct (heap w1 !! r) as [o1|] eqn:H1, (heap w2 !! r) as [o2|] eqn:H2.
  - split; [|exact Hw].
    apply (same_views_static w1 w2 r o1 o2 (HR _ _ Hw) H1 H2).
  - destruct Hn as [_ Hn]. specialize (Hn eq_refl). discriminate.
  - destruct Hn as [Hn _]. specialize (Hn eq_refl). discriminate.
  - reflexivity.
Qed.

Lemma sim_gets_qn (R : world B -> world B -> Prop) :
  (forall w1 w2, R w1 w2 -> same_views w1 w2) ->
  sim R R eq (gets qn) (gets qn).
Proof.
  intros HR w1 w2 Hw. simpl. split; [|exact Hw].
  apply (HR _ _ Hw).
Qed.

Lemma same_static_wires l1 l2 :
  Forall2 same_static l1 l2 -> List.map wires l1 = List.map wires l2.
Proof.
  induction 1 as [|o1 o2 l1 l2 (_ & Hw & _) _ IH]; [reflexivity|].
  simpl. now rewrite Hw, IH.
Qed.

Lemma sim_circuit_checks (R : world B -> world B -> Prop) :
  (forall w1 w2, R w1 w2 -> same_views w1 w2) ->
  sim R R eq (circuit_checks P) (circuit_checks P).
Proof.
  intros HR. unfold circuit_checks.
  eapply sim_bind; [apply sim_gets_qn; exact HR|]. intros q ? <-.
  eapply sim_bind.
  { apply (sim_map_m R eq same_static); [apply Forall2_same; reflexivity|].
    intros r ? <-. apply sim_deref. exact HR. }
  intros evs1 evs2 Hevs. rewrite (same_static_wires _ _ Hevs).
  eapply sim_bind.
  { instantiate (1 := eq). instantiate (1 := R).
    destruct (bool_decide _); [now apply sim_ret | apply sim_raise]. }
  intros _ _ _.
  eapply sim_bind.
  { apply (sim_map_m R eq same_static); [apply Forall2_same; reflexivity|].
    intros r ? <-. apply sim_deref. exact HR. }
  intros os1 os2 Hos.
  apply (sim_for_each R same_static); [exact Hos|].
  intros o1 o2 (_ & Hw & _). unfold check_op. rewrite Hw.
  destruct (forallb _ _); [now apply sim_ret | apply sim_raise].
Qed.

Lemma sim_check_validity (R : world B -> world B -> Prop) queue obs :
  (forall w1 w2, R w1 w2 -> same_views w1 w2) ->
  sim R R eq (check_validity P queue obs) (check_validity P queue obs).
Proof.
  intros HR. unfold check_validity.
  assert (Hstep : forall (names : list string) r,
             sim R R eq
               (o <- deref r ;;
                if bool_decide (op_name o ∈ names) then ret tt
                else raise DeviceError)
               (o <- deref r ;;
                if bool_decide (op_name o ∈ names) then ret tt
                else raise DeviceError)).
  { intros names r. eapply sim_bind; [apply sim_deref; exact HR|].
    intros o1 o2 (Hn & _). rewrite Hn.
    destruct (bool_decide _); [now apply sim_ret | apply sim_raise]. }
  eapply sim_bind.
  { apply (sim_for_each R eq); [apply Forall2_same; reflexivity|].
    intros r ? <-. apply Hstep. }
  intros _ _ _.
  apply (sim_for_each R eq); [apply Forall2_same; reflexivity|].
  intros r ? <-. apply Hstep.
Qed.

Lemma sim_execute queue obs pars :
  sim RA RB eq (execute P queue obs pars) (execute P queue obs pars).
Proof.
  unfold execute, execute_enter.
  eapply sim_bind.
  { eapply sim_bind.
    - apply (sim_check_validity RA). intros w1 w2 [H _]. exact H.
    - intros _ _ _.
      instantiate (1 := eq). instantiate (1 := RB).
      intros w1 w2 [[Hq Hv] Hb]. simpl. split; [reflexivity|].
      split; [split; assumption|]. simpl. unfold with_queues. now rewrite Hb. }
  intros _ _ _.
  eapply sim_bind; [apply sim_execute_body|]. intros res ? <-.
  eapply sim_bind.
  { instantiate (1 := eq). instantiate (1 := RB).
    intros w1 w2 [[Hq Hv] Hd]. simpl. split; [reflexivity|].
    split; [split; assumption|]. simpl. now rewrite Hd. }
  intros _ _ _. now apply sim_ret.
Qed.

(** Two states with the same node whose objects look alike under the
    bindings [args1] and [args2] give the same value of the circuit. *)
Lemma run_circuit_alike args1 args2 kwargs (w1 w2 : world B) :
  qn w1 = qn w2 ->
  (forall r : nat,
      view args1 (kw_binding (qn w1) kwargs) <$> (heap w1 !! r)
      = view args2 (kw_binding (qn w2) kwargs) <$> (heap w2 !! r)) ->
  fst (run_circuit P args1 kwargs w1) = fst (run_circuit P args2 kwargs w2).
Proof using reset_constant.
  intros Hq Hv.
  assert (Hsim : sim (fun a b => same_views a b) (fun _ _ => True) eq
            (call (fun d => Ok (reset P d)) ;;
             circuit_checks P ;;
             q <- gets qn ;;
             x <- execute P (queue q) (ev q) (variable_ops q) ;;
             c <- from_option AttributeError (output_conversion q) ;;
             lift (convert c x))
            (call (fun d => Ok (reset P d)) ;;
             circuit_checks P ;;
             q <- gets qn ;;
             x <- execute P (queue q) (ev q) (variable_ops q) ;;
             c <- from_option AttributeError (output_conversion q) ;;
             lift (convert c x))).
  { eapply sim_bind.
    { instantiate (1 := eq). instantiate (1 := RA).
      intros a b [Hqa Hva]. unfold call. simpl. split; [reflexivity|].
      split; [split; assumption|]. simpl. apply reset_constant. }
    intros _ _ _.
    eapply sim_bind.
    { apply (sim_circuit_checks RA). intros a b [H _]. exact H. }
    intros _ _ _.
    eapply sim_bind.
    { apply (sim_gets_qn RA). intros a b [H _]. exact H. }
    intros q ? <-.
    eapply sim_bind; [apply sim_execute|]. intros x ? <-.
    intros a b _. unfold bind.
    destruct (output_conversion q) as [c|]; simpl; [|reflexivity].
    unfold lift. destruct (convert c x); simpl; auto. }
  assert (Hun : forall args (w : world B),
             run_circuit P args kwargs w
             = (call (fun d => Ok (reset P d)) ;;
                circuit_checks P ;;
                q <- gets qn ;;
                x <- execute P (queue q) (ev q) (variable_ops q) ;;
                c <- from_option AttributeError (output_conversion q) ;;
                lift (convert c x))
                 (set_kwarg_values (kw_binding (qn w) kwargs)
                    (set_free_param_values args w))).
  { intros args w. reflexivity. }
  rewrite !Hun.
  assert (Hab : same_views
                  (set_kwarg_values (kw_binding (qn w1) kwargs)
                     (set_free_param_values args1 w1))
                  (set_kwarg_values (kw_binding (qn w2) kwargs)
                     (set_free_param_values args2 w2))).
  { split; [exact Hq|]. intros r. exact (Hv r). }
  specialize (Hsim _ _ Hab). unfold agree in Hsim.
  match type of Hsim with
  | match ?x with _ => _ end =>
      destruct x as [[a1|e1] wa]
  end;
  match type of Hsim with
  | match ?y with _ => _ end =>
      destruct y as [[a2|e2] wb]
  end; simpl in *; try contradiction.
  - destruct Hsim as [-> _]. reflexivity.
  - now subst.
Qed.
End Run_alike.

Lemma resolve_all_ext f1 k1 f2 k2 ps1 ps2 :
  Forall2 (fun q1 q2 => resolve f1 k1 q1 = resolve f2 k2 q2) ps1 ps2 ->
  resolve_all f1 k1 ps1 = resolve_all f2 k2 ps2.
Proof.
  induction 1 as [|q1 q2 ps1 ps2 Hq _ IH]; [reflexivity|].
  simpl. now rewrite Hq, IH.
Qed.

Lemma set_params_same op : set_params (params op) op = op.
Proof. now destruct op. Qed.

Lemma set_params_twice ps ps' op :
  set_params ps (set_params ps' op) = set_params ps op.
Proof. reflexivity. Qed.

Lemma np_scale_terms yp ym c m :
  Forall2 Qeq (np_scale (zip_with Qminus yp ym) (c * m)%Q)
    (zip_with (fun a b => ((a - b) * c * m)%Q) yp ym).
Proof.
  revert ym. induction yp as [|a yp IH]; intros [|b ym]; simpl;
    try constructor; [ring | apply IH].
Qed.

(** The objects of the store look the same to the device when a free
    variable of index [n = length params_] stands at one place and the
    extended parameters give it the value [x], and when the number that it
    resolves to stands there.  No other free variable has index [n]. *)
Lemma substituted_view (h : list operation) (params_ : list Q) kwv
  (r p : nat) op m x :
  h !! r = Some op ->
  (forall r' o p' v', h !! r' = Some o -> params o !! p' = Some (PVar v') ->
                      name v' = None -> idx v' < length params_) ->
  forall r' : nat,
    view (params_ ++ [x]) kwv
      <$> (<[r := set_params
                    (<[p := PVar (mkVariable (length params_) None m)]>
                       (params op)) op]> h !! r')
    = view params_ kwv
        <$> (<[r := set_params (<[p := PNum (x * m)%Q]> (params op)) op]> h
               !! r').
Proof.
  intros Hr Hrogue r'.
  assert (Hsame : forall o, h !! r' = Some o ->
             Forall2 (fun q1 q2 => resolve (params_ ++ [x]) kwv q1
                                   = resolve params_ kwv q2)
               (params o) (params o)).
  { intros o Ho. apply Forall2_same_length_lookup. split; [reflexivity|].
    intros i q1 q2 H1 H2. rewrite H1 in H2. inversion H2; subst q2.
    destruct q1 as [y|v|a]; try reflexivity. unfold resolve.
    destruct (name v) eqn:Hname; [reflexivity|].
    rewrite lookup_app_l; [reflexivity|]. eapply Hrogue; eauto. }
  destruct (decide (r = r')) as [<-|Hne].
  - assert (Hlt : r < length h) by (eapply lookup_lt_Some; eauto).
    rewrite !list_lookup_insert_eq by exact Hlt. simpl. unfold view. simpl.
    do 2 f_equal. apply resolve_all_ext.
    apply Forall2_insert; [apply Hsame; exact Hr|].
    unfold resolve. simpl.
    rewrite lookup_app_r by lia. rewrite Nat.sub_diag. reflexivity.
  - rewrite !list_lookup_insert_ne by exact Hne.
    destruct (h !! r') as [o|] eqn:Ho; [|reflexivity]. simpl.
    unfold view. do 2 f_equal. apply resolve_all_ext. now apply Hsame.
Qed.

Lemma free_below_spec n (h : list operation) :
  free_below n h = true ->
  forall (r' : nat) o (p' : nat) v',
    h !! r' = Some o -> params o !! p' = Some (PVar v') ->
    name v' = None -> idx v' < n.
Proof.
  intros H r' o p' v' Ho Hp Hn. unfold free_below in H.
  rewrite forallb_forall in H.
  assert (Hin : In o h).
  { apply list_elem_of_In. eapply list_elem_of_lookup_2. exact Ho. }
  specialize (H o Hin).
  rewrite forallb_forall in H.
  assert (Hin' : In (PVar v') (params o)).
  { apply list_elem_of_In. eapply list_elem_of_lookup_2. exact Hp. }
  specialize (H _ Hin'). simpl in H. rewrite Hn in H.
  now apply Nat.ltb_lt.
Qed.

Lemma sites_order1_spec (h : list operation) (circuit : list nat) sites :
  sites_order1 h circuit sites = true ->
  forall (site : nat * nat) r op,
    site ∈ sites -> circuit !! fst site = Some r -> h !! r = Some op ->
    grad_method op <> Some GA2
    /\ forall v, params op !! snd site = Some (PVar v) -> name v = None.
Proof.
  intros H site r op Hin Hr Hop. unfold sites_order1 in H.
  rewrite forallb_forall in H.
  specialize (H site (proj1 (list_elem_of_In _ _) Hin)).
  simpl in H. rewrite Hr, Hop in H.
  apply andb_true_iff in H as [Hg Hv]. split.
  - apply negb_true_iff in Hg. now apply bool_decide_eq_false in Hg.
  - intros v Hp. rewrite Hp in Hv. now apply bool_decide_eq_true in Hv.
Qed.

Section Parameter_shift.
Context {B : Type}.
Variable P : plugin B.
Variable L : oplib.
Variable func : qfunc.
Variable self : nat.
Hypothesis reset_constant : forall d d' : device B, reset P d = reset P d'.

Lemma maybe_construct_skip args kwargs (w : world B) n :
  num_variables (qn w) = Some n ->
  length (flatten_args args) <> n ->
  maybe_construct func self args kwargs w = (Ok tt, w).
Proof.
  intros Hn Hlen. unfold maybe_construct. unfold bind at 1. cbn [gets].
  rewrite Hn. apply Nat.eqb_neq in Hlen. rewrite Hlen.
  destruct (bool_decide _ || negb _); reflexivity.
Qed.

Lemma evaluate_flat_skip args kwargs (w : world B) n :
  num_variables (qn w) = Some n ->
  length args <> n ->
  evaluate_flat P func self args kwargs w
  = (y <- run_circuit P args kwargs ;; lift (as_floats y))
      (add_log (EvEvaluate args) w).
Proof.
  intros Hn Hlen.
  assert (Hm : maybe_construct func self (List.map Leaf args) kwargs
                 (add_log (EvEvaluate args) w)
               = (Ok tt, add_log (EvEvaluate args) w)).
  { apply (maybe_construct_skip _ _ _ n); [exact Hn|].
    now rewrite flatten_leaves. }
  unfold evaluate_flat, evaluate, bind. rewrite flatten_leaves.
  cbn [modify]. rewrite Hm. reflexivity.
Qed.

Lemma run_circuit_keeps args kwargs :
  preserves (fun w : world B => (heap w, qn w)) (run_circuit P args kwargs).
Proof.
  unfold run_circuit, circuit_checks.
  pres_with ltac:(first [ apply frame_set_binding; reflexivity
                        | apply frame_call; reflexivity
                        | apply frame_check_op
                        | apply frame_execute; reflexivity ]).
Qed.

Lemma value_of_bind {A C} (m : M B A) (f : A -> result C) (w : world B) :
  fst ((y <- m ;; lift (f y)) w)
  = match fst (m w) with
    | Ok y => f y
    | Raise e => Raise e
    end.
Proof. unfold bind, lift. destruct (m w) as [[y|e] w1]; reflexivity. Qed.

(** A shifted evaluation of [_pd_analytic], in a state whose circuit has
    the temporary variable at one place, is the value of the circuit with
    the shifted number at that place. *)
Lemma shifted_evaluation params_ kwargs (w wa wb : world B) n r p op m x y :
  num_variables (qn w) = Some n ->
  length params_ = n ->
  heap w !! r = Some op ->
  (forall r' o p' v', heap w !! r' = Some o ->
                      params o !! p' = Some (PVar v') ->
                      name v' = None -> idx v' < n) ->
  qn wa = qn w ->
  heap wa = <[r := set_params (<[p := PVar (mkVariable n None m)]> (params op))
                     op]> (heap w) ->
  evaluate_flat P func self (params_ ++ [x]) kwargs wa = (Ok y, wb) ->
  site_value P w params_ kwargs r p (x * m)%Q = Ok y
  /\ heap wb = heap wa /\ qn wb = qn wa.
Proof using reset_constant.
  intros Hn Hlen Hr Hrogue Hq Hh H.
  rewrite (evaluate_flat_skip _ _ _ n) in H;
    [| now rewrite Hq | rewrite length_app; simpl; lia].
  set (wa' := add_log (EvEvaluate (params_ ++ [x])) wa) in *.
  split.
  - unfold site_value. rewrite value_of_bind.
    pose proof (value_of_bind (run_circuit P (params_ ++ [x]) kwargs)
                  as_floats wa') as Hv.
    rewrite H in Hv. simpl in Hv.
    rewrite <- (run_circuit_alike P reset_constant (params_ ++ [x]) params_
                  kwargs wa' (with_number w r p (x * m)%Q)).
    + now rewrite <- Hv.
    + unfold with_number. rewrite Hr. exact Hq.
    + intros r'. unfold with_number. rewrite Hr. simpl. rewrite Hh, Hq.
      subst n. apply substituted_view; assumption.
  - pose proof (run_circuit_keeps (params_ ++ [x]) kwargs wa') as Hk.
    apply bind_inv_ok in H as (y0 & w1 & Hrun & H).
    apply lift_inv in H as [_ ->]. rewrite Hrun in Hk. simpl in Hk.
    inversion Hk. auto.
Qed.

Lemma set_param_inv r p x (w w' : world B) :
  set_param r p x w = (Ok tt, w') ->
  exists op, heap w !! r = Some op
             /\ w' = set_heap (<[r := set_params (<[p := x]> (params op)) op]>
                                 (heap w)) w.
Proof.
  unfold set_param. intros H.
  apply bind_inv_ok in H as (op & w1 & Hd & H).
  apply deref_inv in Hd as [-> Hd]. inversion H. eauto.
Qed.

(** One iteration of the loop of [_pd_analytic], on a circuit that is as
    in [w]: it adds the term of the site, and leaves the circuit as in
    [w]. *)
Lemma pd_site_spec params_ k kwargs n pd site (w w1 w2 : world B) pd' :
  num_variables (qn w) = Some n ->
  length params_ = n ->
  (forall r' o p' v', heap w !! r' = Some o ->
                      params o !! p' = Some (PVar v') ->
                      name v' = None -> idx v' < n) ->
  (forall r op, ops (qn w) !! fst site = Some r -> heap w !! r = Some op ->
                grad_method op <> Some GA2
                /\ forall v, params op !! snd site = Some (PVar v) ->
                             name v = None) ->
  heap w1 = heap w -> qn w1 = qn w ->
  pd_site P L func self params_ k false kwargs n pd site w1 = (Ok pd', w2) ->
  heap w2 = heap w /\ qn w2 = qn w
  /\ exists t, site_term P w params_ k kwargs site t /\ np_add pd t = Ok pd'.
Proof using reset_constant.
  intros Hn Hlen Hrogue Hord Hh Hq H. unfold pd_site in H.
  apply bind_inv_ok in H as (q & w0 & Hg & H). inversion Hg; subst q w0.
  apply bind_inv_ok in H as (r & w0 & Hr & H).
  apply from_option_inv in Hr as [Hr ->].
  apply bind_inv_ok in H as (op & w0 & Hop & H).
  apply deref_inv in Hop as [-> Hop].
  apply bind_inv_ok in H as (orig & w0 & Ho & H).
  apply from_option_inv in Ho as [Ho ->].
  apply bind_inv_ok in H as (v & w0 & Hv & H).
  destruct orig as [?|v'|?]; inversion Hv; subst v' w0. clear Hv.
  apply bind_inv_ok in H as ([] & w0 & Hidx & H).
  destruct (Nat.eqb_spec (idx v) k) as [Hk|Hk]; inversion Hidx; subst w0.
  clear Hidx.
  rewrite Hq in Hr. rewrite Hh in Hop.
  destruct (Hord r op Hr Hop) as [Hgm Hname].
  specialize (Hname v Ho).
  apply bind_inv_ok in H as ([] & wa & Hset & H).
  apply set_param_inv in Hset as (op0 & Hop0 & Hwa).
  rewrite Hh, Hop in Hop0. inversion Hop0; subst op0. clear Hop0.
  rewrite Hname, Hh in Hwa.
  apply bind_inv_ok in H as (recipe & w0 & Hrec & H).
  apply from_option_inv in Hrec as [Hrec ->].
  apply bind_inv_ok in H as ([] & w0 & Hz & H).
  destruct (Qeq_bool (mult v) 0) eqn:Hmult; inversion Hz; subst w0. clear Hz.
  apply bind_inv_ok in H as (x & w0 & Hx & H).
  apply from_option_inv in Hx as [Hx ->].
  rewrite bool_decide_eq_false_2 in H by exact Hgm. simpl in H.
  apply bind_inv_ok in H as (pd1 & w3 & Hbr & H).
  apply bind_inv_ok in Hbr as (y2 & wb & Hy2 & Hbr).
  apply bind_inv_ok in Hbr as (y1 & wc & Hy1 & Hbr).
  apply bind_inv_ok in Hbr as (d & w0 & Hd & Hbr).
  apply lift_inv in Hd as [Hd ->].
  apply lift_inv in Hbr as [Hadd ->].
  apply bind_inv_ok in H as ([] & wd & Hrestore & H).
  inversion H; subst pd1 w2. clear H.
  assert (Hqa : qn wa = qn w) by (rewrite Hwa; exact Hq).
  assert (Hha : heap wa
                = <[r := set_params
                           (<[snd site := PVar (mkVariable n None (mult v))]>
                              (params op)) op]> (heap w))
    by (rewrite Hwa; reflexivity).
  destruct (shifted_evaluation params_ kwargs w wa wb n r (snd site) op
              (mult v) _ y2 Hn Hlen Hop Hrogue Hqa Hha Hy2)
    as (Hv2 & Hhb & Hqb).
  assert (Hqb' : qn wb = qn w) by congruence.
  assert (Hhb' : heap wb
                 = <[r := set_params
                            (<[snd site := PVar (mkVariable n None (mult v))]>
                               (params op)) op]> (heap w)) by congruence.
  destruct (shifted_evaluation params_ kwargs w wb wc n r (snd site) op
              (mult v) _ y1 Hn Hlen Hop Hrogue Hqb' Hhb' Hy1)
    as (Hv1 & Hhc & Hqc).
  apply set_param_inv in Hrestore as (opc & Hopc & Hwd).
  assert (Hlt : r < length (heap w)) by (eapply lookup_lt_Some; eauto).
  rewrite Hhc, Hhb', list_lookup_insert_eq in Hopc by exact Hlt.
  inversion Hopc; subst opc. clear Hopc.
  split; [|split].
  - rewrite Hwd. simpl. rewrite Hhc, Hhb'. simpl.
    rewrite !list_insert_insert_eq.
    rewrite (list_insert_id (params op) (snd site) (PVar v) Ho).
    rewrite set_params_twice, set_params_same.
    now apply list_insert_id.
  - rewrite Hwd. simpl. congruence.
  - eexists. split; [|exact Hadd].
    exists r, op, v, x.
    exists (match recipe with None => (1 # 2)%Q | Some cs => fst cs end).
    exists (match recipe with None => (np_pi / 2)%Q | Some cs => snd cs end).
    exists y2, y1, d.
    repeat split; try assumption.
    + unfold recipe_of. rewrite Hrec. now destruct recipe as [[c s]|].
    + intros Hl. rewrite (np_sub_same_length _ _ _ Hd Hl).
      apply np_scale_terms.
Qed.

Lemma np_sum_cons t terms :
  np_sum (t :: terms)
  = fold_left (fun acc t => match acc with
                            | Ok a => np_add a t
                            | Raise e => Raise e
                            end) terms (np_add [0%Q] t).
Proof. reflexivity. Qed.

Lemma pd_loop_spec params_ k kwargs n sites (w : world B) :
  num_variables (qn w) = Some n ->
  length params_ = n ->
  (forall r' o p' v', heap w !! r' = Some o ->
                      params o !! p' = Some (PVar v') ->
                      name v' = None -> idx v' < n) ->
  (forall site r op, site ∈ sites ->
                     ops (qn w) !! fst site = Some r -> heap w !! r = Some op ->
                     grad_method op <> Some GA2
                     /\ forall v, params op !! snd site = Some (PVar v) ->
                                  name v = None) ->
  forall pd (w1 w2 : world B) pd',
    heap w1 = heap w -> qn w1 = qn w ->
    fold_m (pd_site P L func self params_ k false kwargs n) sites pd w1
    = (Ok pd', w2) ->
    heap w2 = heap w /\ qn w2 = qn w
    /\ exists terms,
         Forall2 (site_term P w params_ k kwargs) sites terms
         /\ fold_left (fun acc t => match acc with
                                     | Ok a => np_add a t
                                     | Raise e => Raise e
                                     end) terms (Ok pd) = Ok pd'.
Proof using reset_constant.
  intros Hn Hlen Hrogue.
  induction sites as [|site sites IH]; intros Hord pd w1 w2 pd' Hh Hq H.
  - inversion H; subst. repeat split; auto. exists []. split; [constructor|].
    reflexivity.
  - simpl in H. apply bind_inv_ok in H as (pd1 & wm & Hs & H).
    destruct (pd_site_spec params_ k kwargs n pd site w w1 wm pd1 Hn Hlen
                Hrogue (fun r op => Hord site r op (list_elem_of_here _ _))
                Hh Hq Hs)
      as (Hhm & Hqm & t & Ht & Hadd).
    destruct (IH (fun s r op Hin => Hord s r op (list_elem_of_further _ _ _ Hin))
                pd1 wm w2 pd' Hhm Hqm H)
      as (Hh2 & Hq2 & terms & Hterms & Hsum).
    repeat split; auto. exists (t :: terms). split; [now constructor|].
    simpl. rewrite Hadd. exact Hsum.
Qed.

(** C3. For a parameter [k] whose use sites are of analytic order 1,
    where [_pd_analytic] returns, the partial derivative is the sum over
    the use sites [(o, p)] of [variable_ops[k]] of the terms
    [(y+ - y-) * c * mult]: [(c, s)] is the recipe of the operation for
    that parameter, [(0.5, pi/2)] without one, [mult] is the scale of the
    variable at the site, and [y+], [y-] are the values of the circuit with
    the parameter of that site alone shifted by [+ s / mult] and
    [- s / mult].  The circuit is afterwards as it was. *)
Theorem parameter_shift_sum params_ k kwargs n sites (w w' : world B) pd :
  num_variables (qn w) = Some n ->
  length params_ = n ->
  dict_get (variable_ops (qn w)) k = Some sites ->
  (forall r' o p' v', heap w !! r' = Some o ->
                      params o !! p' = Some (PVar v') ->
                      name v' = None -> idx v' < n) ->
  (forall site r op, site ∈ sites ->
                     ops (qn w) !! fst site = Some r -> heap w !! r = Some op ->
                     grad_method op <> Some GA2
                     /\ forall v, params op !! snd site = Some (PVar v) ->
                                  name v = None) ->
  _pd_analytic P L func self params_ k false kwargs w = (Ok pd, w') ->
  (exists terms,
      Forall2 (site_term P w params_ k kwargs) sites terms
      /\ np_sum terms = Ok pd)
  /\ heap w' = heap w /\ qn w' = qn w.
Proof using reset_constant.
  intros Hn Hlen Hsites Hrogue Hord H. unfold _pd_analytic in H.
  apply bind_inv_ok in H as (q & w0 & Hg & H). inversion Hg; subst q w0.
  apply bind_inv_ok in H as (n' & w0 & Hn' & H).
  apply from_option_inv in Hn' as [Hn' ->].
  rewrite Hn in Hn'. inversion Hn'; subst n'.
  apply bind_inv_ok in H as (sites' & w0 & Hs & H).
  apply from_option_inv in Hs as [Hs ->].
  rewrite Hsites in Hs. inversion Hs; subst sites'.
  destruct (pd_loop_spec params_ k kwargs n sites w Hn Hlen Hrogue Hord
              [0%Q] w w' pd eq_refl eq_refl H)
    as (Hh & Hq & terms & Hterms & Hsum).
  split; [|split; assumption]. exists terms. split; assumption.
Qed.
End Parameter_shift.

Lemma parameter_shift_sum_witness :
  let w := Examples.fanout_traced in
  let sites := [(0, 0); (2, 0)] in
  exists pd w',
    _pd_analytic Examples.sum_device Examples.qubit_ops
      Examples.fanout_circuit 0 [1%Q; 2%Q] 0 false [] w = (Ok pd, w')
    /\ (exists terms,
           Forall2 (site_term Examples.sum_device w [1%Q; 2%Q] 0 []) sites
             terms
           /\ np_sum terms = Ok pd)
    /\ heap w' = heap w /\ qn w' = qn w.
Proof.
  intros w sites. eexists _, _. split; [vm_compute; reflexivity|].
  apply (parameter_shift_sum Examples.sum_device Examples.qubit_ops
           Examples.fanout_circuit 0 (fun _ _ => eq_refl) [1%Q; 2%Q] 0 [] 2
           sites w).
  - reflexivity.
  - reflexivity.
  - reflexivity.
  - apply free_below_spec. vm_compute. reflexivity.
  - apply sites_order1_spec. vm_compute. reflexivity.
  - vm_compute. reflexivity.
Defined.

(** The claim of C3 without the condition on the number of arguments,
    on the cached node of [RY(x); return expval(PauliZ(0))] on the exact
    simulator, traced for one argument and called with the two arguments 1
    and 5.  [jacobian] does not construct the circuit again and calls
    [_pd_analytic] on the two parameters; the temporary variable has the
    index 1, the number of variables of the node, and reads the second
    argument where the shifted value is the third: both evaluations of the
    site are at 5, and the derivative is zero.  The term of the site, the
    difference of the values of the circuit at [1 + pi/2] and [1 - pi/2]
    times [1/2], is not zero. *)
Lemma parameter_shift_claim_counterexample :
  let w := Examples.ry_traced in
  let P := Examples.exact_device in
  let args := [1%Q; 5%Q] in
  cached w
  /\ num_variables (qn w) = Some 1
  /\ dict_get (variable_ops (qn w)) 0 = Some [(0, 0)]
  /\ free_below 1 (heap w) = true
  /\ sites_order1 (heap w) (ops (qn w)) [(0, 0)] = true
  /\ (exists pd0,
        fst (_pd_analytic P Examples.qubit_ops Examples.ry_circuit 0 args 0
               false [] w) = Ok [pd0]
        /\ fst (jacobian P Examples.qubit_ops Examples.ry_circuit 0
                  [Leaf (NFloat 1); Leaf (NFloat 5)] None MethodA (1 # 10) 1
                  [] w) = Ok [[Finite pd0]; [Finite 0]]
        /\ (pd0 == 0)%Q)
  /\ (exists t0, site_term P w args 0 [] (0, 0) [t0] /\ ~ (t0 == 0)%Q)
  /\ ~ (forall pd w',
          _pd_analytic P Examples.qubit_ops Examples.ry_circuit 0 args 0
            false [] w = (Ok pd, w') ->
          exists terms,
            Forall2 (site_term P w args 0 []) [(0, 0)] terms
            /\ np_sum terms = Ok pd).
Proof.
  intros w P args.
  split; [split; [reflexivity | discriminate]|].
  split; [reflexivity|]. split; [reflexivity|].
  split; [reflexivity|]. split; [reflexivity|].
  split.
  { eexists. split; [vm_compute; reflexivity|].
    split; [vm_compute; reflexivity|]. vm_compute. reflexivity. }
  split.
  { eexists. split.
    - unfold site_term. eexists 0, _, _, _, _, _, _, _, _.
      split; [reflexivity|]. split; [reflexivity|]. split; [reflexivity|].
      split; [reflexivity|]. split; [reflexivity|]. split; [reflexivity|].
      split; [vm_compute; reflexivity|]. split; [vm_compute; reflexivity|].
      split; [vm_compute; reflexivity|]. split; [vm_compute; reflexivity|].
      intros _. vm_compute. repeat constructor.
    - vm_compute. discriminate. }
  intros H.
  destruct (_pd_analytic P Examples.qubit_ops Examples.ry_circuit 0 args 0
              false [] w) as [r w'] eqn:E.
  assert (Hr : exists pd0, r = Ok [pd0] /\ (pd0 == 0)%Q).
  { vm_compute in E. inversion E. eexists. split; [reflexivity|].
    vm_compute. reflexivity. }
  destruct Hr as (pd0 & -> & Hpd0).
  destruct (H _ _ eq_refl) as (terms & Hterms & Hsum).
  inversion Hterms as [|? t ? ts Ht Hts]; subst. inversion Hts; subst.
  destruct Ht as (r & op & v & x & c & s & yp & ym & d & Hr & Hop & Hp & Hk
                  & Hx & Hrec & Hyp & Hym & Hd & Ht & _).
  vm_compute in Hr. inversion Hr; subst r.
  vm_compute in Hop. inversion Hop; subst op.
  vm_compute in Hp. inversion Hp; subst v.
  vm_compute in Hx. inversion Hx; subst x.
  vm_compute in Hrec. inversion Hrec; subst c s.
  vm_compute in Hyp. inversion Hyp; subst yp.
  vm_compute in Hym. inversion Hym; subst ym.
  vm_compute in Hd. inversion Hd; subst d.
  subst t. vm_compute in Hsum. inversion Hsum as [Hq]. subst pd0.
  vm_compute in Hpd0. discriminate.
Qed.

(** * Further properties of the two files *)

Section Dict_facts.
Context {K V : Type} `{EqDecision K}.
Implicit Types d : list (K * V).

Lemma dict_get_set d k v j :
  dict_get (dict_set d k v) j = if decide (k = j) then Some v else dict_get d j.
Proof.
  induction d as [|[k' v'] d IH]; simpl.
  - destruct (decide (k = j)); reflexivity.
  - destruct (decide (k' = k)) as [->|Hne]; simpl.
    + destruct (decide (k = j)); reflexivity.
    + destruct (decide (k' = j)) as [->|Hj].
      * destruct (decide (k = j)); [congruence | reflexivity].
      * exact IH.
Qed.

Lemma dict_get_app d e j :
  dict_get (d ++ e) j
  = match dict_get d j with Some v => Some v | None => dict_get e j end.
Proof.
  induction d as [|[k' v'] d IH]; simpl; [reflexivity|].
  destruct (decide (k' = j)); [reflexivity | exact IH].
Qed.

Lemma dict_get_None d j : dict_get d j = None <-> j ∉ dict_keys d.
Proof.
  induction d as [|[k' v'] d IH]; simpl.
  - split; [intros _; apply not_elem_of_nil | reflexivity].
  - rewrite not_elem_of_cons. destruct (decide (k' = j)) as [->|Hne].
    + split; [discriminate | intros [? _]; congruence].
    + rewrite IH. unfold dict_keys. split; [intros ?; split; auto | tauto].
Qed.

Lemma dict_get_Some_elem d j v : dict_get d j = Some v -> (j, v) ∈ d.
Proof.
  induction d as [|[k' v'] d IH]; simpl; [discriminate|].
  destruct (decide (k' = j)) as [->|Hne].
  - intros [= ->]. left.
  - intros Hd. right. auto.
Qed.

Lemma dict_get_elem d j v :
  NoDup (dict_keys d) -> (j, v) ∈ d -> dict_get d j = Some v.
Proof.
  induction d as [|[k' v'] d IH]; simpl; intros Hnd Hin.
  - inversion Hin.
  - apply NoDup_cons in Hnd as [Hk Hnd].
    apply elem_of_cons in Hin as [Heq|Hin].
    + inversion Heq; subst. now rewrite decide_True.
    + destruct (decide (k' = j)) as [->|Hne]; [|auto].
      exfalso. apply Hk. unfold dict_keys.
      apply (list_elem_of_fmap_2 fst) in Hin. exact Hin.
Qed.

Lemma dict_set_fresh d k v : k ∉ dict_keys d -> dict_set d k v = d ++ [(k, v)].
Proof.
  induction d as [|[k' v'] d IH]; simpl; intros Hk; [reflexivity|].
  apply not_elem_of_cons in Hk as [Hne Hk].
  rewrite decide_False by congruence. now rewrite IH.
Qed.

Lemma dict_update_fresh e : forall d,
  NoDup (dict_keys d ++ dict_keys e) -> dict_update d e = d ++ e.
Proof.
  unfold dict_update.
  induction e as [|[k v] e IH]; intros d Hnd; simpl.
  - now rewrite app_nil_r.
  - simpl in Hnd. apply NoDup_app in Hnd as (Hd & Hdis & He).
    apply NoDup_cons in He as [Hk He].
    rewrite dict_set_fresh.
    + rewrite IH; [now rewrite <- app_assoc|].
      unfold dict_keys. rewrite fmap_app. simpl. rewrite <- app_assoc. simpl.
      apply NoDup_app. split; [exact Hd|]. split.
      * intros x Hx. apply Hdis in Hx. exact Hx.
      * apply NoDup_cons. split; assumption.
    + intros Hin. apply (Hdis k Hin). left.
Qed.

Lemma dict_pop_filter d k :
  NoDup (dict_keys d) ->
  dict_pop d k = List.filter (fun kv => negb (bool_decide (fst kv = k))) d.
Proof.
  induction d as [|[k' v'] d IH]; simpl; intros Hnd; [reflexivity|].
  apply NoDup_cons in Hnd as [Hk Hnd].
  destruct (decide (k' = k)) as [->|Hne].
  - rewrite bool_decide_eq_true_2 by reflexivity. simpl.
    clear IH. induction d as [|[k2 v2] d IHd]; simpl; [reflexivity|].
    simpl in Hk. apply not_elem_of_cons in Hk as [Hne Hk].
    rewrite bool_decide_eq_false_2 by congruence. simpl.
    f_equal. apply IHd; [exact Hk|]. simpl in Hnd.
    now apply NoDup_cons in Hnd as [_ Hnd].
  - rewrite bool_decide_eq_false_2 by congruence. simpl. f_equal. auto.
Qed.

Lemma dict_keys_filter_NoDup d (f : K * V -> bool) :
  NoDup (dict_keys d) -> NoDup (dict_keys (List.filter f d)).
Proof.
  induction d as [|[k' v'] d IH]; simpl; intros Hnd; [constructor|].
  apply NoDup_cons in Hnd as [Hk Hnd].
  destruct (f (k', v')); simpl; [|auto].
  apply NoDup_cons. split; [|auto].
  intros Hin. apply Hk. unfold dict_keys in *.
  apply list_elem_of_fmap in Hin as ([k2 v2] & -> & Hin).
  apply list_elem_of_In, List.filter_In in Hin as [Hin _].
  apply list_elem_of_In in Hin.
  apply (list_elem_of_fmap_2 fst) in Hin. exact Hin.
Qed.

Lemma dict_get_filter d (f : K -> bool) j :
  dict_get (List.filter (fun kv => f (fst kv)) d) j
  = if f j then dict_get d j else None.
Proof.
  induction d as [|[k' v'] d IH]; simpl.
  - destruct (f j); reflexivity.
  - destruct (f k') eqn:Hf; simpl.
    + destruct (decide (k' = j)) as [->|Hne]; [now rewrite Hf | exact IH].
    + rewrite IH. destruct (decide (k' = j)) as [->|Hne]; [now rewrite Hf|].
      reflexivity.
Qed.
End Dict_facts.

Lemma filter_twice {A} (f g : A -> bool) (l : list A) :
  List.filter f (List.filter g l) = List.filter (fun x => g x && f x) l.
Proof.
  induction l as [|x l IH]; simpl; [reflexivity|].
  destruct (g x); simpl; [|exact IH].
  destruct (f x); simpl; now rewrite IH.
Qed.

Lemma filter_all {A} (f : A -> bool) (l : list A) :
  (forall x, x ∈ l -> f x = true) -> List.filter f l = l.
Proof.
  induction l as [|x l IH]; simpl; intros Hf; [reflexivity|].
  rewrite (Hf x) by left. f_equal. apply IH. intros y Hy. apply Hf. now right.
Qed.


Lemma dict_pop_all {K V} `{EqDecision K} (ks : list K) :
  forall d : list (K * V),
    NoDup (dict_keys d) ->
    fold_left dict_pop ks d
    = List.filter (fun kv => negb (bool_decide (fst kv ∈ ks))) d.
Proof.
  induction ks as [|k ks IH]; intros d Hnd; cbn [fold_left].
  - symmetry. apply filter_all. intros kv _.
    rewrite bool_decide_eq_false_2; [reflexivity | apply not_elem_of_nil].
  - rewrite dict_pop_filter by exact Hnd.
    rewrite IH by (apply dict_keys_filter_NoDup; exact Hnd).
    rewrite filter_twice. apply List.filter_ext. intros [k' v]. cbn [fst].
    destruct (bool_decide_reflect (k' = k)) as [->|Hne]; simpl.
    + rewrite bool_decide_eq_true_2; [reflexivity | left].
    + destruct (bool_decide_reflect (k' ∈ ks)) as [Hin|Hin].
      * rewrite bool_decide_eq_true_2; [reflexivity | now right].
      * rewrite bool_decide_eq_false_2; [reflexivity|].
        rewrite elem_of_cons. tauto.
Qed.

(** X1. [pop_jacobian_kwargs] gives the dictionary without the keys [h],
    [order], [shots] and [force_order2], the other entries in their order;
    looking up one of the four keys finds nothing and any other key finds
    what the argument holds; popping twice is popping once; and a
    dictionary with none of the four keys comes back as it is. *)
Theorem pop_jacobian_kwargs_removes {V : Type} (kwargs : list (string * V)) :
  NoDup (dict_keys kwargs) ->
  pop_jacobian_kwargs kwargs
  = List.filter (fun kv => negb (bool_decide (fst kv ∈ jacobian_keys))) kwargs
  /\ (forall k, dict_get (pop_jacobian_kwargs kwargs) k
                = if bool_decide (k ∈ jacobian_keys) then None
                  else dict_get kwargs k)
  /\ pop_jacobian_kwargs (pop_jacobian_kwargs kwargs)
     = pop_jacobian_kwargs kwargs
  /\ ((forall k, k ∈ jacobian_keys -> dict_get kwargs k = None) ->
      pop_jacobian_kwargs kwargs = kwargs).
Proof.
  assert (Hmain : forall kw : list (string * V),
             NoDup (dict_keys kw) ->
             pop_jacobian_kwargs kw
             = List.filter
                 (fun kv => negb (bool_decide (fst kv ∈ jacobian_keys))) kw).
  { intros kw Hnd. unfold pop_jacobian_kwargs. cbv zeta.
    rewrite (dict_update_fresh kw []) by exact Hnd. cbn [app].
    apply dict_pop_all. exact Hnd. }
  intros Hnd. pose proof (Hmain kwargs Hnd) as H1.
  split; [exact H1|]. split; [|split].
  - intros k. rewrite H1.
    pose proof (dict_get_filter kwargs
                  (fun k => negb (bool_decide (k ∈ jacobian_keys))) k) as Hf.
    cbv beta in Hf. rewrite Hf.
    destruct (bool_decide (k ∈ jacobian_keys)); reflexivity.
  - rewrite Hmain; rewrite H1.
    + rewrite filter_twice. apply List.filter_ext. intros kv.
      destruct (negb _); reflexivity.
    + apply dict_keys_filter_NoDup. exact Hnd.
  - intros Hno. rewrite H1. apply filter_all. intros [k v] Hin. cbn [fst].
    rewrite bool_decide_eq_false_2; [reflexivity|].
    intros Hk. specialize (Hno k Hk).
    rewrite (dict_get_elem kwargs k v Hnd Hin) in Hno. discriminate.
Qed.

Lemma pop_jacobian_kwargs_removes_witness :
  let kwargs := [("h", 1); ("data", 2); ("shots", 3); ("x", 4)] in
  pop_jacobian_kwargs kwargs = [("data", 2); ("x", 4)]
  /\ dict_get (pop_jacobian_kwargs kwargs) "shots" = None
  /\ dict_get (pop_jacobian_kwargs kwargs) "x" = Some 4.
Proof.
  intros kwargs.
  assert (Hnd : NoDup (dict_keys kwargs)) by (apply (bool_decide_unpack _); vm_compute; reflexivity).
  destruct (pop_jacobian_kwargs_removes kwargs Hnd) as (H1 & H2 & _ & _).
  split; [|split].
  - rewrite H1. reflexivity.
  - rewrite H2. reflexivity.
  - rewrite H2. reflexivity.
Defined.

Section Inv_dict_facts.
Context {K V : Type} `{Countable K} `{EqDecision V}.

Lemma setdefault_add_get (ret : list (V * gset K)) v k v' :
  default ∅ (dict_get (setdefault_add ret v k) v')
  = if decide (v = v') then default ∅ (dict_get ret v) ∪ {[k]}
    else default ∅ (dict_get ret v').
Proof.
  unfold setdefault_add. destruct (dict_get ret v) as [s|] eqn:Hg.
  - rewrite dict_get_set. destruct (decide (v = v')); reflexivity.
  - rewrite dict_get_app. simpl.
    destruct (decide (v = v')) as [<-|Hne].
    + rewrite Hg. simpl. now rewrite (left_id_L ∅ (∪)).
    + destruct (dict_get ret v'); reflexivity.
Qed.

Lemma setdefault_add_None (ret : list (V * gset K)) v k v' :
  dict_get (setdefault_add ret v k) v' = None
  <-> v <> v' /\ dict_get ret v' = None.
Proof.
  unfold setdefault_add. destruct (dict_get ret v) as [s|] eqn:Hg.
  - rewrite dict_get_set. destruct (decide (v = v')); intuition congruence.
  - rewrite dict_get_app. simpl.
    destruct (decide (v = v')) as [<-|Hne].
    + rewrite Hg. intuition congruence.
    + destruct (dict_get ret v'); intuition congruence.
Qed.

Lemma inv_dict_fold (d : list (K * V)) : forall (ret : list (V * gset K)) k v,
  k ∈ default ∅ (dict_get
                   (fold_left (fun ret kv => setdefault_add ret (snd kv) (fst kv))
                      d ret) v)
  <-> k ∈ default ∅ (dict_get ret v) \/ (k, v) ∈ d.
Proof.
  induction d as [|[k0 v0] d IH]; intros ret k v; simpl.
  - rewrite elem_of_nil. tauto.
  - rewrite IH, setdefault_add_get, elem_of_cons.
    destruct (decide (v0 = v)) as [->|Hne].
    + rewrite elem_of_union, elem_of_singleton.
      split; [intros [[? | ->] | ?]; auto | intros [? | [Heq | ?]]; auto].
      inversion Heq; subst. auto.
    + split; [intros [?|?]; auto | intros [?|[Heq|?]]; auto].
      inversion Heq; subst. congruence.
Qed.

Lemma inv_dict_fold_None (d : list (K * V)) :
  forall (ret : list (V * gset K)) v,
  dict_get (fold_left (fun ret kv => setdefault_add ret (snd kv) (fst kv))
              d ret) v = None
  <-> dict_get ret v = None /\ forall k, (k, v) ∉ d.
Proof.
  induction d as [|[k0 v0] d IH]; intros ret v; simpl.
  - split; [intros ?; split; [assumption | intros k; apply not_elem_of_nil]
           | tauto].
  - rewrite IH, setdefault_add_None. split.
    + intros [[Hne Hr] Hd]. split; [exact Hr|]. intros k.
      rewrite not_elem_of_cons. split; [congruence | apply Hd].
    + intros [Hr Hd]. split; [split; [|exact Hr]|].
      * intros ->. apply (Hd k0). left.
      * intros k Hin. apply (Hd k). now right.
Qed.

Lemma inv_dict_elem (d : list (K * V)) (k : K) (v : V) :
  k ∈ default ∅ (dict_get (_inv_dict d) v) <-> (k, v) ∈ d.
Proof.
  unfold _inv_dict. rewrite inv_dict_fold. simpl. rewrite elem_of_empty.
  tauto.
Qed.

(** X2. [_inv_dict] reverses the mapping: a key is in the set stored
    under a value exactly when the dictionary has the item (key, value),
    that is, for a dictionary, when the key maps to the value; and a value
    is no key of the result exactly when no key maps to it. *)
Theorem inv_dict_reverses (d : list (K * V)) (k : K) (v : V) :
  (k ∈ default ∅ (dict_get (_inv_dict d) v) <-> (k, v) ∈ d)
  /\ (NoDup (dict_keys d) ->
      (k ∈ default ∅ (dict_get (_inv_dict d) v) <-> dict_get d k = Some v))
  /\ (dict_get (_inv_dict d) v = None <-> forall k', (k', v) ∉ d).
Proof.
  pose proof (inv_dict_elem d k v) as H1.
  split; [exact H1|]. split.
  - intros Hnd. rewrite H1. split.
    + apply dict_get_elem. exact Hnd.
    + apply dict_get_Some_elem.
  - unfold _inv_dict. rewrite inv_dict_fold_None. simpl. tauto.
Qed.
End Inv_dict_facts.

Lemma inv_dict_reverses_witness :
  let d := [(0, Some GA); (1, Some GF); (2, Some GA)] in
  (2 ∈ default ∅ (dict_get (_inv_dict d) (Some GA)) <-> dict_get d 2 = Some (Some GA))
  /\ (dict_get (_inv_dict d) None = None <-> forall k', (k', None) ∉ d).
Proof.
  intros d. split.
  - apply (proj1 (proj2 (inv_dict_reverses d 2 (Some GA)))).
    apply (bool_decide_unpack _). vm_compute. reflexivity.
  - apply (proj2 (proj2 (inv_dict_reverses d 0 None))).
Defined.

(** X3. The test of [jacobian] on the reversed map: the set
    [mmap.get(m, set()).intersection(which)] holds the parameters of
    [which] that the map sends to [m]; it is not empty exactly when
    [check_method] gives [true]. *)
Theorem check_method_reversed_map (g : list (nat * option gmethod))
  (which : list nat) (m : option gmethod) :
  (forall k, k ∈ check_method_set g which m <-> (k, m) ∈ g /\ k ∈ which)
  /\ (check_method g which m = true <-> check_method_set g which m <> ∅).
Proof.
  assert (H1 : forall k,
             k ∈ check_method_set g which m <-> (k, m) ∈ g /\ k ∈ which).
  { intros k. unfold check_method_set.
    rewrite elem_of_intersection, elem_of_list_to_set.
    now rewrite inv_dict_elem. }
  split; [exact H1|].
  unfold check_method. rewrite existsb_exists. split.
  - intros ([k v] & Hin & Hb). apply andb_true_iff in Hb as [Hv Hk].
    apply bool_decide_eq_true in Hv, Hk. simpl in Hv, Hk. subst v.
    apply list_elem_of_In in Hin.
    intros He. assert (Hk' : k ∈ check_method_set g which m) by (apply H1; auto).
    rewrite He in Hk'. now apply elem_of_empty in Hk'.
  - intros Hne. apply set_choose_L in Hne as [k Hk].
    apply H1 in Hk as [Hin Hk]. exists (k, m). split.
    + now apply list_elem_of_In.
    + simpl. rewrite !bool_decide_eq_true_2; auto.
Qed.

Section Device_checks.
Context {B : Type}.
Variable P : plugin B.

Lemma objects_cons (h : list operation) r rs :
  objects h (r :: rs)
  = match h !! r with Some o => o :: objects h rs | None => objects h rs end.
Proof. reflexivity. Qed.

Lemma objects_app (h : list operation) rs1 rs2 :
  objects h (rs1 ++ rs2) = objects h rs1 ++ objects h rs2.
Proof. unfold objects. apply omap_app. Qed.

Lemma for_each_names (names : list string) rs : forall w : world B,
  Forall (fun r => is_Some (heap w !! r)) rs ->
  for_each rs (fun r =>
    o <- deref r ;;
    if bool_decide (op_name o ∈ names) then ret tt else raise DeviceError) w
  = (if forallb (fun o => bool_decide (op_name o ∈ names))
          (objects (heap w) rs)
     then Ok tt else Raise DeviceError, w).
Proof.
  induction rs as [|r rs IH]; intros w Hv; [reflexivity|].
  inversion Hv as [|? ? [o Ho] Hv']; subst.
  cbn [for_each]. rewrite objects_cons, Ho. cbn [forallb].
  unfold bind at 1 2. rewrite (deref_some _ _ _ Ho).
  destruct (bool_decide (op_name o ∈ names)); simpl.
  - apply IH. exact Hv'.
  - reflexivity.
Qed.

Lemma forallb_names (names : list string) (os : list operation) :
  forallb (fun o => bool_decide (op_name o ∈ names)) os = true
  <-> Forall (fun o => Ok (A := bool) (bool_decide (op_name o ∈ names)) = Ok true) os.
Proof.
  rewrite forallb_forall, Forall_forall. split; intros Hf o Hin.
  - rewrite (Hf o); [reflexivity | now apply list_elem_of_In].
  - apply list_elem_of_In in Hin. specialize (Hf o Hin). now inversion Hf.
Qed.

Lemma check_validity_value queue obs (w : world B) :
  Forall (fun r => is_Some (heap w !! r)) (queue ++ obs) ->
  check_validity P queue obs w
  = (if forallb (fun o => bool_decide (op_name o ∈ operations P))
          (objects (heap w) queue)
        && forallb (fun o => bool_decide (op_name o ∈ observables P))
             (objects (heap w) obs)
     then Ok tt else Raise DeviceError, w).
Proof.
  intros Hv. apply Forall_app in Hv as [Hq Ho].
  unfold check_validity. unfold bind at 1.
  rewrite (for_each_names (operations P) queue w Hq).
  destruct (forallb _ (objects (heap w) queue)); simpl; [|reflexivity].
  rewrite (for_each_names (observables P) obs w Ho).
  destruct (forallb _ (objects (heap w) obs)); reflexivity.
Qed.

Lemma supported_forallb (h : list operation) queue obs :
  supported P h queue obs
  <-> forallb (fun o => bool_decide (op_name o ∈ operations P))
        (objects h queue)
      && forallb (fun o => bool_decide (op_name o ∈ observables P))
           (objects h obs) = true.
Proof.
  unfold supported. rewrite andb_true_iff, !forallb_names. reflexivity.
Qed.

(** X4. [check_validity] passes exactly when the device supports the
    name of every operation of the queue and of every observable, as
    [supports_operation] and [supports_observable] answer for a string;
    otherwise it raises [DeviceError]; in both cases it changes
    nothing. *)
Theorem check_validity_supported queue obs (w : world B) :
  Forall (fun r => is_Some (heap w !! r)) (queue ++ obs) ->
  (supported P (heap w) queue obs ->
   check_validity P queue obs w = (Ok tt, w))
  /\ (~ supported P (heap w) queue obs ->
      check_validity P queue obs w = (Raise DeviceError, w)).
Proof.
  intros Hv. rewrite (check_validity_value queue obs w Hv).
  rewrite supported_forallb.
  destruct (_ && _); split; intros H; try reflexivity; congruence.
Qed.

(** X5. [execute] on a circuit with an operation or an observable that
    the device does not support raises [DeviceError] before it does
    anything else: the queues of the device are not set, no method of the
    plugin has run, and the whole state is as it was. *)
Theorem execute_rejects_unsupported queue obs pars (w : world B) :
  Forall (fun r => is_Some (heap w !! r)) (queue ++ obs) ->
  ~ supported P (heap w) queue obs ->
  execute P queue obs pars w = (Raise DeviceError, w).
Proof.
  intros Hv Hs. unfold execute, execute_enter.
  unfold bind at 1 2.
  rewrite (check_validity_value queue obs w Hv).
  apply (proj1 (not_iff_compat (supported_forallb _ _ _))) in Hs.
  apply not_true_is_false in Hs. rewrite Hs. reflexivity.
Qed.

Lemma measure_inv acc r (w w' : world B) res :
  measure P acc r w = (Ok res, w') ->
  w' = w
  /\ exists o, heap w !! r = Some o
     /\ ((has_return o = false /\ res = acc)
         \/ (has_return o = true /\ exists v, res = acc ++ [v] /\ result_of o v)).
Proof.
  unfold measure. intros H.
  apply bind_inv_ok in H as (o & w1 & Hd & H).
  apply deref_inv in Hd as [-> Ho].
  unfold result_of, has_return.
  destruct (return_type o) as [[| |]|] eqn:Hrt.
  - apply bind_inv_ok in H as (ps & w1 & Hp & H).
    rewrite Operation_parameters_pure in Hp. inversion Hp; subst w1. clear Hp.
    apply bind_inv_ok in H as (x & w1 & Ha & H). unfold ask in Ha.
    inversion Ha; subst. inversion H; subst. split; [reflexivity|].
    exists o. split; [exact Ho|]. right. rewrite Hrt.
    split; [reflexivity|]. eexists. split; [reflexivity|]. eexists. reflexivity.
  - apply bind_inv_ok in H as (ps & w1 & Hp & H).
    rewrite Operation_parameters_pure in Hp. inversion Hp; subst w1. clear Hp.
    apply bind_inv_ok in H as (x & w1 & Ha & H). unfold ask in Ha.
    inversion Ha; subst. inversion H; subst. split; [reflexivity|].
    exists o. split; [exact Ho|]. right. rewrite Hrt.
    split; [reflexivity|]. eexists. split; [reflexivity|]. eexists. reflexivity.
  - destruct (num_samples o) as [n|]; [|discriminate].
    apply bind_inv_ok in H as (ps & w1 & Hp & H).
    rewrite Operation_parameters_pure in Hp. inversion Hp; subst w1. clear Hp.
    apply bind_inv_ok in H as (x & w1 & Ha & H). unfold ask in Ha.
    inversion Ha; subst. inversion H; subst. split; [reflexivity|].
    exists o. split; [exact Ho|]. right. rewrite Hrt.
    split; [reflexivity|]. eexists. split; [reflexivity|]. eexists. reflexivity.
  - inversion H; subst. split; [reflexivity|]. exists o. split; [exact Ho|].
    left. rewrite Hrt. split; reflexivity.
Qed.

Lemma fold_measure_inv obs : forall acc (w w' : world B) res,
  fold_m (measure P) obs acc w = (Ok res, w') ->
  w' = w
  /\ Forall (fun r => is_Some (heap w !! r)) obs
  /\ exists vs, res = acc ++ vs
     /\ Forall2 result_of (List.filter has_return (objects (heap w) obs)) vs.
Proof.
  induction obs as [|r obs IH]; intros acc w w' res H; simpl in H.
  - inversion H; subst. split; [reflexivity|]. split; [constructor|].
    exists []. rewrite app_nil_r. split; [reflexivity | constructor].
  - apply bind_inv_ok in H as (acc1 & w1 & Hm & H).
    apply measure_inv in Hm as (-> & o & Ho & Hcase).
    apply IH in H as (-> & Hv & vs & -> & HF).
    split; [reflexivity|]. split; [constructor; eauto|].
    rewrite objects_cons, Ho. cbn [List.filter].
    destruct Hcase as [[Hr ->]|(Hr & v & -> & Hres)]; rewrite Hr.
    + exists vs. split; [reflexivity | exact HF].
    + exists (v :: vs). split; [now rewrite <- app_assoc|].
      constructor; assumption.
Qed.

Lemma preserves_inv {A X} (f : world B -> X) (m : M B A) w r w1 :
  preserves f m -> m w = (r, w1) -> f w1 = f w.
Proof. intros Hp H. specialize (Hp w). now rewrite H in Hp. Qed.

Lemma for_each_names_inv (names : list string) rs : forall w w' : world B,
  for_each rs (fun r =>
    o <- deref r ;;
    if bool_decide (op_name o ∈ names) then ret tt else raise DeviceError) w
  = (Ok tt, w') ->
  w' = w
  /\ Forall (fun r => is_Some (heap w !! r)) rs
  /\ forallb (fun o => bool_decide (op_name o ∈ names)) (objects (heap w) rs)
     = true.
Proof.
  induction rs as [|r rs IH]; intros w w' H.
  - inversion H; subst. repeat split. constructor.
  - cbn [for_each] in H. apply bind_inv_ok in H as ([] & w1 & H1 & H).
    apply bind_inv_ok in H1 as (o & w2 & Hd & H1).
    apply deref_inv in Hd as [-> Ho].
    destruct (bool_decide (op_name o ∈ names)) eqn:Hn; [|discriminate].
    inversion H1; subst w1.
    apply IH in H as (-> & Hv & Hf).
    split; [reflexivity|]. split; [constructor; eauto|].
    rewrite objects_cons, Ho. cbn [forallb]. now rewrite Hn, Hf.
Qed.

Lemma check_validity_inv queue obs (w w' : world B) :
  check_validity P queue obs w = (Ok tt, w') ->
  w' = w /\ supported P (heap w) queue obs.
Proof.
  unfold check_validity. intros H.
  apply bind_inv_ok in H as ([] & w1 & H1 & H2).
  apply for_each_names_inv in H1 as (-> & _ & Hq).
  apply for_each_names_inv in H2 as (-> & _ & Ho).
  split; [reflexivity|]. apply supported_forallb. now rewrite Hq, Ho.
Qed.

Lemma execute_inv queue obs pars (w w' : world B) res :
  execute P queue obs pars w = (Ok res, w') ->
  Forall2 result_of (List.filter has_return (objects (heap w) obs)) res
  /\ supported P (heap w) queue obs
  /\ heap w' = heap w /\ qn w' = qn w
  /\ free_param_values w' = free_param_values w
  /\ kwarg_values w' = kwarg_values w.
Proof.
  intros H.
  set (f := fun w : world B =>
              (heap w, qn w, free_param_values w, kwarg_values w)).
  assert (Hfd : forall g w, f (set_dev g w) = f w) by reflexivity.
  pose proof (preserves_inv f _ _ _ _
                (frame_execute P f Hfd queue obs pars) H) as Hf.
  unfold f in Hf. injection Hf as Hh Hq Hfp Hkw. clear f Hfd.
  unfold execute in H.
  apply bind_inv_ok in H as ([] & w1 & He & H).
  apply bind_inv_ok in H as (rs & w2 & Hb & H).
  apply bind_inv_ok in H as ([] & w3 & _ & H). inversion H; subst rs w3.
  unfold execute_enter in He.
  apply bind_inv_ok in He as ([] & w0 & Hc & He).
  apply check_validity_inv in Hc as [-> Hs].
  assert (Hh1 : heap w1 = heap w) by (inversion He; reflexivity).
  unfold execute_body in Hb.
  apply bind_inv_ok in Hb as ([] & w4 & H4 & Hb).
  apply bind_inv_ok in Hb as ([] & w5 & H5 & Hb).
  apply bind_inv_ok in Hb as ([] & w6 & H6 & Hb).
  apply bind_inv_ok in Hb as ([] & w7 & H7 & Hb).
  apply bind_inv_ok in Hb as (rs & w8 & Hm & Hb).
  apply bind_inv_ok in Hb as ([] & w9 & _ & Hb). inversion Hb; subst rs w9.
  apply fold_measure_inv in Hm as (-> & Hvo & vs & -> & HF).
  simpl in HF.
  assert (Hcall : forall g, preserves heap (call (B := B) g)).
  { intros g. apply frame_call. reflexivity. }
  apply (preserves_inv heap _ _ _ _ (Hcall _)) in H4, H6, H7.
  assert (H5' : heap w5 = heap w4).
  { refine (preserves_inv heap _ _ _ _ _ H5).
    pres_with ltac:(first [ apply Hcall
                          | apply frame_Operation_parameters ]). }
  assert (Hh7 : heap w7 = heap w) by congruence.
  rewrite Hh7 in HF. cbn [app].
  split; [exact HF|]. split; [exact Hs|]. repeat split; assumption.
Qed.

(** X6. When [execute] returns, the results line up with the observables
    that have a return type, in order: a number for each expectation and
    variance, an array for each sample, and nothing for an observable
    without return type; every operation and observable was supported; and
    apart from the device nothing has changed.  The measurement loop passes
    over an observable without return type whatever its parameters are,
    also when they have no value; and it raises [DeviceError] for a sample
    without a number of samples before it looks at the parameters. *)
Theorem execute_results queue obs pars (w w' : world B) res :
  execute P queue obs pars w = (Ok res, w') ->
  (Forall2 result_of (List.filter has_return (objects (heap w) obs)) res
   /\ supported P (heap w) queue obs
   /\ heap w' = heap w /\ qn w' = qn w
   /\ free_param_values w' = free_param_values w
   /\ kwarg_values w' = kwarg_values w)
  /\ (forall acc r o (w0 : world B),
        heap w0 !! r = Some o -> return_type o = None ->
        measure P acc r w0 = (Ok acc, w0))
  /\ (forall acc r o (w0 : world B),
        heap w0 !! r = Some o -> return_type o = Some Sample ->
        num_samples o = None ->
        measure P acc r w0 = (Raise DeviceError, w0)).
Proof.
  intros H. split; [exact (execute_inv _ _ _ _ _ _ H)|].
  split; intros acc r o w0 Ho Hr.
  - unfold measure. rewrite (bind_ok _ _ _ _ _ (deref_some _ _ _ Ho)).
    now rewrite Hr.
  - intros Hn. unfold measure.
    rewrite (bind_ok _ _ _ _ _ (deref_some _ _ _ Ho)).
    now rewrite Hr, Hn.
Qed.
End Device_checks.

Lemma check_validity_supported_witness :
  let w := Examples.three_objects in
  check_validity Examples.sum_device [0] [1; 2] w = (Ok tt, w)
  /\ check_validity Examples.sum_device [1] [] w = (Raise DeviceError, w).
Proof.
  intros w. split.
  - apply (proj1 (check_validity_supported Examples.sum_device [0] [1; 2] w
                    ltac:(repeat constructor; eexists; reflexivity))).
    split; repeat constructor.
  - apply (proj2 (check_validity_supported Examples.sum_device [1] [] w
                    ltac:(repeat constructor; eexists; reflexivity))).
    intros [Hq _]. inversion Hq as [|? ? Hx]. discriminate Hx.
Defined.

Lemma execute_rejects_unsupported_witness :
  let w := Examples.three_objects in
  execute Examples.sum_device [1] [] [] w = (Raise DeviceError, w).
Proof.
  intros w.
  apply (execute_rejects_unsupported Examples.sum_device [1] [] [] w).
  - repeat constructor. eexists. reflexivity.
  - intros [Hq _]. inversion Hq as [|? ? Hx]. discriminate Hx.
Defined.

Lemma execute_results_witness :
  let w := unbound_observables in
  exists w',
    execute Examples.sum_device [0] [1; 2] [] w = (Ok [MNum 1], w')
    /\ Forall2 result_of [Examples.PauliZ 0 (Some Expectation)] [MNum 1]
    /\ heap w' = heap w
    /\ measure Examples.sum_device [] 2 w = (Ok [], w)
    /\ measure Examples.sum_device [] 3 w = (Raise DeviceError, w).
Proof.
  intros w.
  destruct (execute Examples.sum_device [0] [1; 2] [] w) as [r w'] eqn:He.
  assert (Hr : r = Ok [MNum 1]) by (vm_compute in He; congruence).
  subst r. exists w'. split; [reflexivity|].
  destruct (execute_results Examples.sum_device [0] [1; 2] [] w w' _ He)
    as ((HF & _ & Hh & _) & Hnone & Hsample).
  split; [exact HF|]. split; [exact Hh|]. split.
  - apply (Hnone [] 2 _ w eq_refl). reflexivity.
  - apply (Hsample [] 3 _ w eq_refl); reflexivity.
Defined.

Section Variable_map.
Implicit Types d : varops.

Let get d (j : nat) : list (nat * nat) := default [] (dict_get d j).
Let add d (jx : nat * (nat * nat)) : varops :=
  setdefault_append d (fst jx) (snd jx).
(** A dictionary of use sites in which no key has an empty list. *)
Let full d : Prop := forall j, dict_get d j <> Some [].

Lemma dict_keys_set {K V} `{EqDecision K} (d : list (K * V)) k v :
  is_Some (dict_get d k) -> dict_keys (dict_set d k v) = dict_keys d.
Proof.
  induction d as [|[k' v'] d IH]; simpl; intros [x Hx]; [discriminate|].
  destruct (decide (k' = k)) as [->|Hne]; simpl; [reflexivity|].
  f_equal. apply IH. eauto.
Qed.

Lemma setdefault_append_get d k x j :
  get (setdefault_append d k x) j
  = if decide (k = j) then get d k ++ [x] else get d j.
Proof.
  unfold get, setdefault_append. destruct (dict_get d k) as [l|] eqn:Hg.
  - rewrite dict_get_set. destruct (decide (k = j)); reflexivity.
  - rewrite dict_get_app. simpl.
    destruct (decide (k = j)) as [<-|Hne].
    + rewrite Hg. reflexivity.
    + destruct (dict_get d j); reflexivity.
Qed.

Lemma setdefault_append_None d k x j :
  dict_get (setdefault_append d k x) j = None
  <-> k <> j /\ dict_get d j = None.
Proof.
  unfold setdefault_append. destruct (dict_get d k) as [l|] eqn:Hg.
  - rewrite dict_get_set. destruct (decide (k = j)); intuition congruence.
  - rewrite dict_get_app. simpl.
    destruct (decide (k = j)) as [<-|Hne].
    + rewrite Hg. intuition congruence.
    + destruct (dict_get d j); intuition congruence.
Qed.

Lemma setdefault_append_NoDup d k x :
  NoDup (dict_keys d) -> NoDup (dict_keys (setdefault_append d k x)).
Proof.
  intros Hnd. unfold setdefault_append.
  destruct (dict_get d k) as [l|] eqn:Hg.
  - rewrite dict_keys_set by eauto. exact Hnd.
  - unfold dict_keys. rewrite fmap_app. simpl.
    apply NoDup_app. split; [exact Hnd|]. split.
    + intros y Hy Hin. apply list_elem_of_singleton in Hin. subst y.
      apply dict_get_None in Hg. exact (Hg Hy).
    + apply NoDup_singleton.
Qed.

Lemma setdefault_append_full d k x : full d -> full (setdefault_append d k x).
Proof.
  intros Hf j. unfold setdefault_append.
  destruct (dict_get d k) as [l|] eqn:Hg.
  - rewrite dict_get_set. destruct (decide (k = j)); [|apply Hf].
    intros [= He]. now apply app_eq_nil in He as [_ ?].
  - rewrite dict_get_app. simpl. destruct (dict_get d j) eqn:Hj.
    + rewrite <- Hj. apply Hf.
    + destruct (decide (k = j)); discriminate.
Qed.

Lemma fold_add_spec (l : list (nat * (nat * nat))) : forall d,
  (forall j x, x ∈ get (fold_left add l d) j <-> x ∈ get d j \/ (j, x) ∈ l)
  /\ (forall j, dict_get (fold_left add l d) j = None
                <-> dict_get d j = None /\ forall x, (j, x) ∉ l)
  /\ (NoDup (dict_keys d) -> NoDup (dict_keys (fold_left add l d)))
  /\ (full d -> full (fold_left add l d)).
Proof.
  induction l as [|[j0 x0] l IH]; intros d; cbn [fold_left].
  - repeat split; try tauto.
    + intros [?|Hin]; [assumption | now apply elem_of_nil in Hin].
    + intros x. apply not_elem_of_nil.
  - destruct (IH (add d (j0, x0))) as (IH1 & IH2 & IH3 & IH4).
    split; [|split; [|split]].
    + intros j x. rewrite IH1. unfold add at 1. cbn [fst snd].
      rewrite setdefault_append_get, elem_of_cons.
      destruct (decide (j0 = j)) as [->|Hne].
      * rewrite elem_of_app, list_elem_of_singleton.
        split; [intros [[?| ->]|?]; auto | intros [?|[Heq|?]]; auto].
        inversion Heq; subst. auto.
      * split; [intros [?|?]; auto | intros [?|[Heq|?]]; auto].
        inversion Heq; subst. congruence.
    + intros j. rewrite IH2. unfold add at 1. cbn [fst snd].
      rewrite setdefault_append_None. split.
      * intros [[Hne Hd] Hl]. split; [exact Hd|]. intros x.
        rewrite not_elem_of_cons. split; [congruence | apply Hl].
      * intros [Hd Hl]. split; [split; [|exact Hd]|].
        -- intros ->. apply (Hl x0). left.
        -- intros x Hin. apply (Hl x). now right.
    + intros Hnd. apply IH3. now apply setdefault_append_NoDup.
    + intros Hf. apply IH4. now apply setdefault_append_full.
Qed.

Lemma sites_from_app k fl1 : forall i fl2,
  sites_from k i (fl1 ++ fl2)
  = sites_from k i fl1 ++ sites_from k (i + length fl1) fl2.
Proof.
  induction fl1 as [|ov fl1 IH]; intros i fl2; simpl.
  - now rewrite Nat.add_0_r.
  - rewrite IH, <- app_assoc. do 2 f_equal.
    replace (S i + length fl1) with (i + S (length fl1)) by lia. reflexivity.
Qed.

Lemma sites_from_repeat k n : forall i, sites_from k i (repeat None n) = [].
Proof. induction n as [|n IH]; intros i; simpl; [reflexivity | apply IH]. Qed.

Lemma sites_from_elem k fl : forall i j site,
  (j, site) ∈ sites_from k i fl
  <-> fst site = k /\ i <= snd site
      /\ exists v, fl !! (snd site - i) = Some (Some v)
                   /\ idx v = j /\ name v = None.
Proof.
  induction fl as [|ov fl IH]; intros i j [k' p]; cbn [sites_from fst snd].
  - split; [intros Hin; now apply elem_of_nil in Hin|].
    intros (_ & _ & v & Hv & _). discriminate.
  - rewrite elem_of_app, IH. cbn [fst snd]. split.
    + intros [Hin|(-> & Hle & v & Hv & Hj & Hn)].
      * destruct ov as [v|]; [|now apply elem_of_nil in Hin].
        destruct (name v) eqn:Hn; [now apply elem_of_nil in Hin|].
        apply list_elem_of_singleton in Hin. inversion Hin; subst.
        split; [reflexivity|]. split; [lia|]. exists v.
        rewrite Nat.sub_diag. auto.
      * split; [reflexivity|]. split; [lia|]. exists v.
        replace (p - i) with (S (p - S i)) by lia. auto.
    + intros (-> & Hle & v & Hv & Hj & Hn).
      destruct (decide (p = i)) as [->|Hne].
      * left. rewrite Nat.sub_diag in Hv. simpl in Hv. inversion Hv; subst.
        rewrite Hn. left.
      * right. split; [reflexivity|]. split; [lia|]. exists v.
        replace (p - i) with (S (p - S i)) in Hv by lia. auto.
Qed.

Lemma all_sites_elem os : forall k j site,
  (j, site) ∈ all_sites k os
  <-> k <= fst site
      /\ exists o v, os !! (fst site - k) = Some o
                     /\ flat_variables (params o) !! snd site = Some (Some v)
                     /\ idx v = j /\ name v = None.
Proof.
  induction os as [|o os IH]; intros k j [k' p]; cbn [all_sites fst snd].
  - split; [intros Hin; now apply elem_of_nil in Hin|].
    intros (_ & o & v & Ho & _). discriminate.
  - rewrite elem_of_app, sites_from_elem, IH. cbn [fst snd]. split.
    + intros [(-> & _ & v & Hv & Hj & Hn)|(Hle & o' & v & Ho & Hv & Hj & Hn)].
      * split; [lia|]. exists o, v. rewrite Nat.sub_diag, Nat.sub_0_r in *.
        auto.
      * split; [lia|]. exists o', v.
        replace (k' - k) with (S (k' - S k)) by lia. auto.
    + intros (Hle & o' & v & Ho & Hv & Hj & Hn).
      destruct (decide (k' = k)) as [->|Hne].
      * left. rewrite Nat.sub_diag in Ho. simpl in Ho. inversion Ho; subst.
        split; [reflexivity|]. split; [lia|]. exists v.
        rewrite Nat.sub_0_r. auto.
      * right. split; [lia|]. exists o', v.
        replace (k' - k) with (S (k' - S k)) in Ho by lia. auto.
Qed.

Lemma scan_params_fold k ps : forall i d,
  scan_params k i ps d
  = fold_left add (sites_from k i (flat_variables ps)) d.
Proof.
  induction ps as [|p ps IH]; intros i d; [reflexivity|].
  cbn [scan_params].
  change (flat_variables (p :: ps))
    with ((match p with
           | PVar v => [Some v]
           | _ => repeat None (flat_size p)
           end) ++ flat_variables ps).
  rewrite sites_from_app, fold_left_app, IH.
  assert (Hlen : forall A (x : A) n, length (repeat x n) = n)
    by (intros; apply repeat_length).
  destruct p as [x|v|[a|m]]; cbn [flat_size length];
    rewrite ?Hlen, ?sites_from_repeat; try reflexivity.
  simpl. destruct (name v); reflexivity.
Qed.

Lemma scan_ops_fold os : forall k d,
  scan_ops k os d = fold_left add (all_sites k os) d.
Proof.
  induction os as [|o os IH]; intros k d; [reflexivity|].
  cbn [scan_ops all_sites]. now rewrite fold_left_app, IH, scan_params_fold.
Qed.

(** X7. The variable map that [construct] builds is exact: the list
    stored under the free parameter [j] holds the site (k, i) if and only
    if position [i] of the flattened parameters of operation [k] is the
    positional [Variable] of index [j]; a [Variable] of a keyword argument
    is never recorded; a parameter that no operation uses is no key of the
    map; and no key is there twice. *)
Theorem variable_ops_exact (os : list operation) (j : nat) :
  (forall site,
      site ∈ default [] (dict_get (scan_ops 0 os []) j) <-> is_site os j site)
  /\ (dict_get (scan_ops 0 os []) j = None <-> forall site, ~ is_site os j site)
  /\ NoDup (dict_keys (scan_ops 0 os [])).
Proof.
  rewrite scan_ops_fold.
  destruct (fold_add_spec (all_sites 0 os) []) as (H1 & H2 & H3 & _).
  assert (Hs : forall site, (j, site) ∈ all_sites 0 os <-> is_site os j site).
  { intros site. rewrite all_sites_elem. unfold is_site.
    rewrite Nat.sub_0_r. split.
    - intros [_ H]. exact H.
    - intros H. split; [lia | exact H]. }
  split; [|split].
  - intros site. fold (get (fold_left add (all_sites 0 os) []) j).
    rewrite H1. unfold get. simpl. rewrite elem_of_nil, Hs. tauto.
  - rewrite H2. simpl. split.
    + intros [_ Hn] site Hsite. apply (Hn site). now apply Hs.
    + intros Hn. split; [reflexivity|]. intros site Hin.
      apply (Hn site). now apply Hs.
  - apply H3. constructor.
Qed.
End Variable_map.

(** ** What tracing and evaluation leave of the node *)

(** A projection of the state that is indifferent to the object store, the
    context, the device, the binding and the log, and to the fields of the
    node named in the hypotheses, is kept by the code that writes nothing
    else. *)
Section Node_frame.
Context {B X : Type}.
Variable P : plugin B.
Variable L : oplib.
Variable func : qfunc.
Variable self : nat.
Variable f : world B -> X.
Hypothesis f_heap : forall h w, f (set_heap h w) = f w.
Hypothesis f_ctx : forall c w, f (set_context c w) = f w.
Hypothesis f_dev : forall g w, f (set_dev g w) = f w.
Hypothesis f_fpv : forall v w, f (set_free_param_values v w) = f w.
Hypothesis f_kwv : forall v w, f (set_kwarg_values v w) = f w.
Hypothesis f_log : forall e w, f (add_log e w) = f w.
Hypothesis f_queue : forall l w, f (set_qn (with_queue l) w) = f w.
Hypothesis f_ev : forall l w, f (set_qn (with_ev l) w) = f w.
Hypothesis f_ops : forall l w, f (set_qn (with_ops l) w) = f w.
Hypothesis f_output : forall c n w, f (set_qn (with_output c n) w) = f w.
Hypothesis f_type : forall t w, f (set_qn (with_type t) w) = f w.
Hypothesis f_variable_ops :
  forall v w, f (set_qn (with_variable_ops v) w) = f w.
Hypothesis f_gmfp :
  forall g w, f (set_qn (with_grad_method_for_par g) w) = f w.
Hypothesis f_num_variables :
  forall n w, f (set_qn (with_num_variables n) w) = f w.
Hypothesis f_model : forall m w, f (set_qn (with_model m) w) = f w.
Hypothesis f_keyword_defaults :
  forall d w, f (set_qn (with_keyword_defaults d) w) = f w.

Lemma node_alloc o : preserves f (alloc o).
Proof using f_heap. intros w. apply f_heap. Qed.

Lemma node_store r o : preserves f (store r o).
Proof using f_heap. apply preserves_modify. auto. Qed.

Lemma node_call g : preserves f (call g).
Proof using f_dev. intros w. unfold call. destruct (g (dev w)); simpl; auto. Qed.

Ltac node :=
  pres_with ltac:(first [ apply node_alloc | apply node_store
                        | apply node_call | apply frame_ask | apply frame_val
                        | apply frame_Operation_parameters
                        | apply preserves_modify; intros ?;
                          first [ apply f_heap | apply f_ctx | apply f_dev
                                | apply f_fpv | apply f_kwv | apply f_log
                                | apply f_queue | apply f_ev | apply f_ops
                                | apply f_output | apply f_type
                                | apply f_variable_ops | apply f_gmfp
                                | apply f_num_variables | apply f_model
                                | apply f_keyword_defaults ]
                        | match goal with H : _ |- _ => apply H end ]).

Lemma node_all_observables xs : preserves f (all_observables xs).
Proof. induction xs as [|x xs IH]; simpl; unfold observable_ref; node. Qed.

Lemma node_scan_ev_successors r xs : preserves f (scan_ev_successors r xs).
Proof using f_heap. induction xs as [|x xs IH]; simpl; node. Qed.

Lemma node_best_method k : preserves f (_best_method k).
Proof using f_heap.
  pose proof node_scan_ev_successors.
  unfold _best_method, best_methods, best_for_op, _op_successors. node.
Qed.

Lemma node_trace v kw : preserves f (trace func v kw).
Proof using f_heap f_ctx f_queue f_ev.
  unfold trace, call_func, run_action, _append_op, resolve_item. node.
Qed.

Lemma node_check_return res : preserves f (check_return res).
Proof using f_output.
  pose proof node_all_observables.
  unfold check_return, validate_return, has_return_type, observable_ref.
  node.
Qed.

Lemma node_construct_finish res : preserves f (construct_finish res).
Proof using f_heap f_ev f_ops f_type f_variable_ops f_gmfp.
  pose proof node_best_method. unfold construct_finish. node.
Qed.

Lemma node_construct_rest v kw :
  preserves f (enter_context self ;;
               res <- trace func v kw ;;
               res <- check_return res ;;
               construct_finish res).
Proof using f_heap f_ctx f_queue f_ev f_ops f_output f_type f_variable_ops
  f_gmfp.
  pose proof node_trace. pose proof node_check_return.
  pose proof node_construct_finish.
  unfold enter_context. node.
Qed.

Lemma node_construct_begin args kwargs :
  preserves f (construct_begin func args kwargs).
Proof using f_log f_queue f_ev f_num_variables f_model f_keyword_defaults
  f_fpv f_kwv.
  unfold construct_begin, kwarg_variable. node.
Qed.

Lemma node_construct args kwargs :
  preserves f (construct func self args kwargs).
Proof using f_heap f_ctx f_queue f_ev f_ops f_output f_type f_variable_ops
  f_gmfp f_log f_num_variables f_model f_keyword_defaults f_fpv f_kwv.
  pose proof node_construct_begin. pose proof node_construct_rest.
  unfold construct. node.
Qed.

Lemma node_execute q o p : preserves f (execute P q o p).
Proof using f_dev.
  unfold execute, execute_enter, execute_body, execute_leave, check_validity,
    measure.
  node.
Qed.

Lemma node_run_circuit args kwargs : preserves f (run_circuit P args kwargs).
Proof using f_dev f_fpv f_kwv.
  pose proof node_execute.
  unfold run_circuit, set_binding, circuit_checks, check_op. node.
Qed.

Lemma node_evaluate args kwargs :
  preserves f (evaluate P func self args kwargs).
Proof using f_heap f_ctx f_queue f_ev f_ops f_output f_type f_variable_ops
  f_gmfp f_log f_num_variables f_model f_keyword_defaults f_fpv f_kwv f_dev.
  pose proof node_construct. pose proof node_run_circuit.
  unfold evaluate, maybe_construct. node.
Qed.

Lemma node_evaluate_flat args kwargs :
  preserves f (evaluate_flat P func self args kwargs).
Proof using f_heap f_ctx f_queue f_ev f_ops f_output f_type f_variable_ops
  f_gmfp f_log f_num_variables f_model f_keyword_defaults f_fpv f_kwv f_dev.
  pose proof node_evaluate. unfold evaluate_flat. node.
Qed.

Lemma node_evaluate_obs obs args kwargs :
  preserves f (evaluate_obs P obs args kwargs).
Proof using f_dev f_fpv f_kwv.
  pose proof node_execute. unfold evaluate_obs, set_binding. node.
Qed.

Lemma node_pd_analytic params_ k force kwargs :
  preserves f (_pd_analytic P L func self params_ k force kwargs).
Proof using f_heap f_ctx f_queue f_ev f_ops f_output f_type f_variable_ops
  f_gmfp f_log f_num_variables f_model f_keyword_defaults f_fpv f_kwv f_dev.
  pose proof node_evaluate_flat. pose proof node_evaluate_obs.
  unfold _pd_analytic, pd_site, pd_order2, set_param, tr_of, tr_obs,
    _op_successors.
  node.
Qed.
End Node_frame.

Section Construct_post.
Context {B : Type}.
Variable func : qfunc.
Variable self : nat.

Lemma construct_begin_sets args kwargs (w : world B) :
  exists vk w1,
    construct_begin func args kwargs w = (Ok vk, w1)
    /\ num_variables (qn w1) = Some (length (flatten_args args))
    /\ model (qn w1) = args
    /\ keyword_defaults (qn w1) = defaults func
    /\ cache (qn w1) = cache (qn w)
    /\ free_param_values w1 = flatten_args args.
Proof.
  unfold construct_begin.
  match goal with
  | |- context [unflatten ?t args] =>
      destruct (unflatten_same_length t args) as [vs Hvs];
      [ now rewrite length_map, length_seq | ]
  end.
  unfold bind at 1 2 3 4 5 6 7 8. cbn [modify lift]. rewrite Hvs.
  cbn [gets]. unfold bind at 1.
  destruct (cache _) eqn:Hc.
  - match goal with
    | |- context [map_m kwarg_variable ?l ?w0] =>
        destruct (map_m_kwarg_variable_ok l w0) as [kw Hkw]
    end.
    rewrite Hkw. eexists _, _. split; [reflexivity|]. simpl.
    rewrite length_map, length_seq. repeat split. exact Hc.
  - eexists _, _. split; [reflexivity|]. simpl.
    rewrite length_map, length_seq. repeat split. exact Hc.
Qed.

Lemma map_m_deref_inv rs : forall (w w' : world B) os,
  map_m deref rs w = (Ok os, w') ->
  w' = w /\ os = objects (heap w) rs
  /\ Forall (fun r => is_Some (heap w !! r)) rs.
Proof.
  induction rs as [|r rs IH]; intros w w' os H; simpl in H.
  - inversion H; subst. repeat split. constructor.
  - apply bind_inv_ok in H as (o & w1 & Hd & H).
    apply deref_inv in Hd as [-> Ho].
    apply bind_inv_ok in H as (os' & w2 & Hm & H).
    apply IH in Hm as (-> & -> & Hv). inversion H; subst.
    split; [reflexivity|]. split; [|constructor; eauto].
    unfold objects. simpl. now rewrite Ho.
Qed.

Lemma validate_return_output res (w w' : world B) rs :
  validate_return res w = (Ok rs, w') ->
  output_dim (qn w') = length rs /\ queue (qn w') = queue (qn w).
Proof.
  destruct res as [x|xs]; simpl.
  - intros H. apply bind_inv_ok in H as (y & w1 & Hy & H).
    apply observable_ref_inv in Hy as [-> Hy].
    destruct y as [r|]; [|inversion H].
    apply bind_inv_ok in H as (o & w2 & Hd & H).
    apply deref_inv in Hd as [-> Hd].
    inversion H; subst. split; reflexivity.
  - destruct xs as [|x xs]; [intros H; inversion H|].
    intros H. apply bind_inv_ok in H as (ys & w1 & Hys & H).
    destruct ys as [rs'|]; [|inversion H].
    apply all_observables_inv in Hys as (-> & _).
    unfold bind, modify, ret in H. inversion H; subst. split; reflexivity.
Qed.

Lemma check_return_output res (w w' : world B) rs :
  check_return res w = (Ok rs, w') ->
  output_dim (qn w') = length rs /\ queue (qn w') = queue (qn w)
  /\ heap w' = heap w.
Proof.
  intros H.
  assert (Hh : heap w' = heap w).
  { refine (preserves_inv heap _ _ _ _ _ H).
    apply frame_check_return. reflexivity. }
  unfold check_return in H.
  apply bind_inv_ok in H as (rs1 & w1 & Hval & H).
  apply validate_return_output in Hval as [Hd Hq].
  apply bind_inv_ok in H as ([] & w2 & Hrt & H).
  apply return_types_inv in Hrt as [-> _].
  apply bind_inv_ok in H as (q & w2 & Hg & H). inversion Hg; subst q w2.
  apply bind_inv_ok in H as ([] & w2 & Hc & H).
  destruct (bool_decide _); inversion Hc; subst w2.
  inversion H; subst. auto.
Qed.

Lemma fold_best_methods_keys ks : forall (w w' : world B) acc g,
  fold_m (fun acc k => m <- _best_method k ;; ret (acc ++ [(k, m)])) ks acc w
  = (Ok g, w') ->
  dict_keys g = dict_keys acc ++ ks.
Proof.
  induction ks as [|k0 ks IH]; intros w w' acc g H; simpl in H.
  - inversion H; subst. now rewrite app_nil_r.
  - apply bind_inv_ok in H as (acc' & w1 & Hb & H).
    apply bind_inv_ok in Hb as (m0 & w2 & Hm & Hb). inversion Hb; subst.
    apply IH in H. rewrite H. unfold dict_keys. rewrite fmap_app. simpl.
    now rewrite <- app_assoc.
Qed.

(** [_best_method] writes nothing but gradient marks. *)
Lemma unmarked_scan_ev_successors r xs :
  preserves (fun w : world B => unmarked <$> heap w)
    (scan_ev_successors r xs).
Proof.
  induction xs as [|x xs IH]; simpl.
  - apply preserves_ret.
  - apply preserves_bind; [apply preserves_deref|]. intros o.
    destruct (ev_order o) as [[|[|[|n]]]|]; try apply preserves_ret;
      try exact IH.
    destruct (bool_decide _); [apply preserves_ret|].
    intros w. unfold bind at 1, deref.
    destruct (heap w !! r) as [op|] eqn:Hr; [|reflexivity].
    unfold bind at 1. cbn [store modify].
    rewrite IH. cbn [heap set_heap].
    rewrite list_fmap_insert.
    apply list_insert_id. rewrite list_lookup_fmap, Hr. reflexivity.
Qed.

Lemma unmarked_best_method k :
  preserves (fun w : world B => unmarked <$> heap w) (_best_method k).
Proof.
  unfold _best_method, best_methods, best_for_op, _op_successors.
  pres_with ltac:(first [ apply unmarked_scan_ev_successors ]).
Qed.

Lemma objects_unmarked (h : list operation) rs :
  objects (unmarked <$> h) rs = unmarked <$> objects h rs.
Proof.
  induction rs as [|r rs IH]; [reflexivity|].
  rewrite !objects_cons, list_lookup_fmap.
  destruct (h !! r); simpl; now rewrite IH.
Qed.

Lemma scan_ops_unmarked os : forall k d,
  scan_ops k (unmarked <$> os) d = scan_ops k os d.
Proof.
  induction os as [|o os IH]; intros k d; [reflexivity|]. simpl. apply IH.
Qed.

Lemma classify_unmarked os : classify (unmarked <$> os) = classify os.
Proof.
  unfold classify.
  assert (H : List.map op_cv
                (List.filter
                   (fun o => negb (String.eqb (op_name o) "Identity"))
                   (unmarked <$> os))
              = List.map op_cv
                  (List.filter
                     (fun o => negb (String.eqb (op_name o) "Identity")) os)).
  { induction os as [|o os IH]; [reflexivity|].
    change (unmarked <$> o :: os) with (unmarked o :: (unmarked <$> os)).
    cbn [List.filter]. change (op_name (unmarked o)) with (op_name o).
    destruct (negb _); cbn [List.map]; now rewrite IH. }
  cbv zeta. now rewrite H.
Qed.

(** X8. What a [construct] that returns leaves in the node: the
    operations are the queue followed by the returned observables, of
    which there is at least one and as many as the output dimension; the
    number of variables is the number of flattened positional arguments and
    the model is the arguments; the variable map is the scan of the
    operations, the gradient methods are recorded for exactly its keys, and
    the type is the classification of the operations; the cache setting is
    untouched, the keyword defaults are those of the quantum function and
    the free parameter values are the flattened arguments. *)
Theorem construct_postconditions args kwargs (w w' : world B) :
  construct func self args kwargs w = (Ok tt, w') ->
  let q := qn w' in
  let os := objects (heap w') (ops q) in
  ops q = queue q ++ ev q
  /\ ev q <> [] /\ output_dim q = length (ev q)
  /\ num_variables q = Some (length (flatten_args args))
  /\ model q = args
  /\ variable_ops q = scan_ops 0 os []
  /\ dict_keys (grad_method_for_par q) = dict_keys (variable_ops q)
  /\ (exists t, classify os = Ok t /\ type q = Some t)
  /\ cache q = cache (qn w)
  /\ keyword_defaults q = defaults func
  /\ free_param_values w' = flatten_args args.
Proof.
  intros H q os.
  destruct (construct_begin_sets args kwargs w)
    as (vk & w1 & Hb & Hn & Hm & Hk & Hc & Hf).
  unfold construct in H. rewrite (bind_ok _ _ _ _ _ Hb) in H.
  (* the fields that the rest of [construct] does not write *)
  set (f := fun w : world B =>
              (num_variables (qn w), model (qn w), keyword_defaults (qn w),
               cache (qn w), free_param_values w)).
  assert (Hkeep : f w' = f w1).
  { refine (preserves_inv f _ _ _ _ _ H).
    apply node_construct_rest; reflexivity. }
  unfold f in Hkeep. injection Hkeep as Hn' Hm' Hk' Hc' Hf'.
  (* the rest, step by step *)
  apply bind_inv_ok in H as ([] & w2 & _ & H).
  apply bind_inv_ok in H as (res0 & w3 & _ & H).
  apply bind_inv_ok in H as (res & w4 & Hcr & H).
  pose proof (check_return_inv _ _ _ _ Hcr) as (_ & Hne & _ & _).
  apply check_return_output in Hcr as (Hdim & _ & _).
  unfold construct_finish in H.
  apply bind_inv_ok in H as (q4 & w5 & Hg & H). inversion Hg; subst q4 w5.
  apply bind_inv_ok in H as ([] & w5 & H5 & H). inversion H5; subst w5.
  apply bind_inv_ok in H as ([] & w6 & H6 & H). inversion H6; subst w6.
  apply bind_inv_ok in H as (os4 & w7 & Hos & H).
  apply map_m_deref_inv in Hos as (-> & -> & _).
  apply bind_inv_ok in H as (t & w8 & Ht & H).
  apply lift_inv in Ht as [Ht ->].
  apply bind_inv_ok in H as ([] & w9 & H9 & H). inversion H9; subst w9.
  apply bind_inv_ok in H as ([] & w10 & H10 & H). inversion H10; subst w10.
  apply bind_inv_ok in H as (g & w11 & Hfold & H).
  inversion H; subst w'. clear H H5 H6 H9 H10 Hg.
  pose proof (fold_best_methods_keys _ _ _ _ _ Hfold) as Hkeys.
  assert (Hqn : qn w11 = qn (set_qn (with_variable_ops
                   (scan_ops 0 (objects (heap w4) (queue (qn w4) ++ res)) []))
                   (set_qn (with_type t)
                      (set_qn (with_ops (queue (qn w4) ++ res))
                         (set_qn (with_ev res) w4))))).
  { refine (preserves_inv qn _ _ _ _ _ Hfold).
    pres_with ltac:(apply node_best_method; reflexivity). }
  assert (Hheap : unmarked <$> heap w11 = unmarked <$> heap w4).
  { refine (preserves_inv (fun w : world B => unmarked <$> heap w)
              _ _ _ _ _ Hfold).
    pres_with ltac:(apply unmarked_best_method). }
  assert (Hos : forall rs, unmarked <$> objects (heap w11) rs
                           = unmarked <$> objects (heap w4) rs).
  { intros rs. now rewrite <- !objects_unmarked, Hheap. }
  subst q os. cbn [qn set_qn] in *. rewrite Hqn. cbn.
  rewrite Hqn in Hn', Hm', Hk', Hc'. cbn in Hn', Hm', Hk', Hc'.
  cbn in Hf'.
  split; [reflexivity|]. split; [exact Hne|]. split; [exact Hdim|].
  split; [congruence|]. split; [congruence|].
  split; [|split; [|split; [|split; [|split]]]].
  - fold (objects (heap w11) (queue (qn w4) ++ res)).
    rewrite <- (scan_ops_unmarked (objects (heap w11) _)), Hos.
    now rewrite scan_ops_unmarked.
  - exact Hkeys.
  - exists t. split; [|reflexivity].
    fold (objects (heap w11) (queue (qn w4) ++ res)).
    rewrite <- classify_unmarked, Hos, classify_unmarked. exact Ht.
  - congruence.
  - congruence.
  - congruence.
Qed.
End Construct_post.

Lemma construct_postconditions_witness :
  let w' := Examples.rx_traced in
  let q := qn w' in
  let os := objects (heap w') (ops q) in
  ops q = queue q ++ ev q
  /\ ev q <> [] /\ output_dim q = length (ev q)
  /\ num_variables q = Some (length (flatten_args [Leaf 1%Q]))
  /\ model q = [Leaf 1%Q]
  /\ variable_ops q = scan_ops 0 os []
  /\ dict_keys (grad_method_for_par q) = dict_keys (variable_ops q)
  /\ (exists t, classify os = Ok t /\ type q = Some t)
  /\ cache q = cache (qn (Examples.start true))
  /\ keyword_defaults q = defaults Examples.rx_circuit
  /\ free_param_values w' = flatten_args [Leaf 1%Q].
Proof.
  apply (construct_postconditions Examples.rx_circuit 0 [Leaf 1%Q] []
           (Examples.start true) Examples.rx_traced).
  vm_compute. reflexivity.
Defined.

Section Tracing.
Context {B : Type}.

Lemma is_measured_at_lookup (h : list operation) r o :
  h !! r = Some o -> is_measured_at h r = measured o.
Proof. intros H. unfold is_measured_at, measured, has_return. now rewrite H. Qed.

Lemma run_action_inv a (w w' : world B) :
  run_action a w = (Ok tt, w') ->
  exists o, a = AAppend o
    /\ heap w' = heap w ++ [o]
    /\ (if measured o
        then queue (qn w') = queue (qn w)
             /\ ev (qn w') = ev (qn w) ++ [length (heap w)]
        else queue (qn w') = queue (qn w) ++ [length (heap w)]
             /\ ev (qn w') = ev (qn w))
    /\ (is_observable o = false -> ev (qn w) = []).
Proof.
  destruct a as [o|e]; [|discriminate]. cbn [run_action].
  intros H. apply bind_inv_ok in H as (r & w1 & Ha & H).
  unfold alloc in Ha. inversion Ha; subst r w1. clear Ha.
  unfold _append_op in H.
  apply bind_inv_ok in H as (op & w1 & Hd & H).
  apply deref_inv in Hd as [-> Hd]. cbn [heap set_heap] in Hd.
  rewrite lookup_app_r, Nat.sub_diag in Hd by lia. inversion Hd; subst op.
  apply bind_inv_ok in H as (q & w1 & Hg & H). inversion Hg; subst q w1.
  exists o. split; [reflexivity|]. unfold measured, has_return.
  destruct (is_observable o).
  - destruct (return_type o); inversion H; subst; simpl; repeat split;
      discriminate.
  - simpl in H |- *. destruct (ev (qn w)) eqn:He; inversion H; subst.
    simpl. rewrite He. repeat split.
Qed.

(** X9. The run of the quantum function, when it goes through,
    distributes the operations it constructs in program order: the store
    grows by them; [queue] receives the gates and the observables without
    return type, [ev] the measured observables; every operation that
    follows a measured observable is an observable; and when [ev] was not
    empty before, every operation is an observable. *)
Theorem tracing_distributes (actions_ : list action) : forall w w' : world B,
  for_each actions_ run_action w = (Ok tt, w') ->
  exists os,
    actions_ = List.map AAppend os
    /\ heap w' = heap w ++ os
    /\ (let new := seq (length (heap w)) (length os) in
        queue (qn w')
        = queue (qn w)
          ++ List.filter (fun r => negb (is_measured_at (heap w') r)) new
        /\ ev (qn w')
           = ev (qn w) ++ List.filter (is_measured_at (heap w')) new)
    /\ (forall i j oi oj, i < j -> os !! i = Some oi -> os !! j = Some oj ->
          measured oi = true -> is_observable oj = true)
    /\ (ev (qn w) <> [] -> Forall (fun o => is_observable o = true) os).
Proof.
  induction actions_ as [|a actions_ IH]; intros w w' H.
  - inversion H; subst. exists []. simpl. rewrite !app_nil_r.
    repeat split; try constructor. intros i j oi oj _ Hi. discriminate.
  - cbn [for_each] in H. apply bind_inv_ok in H as ([] & w1 & Ha & H).
    apply run_action_inv in Ha as (o & -> & Hh1 & Hq1 & Hgate).
    apply IH in H as (os & -> & Hh & [Hq He] & Hord & Hobs).
    exists (o :: os). split; [reflexivity|].
    assert (Hh' : heap w' = heap w ++ o :: os).
    { rewrite Hh, Hh1, <- app_assoc. reflexivity. }
    split; [exact Hh'|].
    assert (Ho : heap w' !! length (heap w) = Some o).
    { rewrite Hh', lookup_app_r, Nat.sub_diag by lia. reflexivity. }
    assert (Hlen : length (heap w1) = S (length (heap w))).
    { rewrite Hh1, length_app. simpl. lia. }
    rewrite Hlen in Hq, He.
    split; [|split].
    + cbn [length seq List.filter].
      rewrite (is_measured_at_lookup _ _ _ Ho).
      destruct (measured o); destruct Hq1 as [Hq1 He1]; cbn [negb].
      * rewrite Hq, He, Hq1, He1, <- app_assoc. split; reflexivity.
      * rewrite Hq, He, Hq1, He1, <- app_assoc. split; reflexivity.
    + intros i j oi oj Hij Hi Hj Hm.
      destruct j as [|j]; [lia|]. cbn in Hj.
      destruct i as [|i]; cbn in Hi.
      * inversion Hi; subst oi. rewrite Hm in Hq1. destruct Hq1 as [_ He1].
        assert (Hne : ev (qn w1) <> []).
        { rewrite He1. intros Hnil. now apply app_eq_nil in Hnil as [_ ?]. }
        specialize (Hobs Hne). rewrite Forall_forall in Hobs.
        apply Hobs. eapply list_elem_of_lookup_2. exact Hj.
      * apply (Hord i j oi oj); [lia | assumption..].
    + intros Hne. constructor.
      * destruct (is_observable o) eqn:Hk; [reflexivity|].
        exfalso. apply Hne. now apply Hgate.
      * apply Hobs. destruct (measured o); destruct Hq1 as [_ He1];
          rewrite He1; [|exact Hne].
        intros Hnil. now apply app_eq_nil in Hnil as [_ ?].
Qed.
End Tracing.

Lemma tracing_distributes_witness :
  let w := Examples.start false in
  let acts := [AAppend (Examples.RX (PNum 1) 0);
               AAppend (Examples.PauliZ 1 None);
               AAppend (Examples.PauliZ 0 (Some Expectation))] in
  let w' := snd (for_each acts run_action w) in
  exists os,
    acts = List.map AAppend os
    /\ heap w' = heap w ++ os
    /\ (let new := seq (length (heap w)) (length os) in
        queue (qn w')
        = queue (qn w)
          ++ List.filter (fun r => negb (is_measured_at (heap w') r)) new
        /\ ev (qn w')
           = ev (qn w) ++ List.filter (is_measured_at (heap w')) new)
    /\ (forall i j oi oj, i < j -> os !! i = Some oi -> os !! j = Some oj ->
          measured oi = true -> is_observable oj = true)
    /\ (ev (qn w) <> [] -> Forall (fun o => is_observable o = true) os).
Proof.
  intros w acts w'.
  apply (tracing_distributes acts w w'). vm_compute. reflexivity.
Defined.

Section Wire_checks.
Context {B : Type}.
Variable P : plugin B.
Variable func : qfunc.
Variable self : nat.

Lemma check_op_value o (w : world B) :
  check_op P o w
  = (if forallb (fun w => negb (Z.ltb w 0)
                          && negb (Z.leb (Z.of_nat (num_wires P)) w))
          (wires o)
     then Ok tt else Raise QuantumFunctionError, w).
Proof. unfold check_op. destruct (forallb _ _); reflexivity. Qed.

Lemma for_each_check_op os : forall w : world B,
  for_each os (check_op P) w
  = (if forallb (fun o =>
                   forallb (fun w => negb (Z.ltb w 0)
                                     && negb (Z.leb (Z.of_nat (num_wires P)) w))
                     (wires o)) os
     then Ok tt else Raise QuantumFunctionError, w).
Proof.
  induction os as [|o os IH]; intros w; [reflexivity|].
  cbn [for_each forallb]. unfold bind. rewrite check_op_value.
  destruct (forallb _ (wires o)); simpl; [apply IH | reflexivity].
Qed.

Lemma wires_in_range os :
  forallb (fun o =>
             forallb (fun w => negb (Z.ltb w 0)
                               && negb (Z.leb (Z.of_nat (num_wires P)) w))
               (wires o)) os = true
  <-> Forall (fun o => Forall (fun w => (0 <= w < Z.of_nat (num_wires P))%Z)
                         (wires o)) os.
Proof.
  rewrite forallb_forall, Forall_forall. split; intros H o Hin.
  - apply list_elem_of_In in Hin. specialize (H o Hin).
    rewrite forallb_forall in H. apply Forall_forall. intros x Hx.
    apply list_elem_of_In in Hx. specialize (H x Hx).
    apply andb_true_iff in H as [H1 H2].
    apply negb_true_iff in H1, H2.
    apply Z.ltb_ge in H1. apply Z.leb_gt in H2. lia.
  - apply list_elem_of_In in Hin. specialize (H o Hin).
    rewrite Forall_forall in H. apply forallb_forall. intros x Hx.
    apply list_elem_of_In in Hx. specialize (H x Hx).
    apply andb_true_iff. split; apply negb_true_iff.
    + apply Z.ltb_ge. lia.
    + apply Z.leb_gt. lia.
Qed.

Lemma circuit_checks_value (w : world B) :
  Forall (fun r => is_Some (heap w !! r)) (ev (qn w) ++ ops (qn w)) ->
  circuit_checks P w
  = (if bool_decide (NoDup (concat (List.map wires
                                      (objects (heap w) (ev (qn w))))))
        && forallb (fun o =>
                      forallb (fun w => negb (Z.ltb w 0)
                                        && negb (Z.leb (Z.of_nat (num_wires P)) w))
                        (wires o)) (objects (heap w) (ops (qn w)))
     then Ok tt else Raise QuantumFunctionError, w).
Proof.
  intros Hv. apply Forall_app in Hv as [Hev Hops].
  unfold circuit_checks. unfold bind at 1. cbn [gets].
  rewrite (bind_ok _ _ _ _ _ (map_m_deref _ w Hev)).
  unfold bind at 1.
  destruct (bool_decide (NoDup _)); simpl; [|reflexivity].
  rewrite (bind_ok _ _ _ _ _ (map_m_deref _ w Hops)).
  apply for_each_check_op.
Qed.

Lemma wires_ok_bool (w : world B) :
  wires_ok P (heap w) (qn w)
  <-> bool_decide (NoDup (concat (List.map wires
                                    (objects (heap w) (ev (qn w))))))
      && forallb (fun o =>
                    forallb (fun w => negb (Z.ltb w 0)
                                      && negb (Z.leb (Z.of_nat (num_wires P)) w))
                      (wires o)) (objects (heap w) (ops (qn w))) = true.
Proof.
  unfold wires_ok. rewrite andb_true_iff, bool_decide_eq_true, wires_in_range.
  reflexivity.
Qed.

(** X10. The two checks of the wires in [evaluate] pass exactly when no
    wire is measured by two of the returned observables and every wire of
    every operation of the circuit lies between 0 and the number of wires
    of the device; otherwise they raise [QuantumFunctionError]; they change
    nothing. *)
Theorem circuit_checks_wires (w : world B) :
  Forall (fun r => is_Some (heap w !! r)) (ev (qn w) ++ ops (qn w)) ->
  (wires_ok P (heap w) (qn w) -> circuit_checks P w = (Ok tt, w))
  /\ (~ wires_ok P (heap w) (qn w) ->
      circuit_checks P w = (Raise QuantumFunctionError, w)).
Proof.
  intros Hv. rewrite (circuit_checks_value w Hv), wires_ok_bool.
  destruct (_ && _); split; intros H; try reflexivity; congruence.
Qed.

(** X11. On a node with a cached circuit, [evaluate] binds the values and
    resets the device before it checks the wires: when a wire is measured
    twice or does not exist, it raises [QuantumFunctionError], and what it
    leaves is the state with the call logged, the values bound and the
    backend reset; the circuit was not traced again, the queues of the
    device were not set and nothing was applied or measured. *)
Theorem evaluate_rejects_wires args kwargs (w : world B) :
  cache (qn w) = true -> ops (qn w) <> [] ->
  Forall (fun r => is_Some (heap w !! r)) (ev (qn w) ++ ops (qn w)) ->
  ~ wires_ok P (heap w) (qn w) ->
  evaluate P func self args kwargs w
  = (Raise QuantumFunctionError,
     set_dev (with_backend (reset P (dev w)))
       (set_kwarg_values (kw_binding (qn w) kwargs)
          (set_free_param_values (flatten_args args)
             (add_log (EvEvaluate (flatten_args args)) w)))).
Proof.
  intros Hc Ho Hv Hbad. unfold evaluate.
  unfold bind at 1. cbn [modify].
  set (w0 := add_log (EvEvaluate (flatten_args args)) w).
  assert (Hm : maybe_construct func self args kwargs w0 = (Ok tt, w0)).
  { unfold maybe_construct. unfold bind at 1. cbn [gets].
    change (qn w0) with (qn w). rewrite Hc.
    rewrite bool_decide_eq_false_2 by exact Ho. reflexivity. }
  rewrite (bind_ok _ _ _ _ _ Hm).
  unfold run_circuit.
  set (w1 := set_kwarg_values (kw_binding (qn w) kwargs)
               (set_free_param_values (flatten_args args) w0)).
  assert (Hsb : set_binding (flatten_args args) kwargs w0 = (Ok tt, w1))
    by reflexivity.
  rewrite (bind_ok _ _ _ _ _ Hsb).
  set (w2 := set_dev (with_backend (reset P (dev w))) w1).
  assert (Hcall : call (fun d => Ok (reset P d)) w1 = (Ok tt, w2))
    by reflexivity.
  rewrite (bind_ok _ _ _ _ _ Hcall).
  assert (Hcc : circuit_checks P w2 = (Raise QuantumFunctionError, w2)).
  { rewrite (circuit_checks_value w2 Hv).
    apply (proj1 (not_iff_compat (wires_ok_bool w2))) in Hbad.
    apply not_true_is_false in Hbad. now rewrite Hbad. }
  rewrite (bind_raise _ _ _ _ _ Hcc). reflexivity.
Qed.
End Wire_checks.

Section Classify.

Lemma forallb_id_map (os : list operation) :
  forallb (fun b : bool => b) (List.map op_cv os) = true
  <-> Forall (fun o => op_cv o = true) os.
Proof.
  induction os as [|o os IH]; simpl.
  - split; [constructor | reflexivity].
  - rewrite andb_true_iff, IH, Forall_cons. reflexivity.
Qed.

Lemma existsb_id_map (os : list operation) :
  existsb (fun b : bool => b) (List.map op_cv os) = false
  <-> Forall (fun o => op_cv o = false) os.
Proof.
  induction os as [|o os IH]; simpl.
  - split; [constructor | reflexivity].
  - rewrite orb_false_iff, IH, Forall_cons. reflexivity.
Qed.

(** X12. The classification of a circuit looks at the operations other
    than [Identity]: the circuit is CV when all of them are CV, which
    includes the circuit that has none; it is a qubit circuit when there is
    at least one and none is CV; and [construct] raises
    [QuantumFunctionError] exactly when one of them is CV and another one
    is not. *)
Theorem classify_by_kind (os : list operation) :
  (classify os = Ok CV <-> Forall (fun o => op_cv o = true) (typed os))
  /\ (classify os = Ok Qubit
      <-> typed os <> [] /\ Forall (fun o => op_cv o = false) (typed os))
  /\ (classify os = Raise QuantumFunctionError
      <-> (exists o, o ∈ typed os /\ op_cv o = true)
          /\ (exists o, o ∈ typed os /\ op_cv o = false)).
Proof.
  unfold classify. cbv zeta. fold (typed os).
  assert (Hsome : forall b, ~ Forall (fun o => op_cv o = b) (typed os)
                            -> exists o, o ∈ typed os /\ op_cv o = negb b).
  { intros b Hn. apply not_Forall_Exists in Hn; [|intros o; apply _].
    apply Exists_exists in Hn as (o & Hin & Ho). exists o. split; [exact Hin|].
    destruct (op_cv o) eqn:E, b; simpl; congruence. }
  destruct (forallb _ _) eqn:Hf.
  - apply forallb_id_map in Hf. split; [tauto|]. split.
    + split; [discriminate|]. intros [Hne Hq]. exfalso.
      revert Hf Hne Hq. clear.
      destruct (typed os) as [|o l]; intros Hf Hne Hq; [congruence|].
      inversion Hf; inversion Hq; congruence.
    + split; [discriminate|]. intros [_ (o & Hin & Ho)].
      rewrite Forall_forall in Hf. specialize (Hf o Hin). congruence.
  - assert (Hnf : ~ Forall (fun o => op_cv o = true) (typed os)).
    { intros H. apply forallb_id_map in H. congruence. }
    destruct (existsb _ _) eqn:He; simpl.
    + assert (Hne : ~ Forall (fun o => op_cv o = false) (typed os)).
      { intros H. apply existsb_id_map in H. congruence. }
      split; [split; [discriminate | tauto]|]. split.
      * split; [discriminate | tauto].
      * split; [|reflexivity]. intros _. split.
        -- exact (Hsome false Hne).
        -- exact (Hsome true Hnf).
    + apply existsb_id_map in He. split; [split; [discriminate | tauto]|]. split.
      * split; [|reflexivity]. intros _. split; [|exact He].
        intros Hnil. apply Hnf. rewrite Hnil. constructor.
      * split; [discriminate|]. intros [(o & Hin & Ho) _].
        rewrite Forall_forall in He. specialize (He o Hin). congruence.
Qed.
End Classify.

Lemma circuit_checks_wires_witness :
  circuit_checks Examples.sum_device Examples.rx_traced
  = (Ok tt, Examples.rx_traced)
  /\ circuit_checks Examples.sum_device twice_measured
     = (Raise QuantumFunctionError, twice_measured).
Proof.
  split.
  - apply (proj1 (circuit_checks_wires Examples.sum_device Examples.rx_traced
                    ltac:(repeat constructor; eexists; reflexivity))).
    split.
    + vm_compute. repeat constructor; intros H; inversion H.
    + vm_compute. repeat constructor; discriminate.
  - apply (proj2 (circuit_checks_wires Examples.sum_device twice_measured
                    ltac:(repeat constructor; eexists; reflexivity))).
    intros [Hnd _]. vm_compute in Hnd.
    apply NoDup_cons in Hnd as [Hnin _]. apply Hnin. left.
Defined.

Lemma evaluate_rejects_wires_witness :
  fst (evaluate Examples.sum_device Examples.rx_circuit 0 [Leaf 1%Q] []
         twice_measured)
  = Raise QuantumFunctionError
  /\ _op_queue (dev (snd (evaluate Examples.sum_device Examples.rx_circuit 0
                            [Leaf 1%Q] [] twice_measured))) = None.
Proof.
  rewrite (evaluate_rejects_wires Examples.sum_device Examples.rx_circuit 0
             [Leaf 1%Q] [] twice_measured).
  - split; reflexivity.
  - reflexivity.
  - discriminate.
  - repeat constructor; eexists; reflexivity.
  - intros [Hnd _]. vm_compute in Hnd.
    apply NoDup_cons in Hnd as [Hnin _]. apply Hnin. left.
Defined.

Section Jacobian_checks.
Context {B : Type}.
Variable P : plugin B.
Variable L : oplib.
Variable func : qfunc.
Variable self : nat.

Lemma check_method_true g which m :
  check_method g which m = true <-> exists k, k ∈ which /\ (k, m) ∈ g.
Proof.
  unfold check_method. rewrite existsb_exists. split.
  - intros ([k v] & Hin & Hb). apply andb_true_iff in Hb as [Hv Hk].
    apply bool_decide_eq_true in Hv, Hk. simpl in Hv, Hk. subst v.
    exists k. split; [exact Hk|]. now apply list_elem_of_In.
  - intros (k & Hk & Hin). exists (k, m). split.
    + now apply list_elem_of_In.
    + simpl. rewrite !bool_decide_eq_true_2; auto.
Qed.

Lemma existsb_leb n wh :
  existsb (fun k => Nat.leb n k) wh = true <-> exists k, k ∈ wh /\ n <= k.
Proof.
  rewrite existsb_exists. split.
  - intros (k & Hin & Hle). exists k. split; [now apply list_elem_of_In|].
    now apply Nat.leb_le.
  - intros (k & Hin & Hle). exists k. split; [now apply list_elem_of_In|].
    now apply Nat.leb_le.
Qed.

Lemma flatten_values (params_ : list (nested number)) :
  flatten_args (values params_) = List.map float_of (flatten_args params_).
Proof.
  unfold flatten_args, values.
  assert (H1 : forall x : nested number,
             _flatten (nested_map float_of x) = List.map float_of (_flatten x)).
  { induction x as [a|l IH] using nested_ind'; [reflexivity|].
    simpl. induction IH as [|y l Hy _ IHl]; [reflexivity|].
    simpl. rewrite map_app, Hy. f_equal. exact IHl. }
  induction params_ as [|x l IH]; [reflexivity|].
  simpl. rewrite map_app, H1. f_equal. exact IH.
Qed.

Lemma requested_values (params_ : list (nested number)) which :
  requested (values params_) which = requested params_ which.
Proof.
  destruct which; [reflexivity|]. unfold requested.
  now rewrite flatten_values, length_map.
Qed.

(** On a cached node [jacobian] starts with the test for samples. *)
Lemma jacobian_setup_cached params_ which method kwargs (w : world B) :
  cached w ->
  Forall (fun r => is_Some (heap w !! r)) (ev (qn w)) ->
  jacobian_setup func self params_ which method kwargs w
  = if existsb (fun e => bool_decide (return_type e = Some Sample))
         (objects (heap w) (ev (qn w)))
    then (Raise QuantumFunctionError, w)
    else
      (which <- match which with
                | None => ret (seq 0 (length (flatten_args params_)))
                | Some [] => raise ValueError
                | Some wh =>
                    n <- from_option TypeError (num_variables (qn w)) ;;
                    if existsb (fun k => Nat.leb n k) wh then raise ValueError
                    else if bool_decide (NoDup wh) then ret wh
                    else raise ValueError
                end ;;
       (if check_method (grad_method_for_par (qn w)) which None
        then raise ValueError else ret tt) ;;
       method <- match method with
                 | MethodA =>
                     if check_method (grad_method_for_par (qn w)) which
                          (Some GF)
                     then raise ValueError
                     else ret (fold_left (fun d k => dict_set d k (Some GA))
                                 which [])
                 | MethodF =>
                     ret (fold_left (fun d k => dict_set d k (Some GF))
                            which [])
                 | MethodB => ret (grad_method_for_par (qn w))
                 | MethodOther => raise ValueError
                 end ;;
       ret (which, method)) w.
Proof.
  intros [Hc Ho] Hv. unfold jacobian_setup.
  unfold bind at 1. cbn [gets]. rewrite Hc.
  rewrite bool_decide_eq_false_2 by exact Ho. cbn [orb negb].
  unfold bind at 1. cbn [ret]. unfold bind at 1. cbn [gets].
  rewrite (bind_ok _ _ _ _ _ (map_m_deref _ w Hv)).
  unfold bind at 1. destruct (existsb _ _); reflexivity.
Qed.

(** X13. A circuit that returns a sample cannot be differentiated: on a
    node with a cached circuit one of whose returned observables is a
    sample, [jacobian] raises [QuantumFunctionError], whatever parameters
    and method are asked for, and changes nothing: the circuit is not
    evaluated. *)
Theorem jacobian_rejects_sampling params_ which method h order kwargs
  (w : world B) r e :
  cached w ->
  Forall (fun r => is_Some (heap w !! r)) (ev (qn w)) ->
  r ∈ ev (qn w) -> heap w !! r = Some e -> return_type e = Some Sample ->
  jacobian P L func self params_ which method h order kwargs w
  = (Raise QuantumFunctionError, w).
Proof.
  intros Hc Hv Hr He Hs. unfold jacobian.
  assert (Hset : jacobian_setup func self (values params_) which method
                   kwargs w
                 = (Raise QuantumFunctionError, w)).
  { rewrite (jacobian_setup_cached _ _ _ _ w Hc Hv).
    assert (Hex : existsb (fun e => bool_decide (return_type e = Some Sample))
                    (objects (heap w) (ev (qn w))) = true).
    { apply existsb_exists. exists e. split.
      - apply list_elem_of_In. unfold objects.
        apply list_elem_of_omap. exists r. auto.
      - now apply bool_decide_eq_true. }
    now rewrite Hex. }
  now rewrite (bind_raise _ _ _ _ _ Hset).
Qed.

Lemma no_sample_existsb (h : list operation) rs :
  Forall (fun o => return_type o <> Some Sample) (objects h rs) ->
  existsb (fun e => bool_decide (return_type e = Some Sample)) (objects h rs)
  = false.
Proof.
  intros Hn. apply not_true_is_false. intros Hex.
  apply existsb_exists in Hex as (e & Hin & Hs).
  apply bool_decide_eq_true in Hs. apply list_elem_of_In in Hin.
  rewrite Forall_forall in Hn. exact (Hn e Hin Hs).
Qed.

(** The outcome of the validation as a boolean. *)
Lemma jacobian_setup_value params_ which method kwargs (w : world B) n :
  cached w ->
  Forall (fun r => is_Some (heap w !! r)) (ev (qn w)) ->
  Forall (fun o => return_type o <> Some Sample)
    (objects (heap w) (ev (qn w))) ->
  num_variables (qn w) = Some n ->
  let g := grad_method_for_par (qn w) in
  let req := requested params_ which in
  jacobian_setup func self params_ which method kwargs w
  = (if match which with
        | Some [] => true
        | Some wh => existsb (fun k => Nat.leb n k) wh
                     || negb (bool_decide (NoDup wh))
        | None => false
        end
        || check_method g req None
        || match method with
           | MethodA => check_method g req (Some GF)
           | MethodOther => true
           | _ => false
           end
     then Raise ValueError
     else Ok (req,
              match method with
              | MethodA => fold_left (fun d k => dict_set d k (Some GA)) req []
              | MethodF => fold_left (fun d k => dict_set d k (Some GF)) req []
              | _ => g
              end), w).
Proof.
  intros Hc Hv Hns Hn g req.
  rewrite (jacobian_setup_cached params_ which method kwargs w Hc Hv).
  rewrite (no_sample_existsb _ _ Hns). rewrite Hn. fold g.
  subst req.
  destruct which as [[|k0 wh]|];
    cbv beta iota zeta delta [bind ret raise from_option requested].
  - reflexivity.
  - destruct (existsb (fun k => Nat.leb n k) (k0 :: wh)); [reflexivity|].
    destruct (bool_decide (NoDup (k0 :: wh))); [|reflexivity].
    destruct (check_method g (k0 :: wh) None); [reflexivity|].
    destruct method; try reflexivity.
    destruct (check_method g (k0 :: wh) (Some GF)); reflexivity.
  - destruct (check_method g _ None); [reflexivity|].
    destruct method; try reflexivity.
    destruct (check_method g _ (Some GF)); reflexivity.
Qed.

(** X14. The validation of the request by [jacobian], on a node with a
    cached circuit without samples: a refused request raises [ValueError]
    and changes nothing, so that nothing is evaluated; any other request
    passes, for the parameters of [which] or for all of them, and leaves the
    state as it is. *)
Theorem jacobian_validates_request params_ which method h order kwargs
  (w : world B) n :
  cached w ->
  Forall (fun r => is_Some (heap w !! r)) (ev (qn w)) ->
  Forall (fun o => return_type o <> Some Sample)
    (objects (heap w) (ev (qn w))) ->
  num_variables (qn w) = Some n ->
  (refused n (grad_method_for_par (qn w)) params_ which method ->
   jacobian P L func self params_ which method h order kwargs w
   = (Raise ValueError, w))
  /\ (~ refused n (grad_method_for_par (qn w)) params_ which method ->
      exists methods,
        jacobian_setup func self (values params_) which method kwargs w
        = (Ok (requested params_ which, methods), w)).
Proof.
  intros Hc Hv Hns Hn.
  pose proof (jacobian_setup_value (values params_) which method kwargs w n
                Hc Hv Hns Hn) as Hset.
  cbv zeta in Hset. rewrite requested_values in Hset.
  set (g := grad_method_for_par (qn w)) in *.
  set (req := requested params_ which) in *.
  match type of Hset with
  | _ = (if ?b then _ else _, _) => set (bad := b) in *
  end.
  assert (Hbad : refused n g params_ which method <-> bad = true).
  { unfold refused, bad. fold req.
    rewrite !orb_true_iff, <- !check_method_true.
    assert (H1 : (exists wh, which = Some wh
                    /\ (wh = [] \/ (exists k, k ∈ wh /\ n <= k) \/ ~ NoDup wh))
                 <-> match which with
                     | Some [] => true
                     | Some wh => existsb (fun k => Nat.leb n k) wh
                                  || negb (bool_decide (NoDup wh))
                     | None => false
                     end = true).
    { destruct which as [[|k0 wh]|].
      - split; [reflexivity|]. intros _. exists []. auto.
      - rewrite orb_true_iff, negb_true_iff, bool_decide_eq_false, existsb_leb.
        split.
        + intros (wh' & [= <-] & [?|[?|?]]); [discriminate | auto..].
        + intros [?|?]; eexists; (split; [reflexivity|]); auto.
      - split; [intros (wh & [=] & _) | discriminate]. }
    assert (H2 : (method = MethodOther
                  \/ method = MethodA /\ check_method g req (Some GF) = true)
                 <-> match method with
                     | MethodA => check_method g req (Some GF)
                     | MethodOther => true
                     | _ => false
                     end = true).
    { destruct method; intuition congruence. }
    rewrite H1, <- H2. tauto. }
  split.
  - intros Hr. apply Hbad in Hr. rewrite Hr in Hset.
    unfold jacobian. now rewrite (bind_raise _ _ _ _ _ Hset).
  - intros Hr. destruct bad; [exfalso; apply Hr, Hbad; reflexivity|].
    eexists. exact Hset.
Qed.
End Jacobian_checks.

Section Jacobian_shape.
Context {B : Type}.
Variable P : plugin B.
Variable L : oplib.
Variable func : qfunc.
Variable self : nat.

Lemma column_length {A} dim (v c : list A) :
  column dim v = Ok c -> length c = dim.
Proof.
  unfold column. destruct (Nat.eqb_spec (length v) dim) as [He|He].
  - intros [= <-]. exact He.
  - destruct v as [|x [|y v]]; try discriminate.
    intros [= <-]. apply repeat_length.
Qed.

Lemma jacobian_column_length flat method h order y0 variances dim kwargs k
  (w w' : world B) c :
  jacobian_column P L func self flat method h order y0 variances dim kwargs k w
  = (Ok c, w') ->
  length c = dim.
Proof.
  unfold jacobian_column. intros H.
  apply bind_inv_ok in H as (q & w1 & Hg & H). inversion Hg; subst q w1.
  destruct (dict_get (variable_ops (qn w)) k).
  - apply bind_inv_ok in H as (m & w1 & _ & H).
    destruct m as [[| |]|]; try discriminate.
    + apply bind_inv_ok in H as (v & w2 & _ & H).
      apply lift_inv in H as [H _]. now apply column_length in H.
    + apply bind_inv_ok in H as (v & w2 & _ & H).
      apply lift_inv in H as [H _]. now apply column_length in H.
  - inversion H; subst. apply repeat_length.
Qed.

Lemma jacobian_columns_shape flat method h order y0 kwargs which
  (w w' : world B) cols :
  jacobian_columns P L func self flat method h order y0 kwargs which w
  = (Ok cols, w') ->
  length cols = length which
  /\ Forall (fun c => length c = output_dim (qn w)) cols.
Proof.
  unfold jacobian_columns. intros H.
  apply bind_inv_ok in H as (q & w1 & Hg & H). inversion Hg; subst q w1.
  apply bind_inv_ok in H as (evs & w1 & He & H).
  apply map_m_deref_inv in He as (-> & _ & _).
  cbv zeta in H. set (dim := output_dim (qn w)) in *. clearbody dim.
  revert w cols w' H Hg.
  induction which as [|k l IH]; intros w cols w' H _; simpl in H.
  - inversion H; subst. split; [reflexivity | constructor].
  - apply bind_inv_ok in H as (c & w1 & Hc & H).
    apply bind_inv_ok in H as (cs & w2 & Hcs & H). inversion H; subst.
    apply jacobian_column_length in Hc.
    destruct (IH w1 cs w' Hcs eq_refl) as [IH1 IH2].
    split; [simpl; now rewrite IH1|]. now constructor.
Qed.

Lemma jacobian_setup_inv params_ which method kwargs (w w1 : world B) wm :
  cached w ->
  jacobian_setup func self params_ which method kwargs w = (Ok wm, w1) ->
  w1 = w /\ fst wm = requested params_ which.
Proof.
  intros [Hc Ho]. unfold jacobian_setup. intros H.
  apply bind_inv_ok in H as (q & w2 & Hg & H). inversion Hg; subst q w2.
  rewrite Hc, bool_decide_eq_false_2 in H by exact Ho. cbn [orb negb] in H.
  apply bind_inv_ok in H as ([] & w2 & Hr & H). inversion Hr; subst w2.
  apply bind_inv_ok in H as (q & w2 & Hg' & H). inversion Hg'; subst q w2.
  apply bind_inv_ok in H as (evs & w2 & He & H).
  apply map_m_deref_inv in He as (-> & _ & _).
  apply bind_inv_ok in H as ([] & w2 & Hs & H).
  destruct (existsb _ _); inversion Hs; subst w2.
  apply bind_inv_ok in H as (wh & w2 & Hw & H).
  assert (Hwh : w2 = w /\ wh = requested params_ which).
  { destruct which as [[|k0 l]|]; cbn [requested].
    - discriminate.
    - apply bind_inv_ok in Hw as (n & w3 & Hn & Hw).
      apply from_option_inv in Hn as [_ ->].
      destruct (existsb _ _); [discriminate|].
      destruct (bool_decide _); inversion Hw; auto.
    - inversion Hw; auto. }
  destruct Hwh as [-> ->].
  apply bind_inv_ok in H as ([] & w2 & Hcm & H).
  destruct (check_method _ _ None); inversion Hcm; subst w2.
  apply bind_inv_ok in H as (meth & w2 & Hm & H).
  assert (w2 = w).
  { destruct method; try discriminate; try (inversion Hm; reflexivity).
    destruct (check_method _ _ _); inversion Hm; reflexivity. }
  subst w2. inversion H; subst. auto.
Qed.

Lemma jacobian_y0_node params_ method order kwargs (w w1 : world B) y0 :
  cached w ->
  jacobian_y0 P func self params_ method order kwargs w = (Ok y0, w1) ->
  qn w1 = qn w.
Proof.
  intros [Hc Ho]. unfold jacobian_y0.
  destruct (bool_decide _); [|intros H; inversion H; reflexivity].
  destruct (Nat.eqb order 1); [|intros H; inversion H; reflexivity].
  intros H. apply bind_inv_ok in H as (y & w2 & He & H).
  apply bind_inv_ok in H as (y' & w3 & Hl & H).
  apply lift_inv in Hl as [_ ->]. inversion H; subst w1. clear H.
  unfold evaluate in He.
  apply bind_inv_ok in He as ([] & w3 & Hlog & He).
  inversion Hlog; subst w3. clear Hlog.
  apply bind_inv_ok in He as ([] & w3 & Hm & He).
  assert (Hskip : w3 = add_log (EvEvaluate (flatten_args params_)) w).
  { unfold maybe_construct in Hm. unfold bind at 1 in Hm. cbn [gets] in Hm.
    cbn [qn add_log] in Hm.
    rewrite Hc, bool_decide_eq_false_2 in Hm by exact Ho.
    inversion Hm. reflexivity. }
  subst w3.
  apply (preserves_inv qn _ _ _ _
           (node_run_circuit P qn ltac:(reflexivity) ltac:(reflexivity)
              ltac:(reflexivity) _ _)) in He.
  exact He.
Qed.

(** X15. The shape of the Jacobian: on a node with a cached circuit, when
    [jacobian] returns, it returns one column for each requested parameter,
    those of [which] or all of them, and every column has as many entries
    as the circuit returns observables, the output dimension of the
    node. *)
Theorem jacobian_shape params_ which method h order kwargs (w w' : world B)
  cols :
  cached w ->
  jacobian P L func self params_ which method h order kwargs w
  = (Ok cols, w') ->
  length cols = length (requested params_ which)
  /\ Forall (fun c => length c = output_dim (qn w)) cols.
Proof.
  intros Hc H. unfold jacobian in H.
  apply bind_inv_ok in H as (wm & w1 & Hs & H).
  apply (jacobian_setup_inv _ _ _ _ _ _ _ Hc) in Hs as [-> Hreq].
  rewrite requested_values in Hreq.
  apply bind_inv_ok in H as (y0 & w2 & Hy & H).
  apply (jacobian_y0_node _ _ _ _ _ _ _ Hc) in Hy.
  apply jacobian_columns_shape in H. rewrite Hy, Hreq in H. exact H.
Qed.
End Jacobian_shape.

Lemma jacobian_rejects_sampling_witness :
  jacobian Examples.sum_device Examples.qubit_ops Examples.rx_circuit 0
    [Leaf (NFloat 1)] None MethodB (1 # 10) 1 [] sampled
  = (Raise QuantumFunctionError, sampled).
Proof.
  apply (jacobian_rejects_sampling Examples.sum_device Examples.qubit_ops
           Examples.rx_circuit 0 [Leaf (NFloat 1)] None MethodB (1 # 10) 1 []
           sampled 1 (set_return_type (Some Sample) (Examples.PauliZ 0 None))).
  - split; [reflexivity | discriminate].
  - repeat constructor. eexists. reflexivity.
  - left.
  - reflexivity.
  - reflexivity.
Defined.

Lemma jacobian_validates_request_witness :
  let w := Examples.rx_traced in
  jacobian Examples.sum_device Examples.qubit_ops Examples.rx_circuit 0
    [Leaf (NFloat 1)] (Some [5]) MethodA (1 # 10) 1 [] w
  = (Raise ValueError, w)
  /\ exists methods,
       jacobian_setup Examples.rx_circuit 0 (values [Leaf (NFloat 1)]) None
         MethodA [] w
       = (Ok ([0], methods), w).
Proof.
  intros w.
  assert (Hc : cached w) by (split; [reflexivity | discriminate]).
  assert (Hv : Forall (fun r => is_Some (heap w !! r)) (ev (qn w)))
    by (repeat constructor; eexists; reflexivity).
  assert (Hns : Forall (fun o => return_type o <> Some Sample)
                  (objects (heap w) (ev (qn w))))
    by (repeat constructor; discriminate).
  assert (Hn : num_variables (qn w) = Some 1) by reflexivity.
  split.
  - apply (proj1 (jacobian_validates_request Examples.sum_device
                    Examples.qubit_ops Examples.rx_circuit 0 [Leaf (NFloat 1)]
                    (Some [5]) MethodA (1 # 10) 1 [] w 1 Hc Hv Hns Hn)).
    left. exists [5]. split; [reflexivity|]. right. left.
    exists 5. split; [left | lia].
  - apply (proj2 (jacobian_validates_request Examples.sum_device
                    Examples.qubit_ops Examples.rx_circuit 0 [Leaf (NFloat 1)]
                    None MethodA (1 # 10) 1 [] w 1 Hc Hv Hns Hn)).
    intros [(wh & Hw & _)|[(k & _ & Hk)|[Hm|[_ (k & _ & Hk)]]]];
      try discriminate.
    + vm_compute in Hk. apply list_elem_of_singleton in Hk. discriminate.
    + vm_compute in Hk. apply list_elem_of_singleton in Hk. discriminate.
Defined.

Lemma jacobian_shape_witness :
  let w := Examples.rx_traced in
  match fst (jacobian Examples.sum_device Examples.qubit_ops
               Examples.rx_circuit 0 [Leaf (NFloat 1)] None MethodA (1 # 10)
               1 [] w)
  with
  | Ok cols => length cols = 1 /\ Forall (fun c => length c = 1) cols
  | Raise _ => False
  end.
Proof.
  intros w.
  destruct (jacobian Examples.sum_device Examples.qubit_ops
              Examples.rx_circuit 0 [Leaf (NFloat 1)] None MethodA (1 # 10)
              1 [] w)
    as [[cols|e] w'] eqn:E; [|vm_compute in E; discriminate].
  apply (jacobian_shape Examples.sum_device Examples.qubit_ops
           Examples.rx_circuit 0 [Leaf (NFloat 1)] None MethodA (1 # 10) 1 []
           w w' cols); [|exact E].
  split; [reflexivity | discriminate].
Defined.

Section Analytic_cost.
Context {B : Type}.
Variable P : plugin B.
Variable L : oplib.
Variable func : qfunc.
Variable self : nat.

Lemma log_set_param r p x : preserves (log (B := B)) (set_param r p x).
Proof.
  unfold set_param.
  pres_with ltac:(first [ apply node_store; reflexivity ]).
Qed.

(** The gradient marks of the objects of the store, in order. *)
Let marks (w : world B) : list (option gmethod) := grad_method <$> heap w.

(** A computation that only adds objects to the store. *)
Let grows {A} (m : M B A) : Prop :=
  forall w, heap w `prefix_of` heap (snd (m w)).

Lemma grows_keeps {A} (m : M B A) : preserves heap m -> grows m.
Proof. intros H w. now rewrite H. Qed.

Lemma grows_bind {A C} (m : M B A) (k : A -> M B C) :
  grows m -> (forall a, grows (k a)) -> grows (bind m k).
Proof.
  intros Hm Hk w. unfold bind. specialize (Hm w).
  destruct (m w) as [[a|e] w1]; simpl in *; [|exact Hm].
  etransitivity; [exact Hm | apply Hk].
Qed.

Lemma grows_map_m {A C} (g : A -> M B C) l :
  (forall a, grows (g a)) -> grows (map_m g l).
Proof.
  intros Hg. induction l as [|x l IH]; simpl; [intros w; reflexivity|].
  apply grows_bind; [apply Hg|]. intros y.
  apply grows_bind; [exact IH|]. intros ys w. reflexivity.
Qed.

Lemma grows_alloc o : grows (alloc o).
Proof. intros w. simpl. now apply prefix_app_r. Qed.

Lemma grows_tr_obs Z r : grows (tr_obs P L Z r).
Proof.
  unfold tr_obs.
  apply grows_bind; [apply grows_keeps, preserves_deref|]. intros ex.
  apply grows_bind; [apply grows_keeps, frame_Operation_parameters|].
  intros ps.
  apply grows_bind; [apply grows_keeps, preserves_lift|]. intros q.
  apply grows_bind; [|intros qp; apply grows_alloc].
  apply grows_keeps. destruct q; pres_with idtac.
Qed.

Lemma keep_pd_order2 {X} (f : world B -> X) r o_idx multiplier p1 p2 p0
  kwargs :
  (forall h w, f (set_heap h w) = f w) ->
  (forall g w, f (set_dev g w) = f w) ->
  (forall v w, f (set_free_param_values v w) = f w) ->
  (forall v w, f (set_kwarg_values v w) = f w) ->
  preserves f (pd_order2 P L r o_idx multiplier p1 p2 p0 kwargs).
Proof.
  intros Hh Hd Hf Hk.
  unfold pd_order2, tr_of, tr_obs, _op_successors.
  pres_with ltac:(first [ apply node_alloc; assumption
                        | apply frame_Operation_parameters
                        | apply node_evaluate_obs; assumption
                        | apply preserves_modify; intros ?; apply Hf ]).
Qed.

Lemma grows_pd_order2 r o_idx multiplier p1 p2 p0 kwargs :
  grows (pd_order2 P L r o_idx multiplier p1 p2 p0 kwargs).
Proof.
  assert (Htr : forall x inv, preserves heap (tr_of (B := B) P L x inv)).
  { intros x inv. unfold tr_of.
    pres_with ltac:(apply frame_Operation_parameters). }
  unfold pd_order2.
  repeat first
    [ apply grows_bind; [apply grows_keeps; solve
        [ pres_with ltac:(first [ apply Htr
                                | apply frame_op_successors
                                | apply node_evaluate_obs; reflexivity ]) ]
                        | intros ? ] ].
  apply grows_bind; [apply grows_map_m; intros; apply grows_tr_obs|].
  intros obs.
  apply grows_bind.
  { apply grows_keeps, node_evaluate_obs; reflexivity. }
  intros temp. apply grows_keeps, preserves_lift.
Qed.

Lemma evaluate_flat_keeps args kwargs (w w' : world B) n y :
  num_variables (qn w) = Some n -> length args <> n ->
  evaluate_flat P func self args kwargs w = (Ok y, w') ->
  heap w' = heap w /\ qn w' = qn w.
Proof.
  intros Hn Hl H. rewrite (evaluate_flat_skip _ _ _ _ _ _ n Hn Hl) in H.
  apply bind_inv_ok in H as (y0 & w1 & Hrun & H).
  apply lift_inv in H as [_ ->].
  pose proof (run_circuit_keeps P args kwargs (add_log (EvEvaluate args) w))
    as Hk.
  rewrite Hrun in Hk. simpl in Hk. inversion Hk. auto.
Qed.

Lemma marks_set_param r p x (w w' : world B) :
  set_param r p x w = (Ok tt, w') -> marks w' = marks w /\ qn w' = qn w.
Proof.
  intros H. apply set_param_inv in H as (op & Hop & ->).
  split; [|reflexivity]. unfold marks. simpl.
  rewrite list_fmap_insert. apply list_insert_id.
  rewrite list_lookup_fmap, Hop. reflexivity.
Qed.

(** One iteration of the loop of [_pd_analytic]: what it evaluates, and
    that it keeps the node and the marks of the objects there are. *)
Lemma pd_site_cost params_ k force kwargs n pd site (w w' : world B) pd' :
  num_variables (qn w) = Some n ->
  length params_ + 1 <> n ->
  pd_site P L func self params_ k force kwargs n pd site w = (Ok pd', w') ->
  qn w' = qn w
  /\ marks w `prefix_of` marks w'
  /\ exists pts,
       evaluations (log w') = evaluations (log w) ++ pts
       /\ site_cost force params_ k w site pts.
Proof.
  intros Hn Hlen. unfold pd_site. intros H.
  apply bind_inv_ok in H as (q & w0 & Hg & H). inversion Hg; subst q w0.
  apply bind_inv_ok in H as (r & w0 & Hr & H).
  apply from_option_inv in Hr as [Hr ->].
  apply bind_inv_ok in H as (op & w0 & Hop & H).
  apply deref_inv in Hop as [-> Hop].
  apply bind_inv_ok in H as (orig & w0 & Ho & H).
  apply from_option_inv in Ho as [Ho ->].
  apply bind_inv_ok in H as (v & w0 & Hv & H).
  destruct orig as [?|v'|?]; inversion Hv; subst v' w0. clear Hv.
  apply bind_inv_ok in H as ([] & w0 & Hidx & H).
  destruct (Nat.eqb (idx v) k); inversion Hidx; subst w0. clear Hidx.
  apply bind_inv_ok in H as ([] & wa & Hset & H).
  pose proof (preserves_inv log _ _ _ _ (log_set_param _ _ _) Hset) as Hla.
  apply marks_set_param in Hset as [Hma Hqa].
  apply bind_inv_ok in H as (recipe & w0 & Hrec & H).
  apply from_option_inv in Hrec as [Hrec ->].
  apply bind_inv_ok in H as ([] & w0 & Hz & H).
  destruct (Qeq_bool (mult v) 0); inversion Hz; subst w0. clear Hz.
  apply bind_inv_ok in H as (x & w0 & Hx & H).
  apply from_option_inv in Hx as [Hx ->].
  cbv zeta in H.
  apply bind_inv_ok in H as (pd1 & wb & Hbranch & H).
  apply bind_inv_ok in H as ([] & wc & Hset2 & H).
  pose proof (preserves_inv log _ _ _ _ (log_set_param _ _ _) Hset2) as Hlc.
  apply marks_set_param in Hset2 as [Hmc Hqc].
  inversion H; subst pd' w'. clear H.
  assert (Hna : num_variables (qn wa) = Some n) by now rewrite Hqa.
  assert (Hl1 : forall y : Q, length (params_ ++ [y]) <> n).
  { intros y. rewrite length_app. simpl. exact Hlen. }
  replace (negb force && negb (bool_decide (grad_method op = Some GA2)))
    with (negb (force || bool_decide (grad_method op = Some GA2))) in Hbranch
    by (now destruct force, (bool_decide _)).
  destruct (force || bool_decide (grad_method op = Some GA2)) eqn:Hb;
    cbn [negb] in Hbranch.
  - apply bind_inv_ok in Hbranch as (temp & w1 & H2 & Hbranch).
    apply lift_inv in Hbranch as [_ ->].
    assert (Hlb : log w1 = log wa).
    { eapply preserves_inv; [|exact H2].
      apply keep_pd_order2; reflexivity. }
    assert (Hqb : qn w1 = qn wa).
    { eapply preserves_inv; [|exact H2].
      apply keep_pd_order2; reflexivity. }
    assert (Hgb : heap wa `prefix_of` heap w1).
    { match type of H2 with
      | ?m wa = _ =>
          assert (Hg0 : grows m) by apply grows_pd_order2;
          specialize (Hg0 wa); now rewrite H2 in Hg0
      end. }
    split; [congruence|]. split.
    + rewrite Hmc, <- Hma. unfold marks. destruct Hgb as [added ->].
      exists (grad_method <$> added). apply fmap_app.
    + exists []. split; [rewrite Hlc, Hlb, Hla, app_nil_r; reflexivity|].
      exists r, op. rewrite Hb. auto.
  - apply bind_inv_ok in Hbranch as (y2 & w1 & H2 & Hbranch).
    apply bind_inv_ok in Hbranch as (y1 & w2 & H1 & Hbranch).
    apply bind_inv_ok in Hbranch as (d & w3 & Hd & Hbranch).
    apply lift_inv in Hd as [_ ->]. apply lift_inv in Hbranch as [_ ->].
    pose proof (evaluate_flat_inv _ _ _ _ _ _ _ _ H2) as He2.
    pose proof (evaluate_flat_inv _ _ _ _ _ _ _ _ H1) as He1.
    apply (evaluate_flat_keeps _ _ _ _ n) in H2 as [Hh2 Hq2];
      [|exact Hna|apply Hl1].
    apply (evaluate_flat_keeps _ _ _ _ n) in H1 as [Hh1 Hq1];
      [|congruence|apply Hl1].
    split; [congruence|]. split.
    + rewrite Hmc. unfold marks. rewrite Hh1, Hh2. fold (marks wa).
      now rewrite Hma.
    + eexists. split.
      * rewrite Hlc, He1, He2, Hla, <- app_assoc. reflexivity.
      * exists r, op. rewrite Hb. split; [exact Hr|]. split; [exact Hop|].
        eexists _, _. split; [exact Hx | reflexivity].
Qed.

Lemma site_cost_marks force params_ k (w w1 : world B) site pts :
  qn w1 = qn w ->
  marks w `prefix_of` marks w1 ->
  Forall (fun r => is_Some (heap w !! r)) (ops (qn w)) ->
  site_cost force params_ k w1 site pts -> site_cost force params_ k w site pts.
Proof.
  intros Hq Hm Hv (r & op1 & Hr & Hop1 & Hc). rewrite Hq in Hr.
  rewrite Forall_forall in Hv.
  destruct (Hv r (list_elem_of_lookup_2 _ _ _ Hr)) as [op Hop].
  exists r, op. split; [exact Hr|]. split; [exact Hop|].
  assert (He : grad_method op1 = grad_method op).
  { assert (H0 : marks w !! r = Some (grad_method op))
      by (unfold marks; now rewrite list_lookup_fmap, Hop).
    apply (prefix_lookup_Some _ _ _ _ H0) in Hm.
    unfold marks in Hm. rewrite list_lookup_fmap, Hop1 in Hm.
    now inversion Hm. }
  now rewrite <- He.
Qed.

Lemma pd_loop_cost params_ k force kwargs n sites (w : world B) :
  num_variables (qn w) = Some n ->
  length params_ + 1 <> n ->
  Forall (fun r => is_Some (heap w !! r)) (ops (qn w)) ->
  forall acc (w1 w' : world B) pd,
    qn w1 = qn w -> marks w `prefix_of` marks w1 ->
    fold_m (pd_site P L func self params_ k force kwargs n) sites acc w1
    = (Ok pd, w') ->
    exists groups,
      evaluations (log w') = evaluations (log w1) ++ concat groups
      /\ Forall2 (site_cost force params_ k w) sites groups.
Proof.
  intros Hn Hlen Hv.
  induction sites as [|site sites IH]; intros acc w1 w' pd Hq Hm H;
    simpl in H.
  - inversion H; subst. exists []. simpl. rewrite app_nil_r.
    split; [reflexivity | constructor].
  - apply bind_inv_ok in H as (acc' & w2 & Hsite & H).
    apply (pd_site_cost _ _ _ _ n) in Hsite
      as (Hq2 & Hm2 & pts & Hl & Hc); [|now rewrite Hq|exact Hlen].
    destruct (IH acc' w2 w' pd) as (groups & Hl' & HF);
      [congruence | etransitivity; eassumption | exact H |].
    exists (pts :: groups). split.
    + simpl. rewrite Hl', Hl, <- app_assoc. reflexivity.
    + constructor; [|exact HF].
      eapply site_cost_marks; eassumption.
Qed.

(** X16. What the analytic method costs.  On a node whose circuit was
    constructed for [n] parameters, called with a number of parameters
    other than [n - 1], when [_pd_analytic] returns it has called
    [evaluate] for the use sites of the parameter in their order: twice for
    a site whose operation does not carry the mark ['A2'], on the
    parameters extended by one value, the value of the parameter shifted up
    and then down; not at all for a site whose operation carries the mark
    ['A2'], which the order-2 method treats; and with [force_order2] not at
    all. *)
Theorem analytic_evaluations params_ k force kwargs n sites
  (w w' : world B) pd :
  num_variables (qn w) = Some n ->
  length params_ + 1 <> n ->
  Forall (fun r => is_Some (heap w !! r)) (ops (qn w)) ->
  dict_get (variable_ops (qn w)) k = Some sites ->
  _pd_analytic P L func self params_ k force kwargs w = (Ok pd, w') ->
  exists groups,
    evaluations (log w') = evaluations (log w) ++ concat groups
    /\ Forall2 (site_cost force params_ k w) sites groups
    /\ length (concat groups) <= 2 * length sites
    /\ (force = true -> concat groups = []).
Proof.
  intros Hn Hlen Hv Hs H. unfold _pd_analytic in H.
  apply bind_inv_ok in H as (q & w0 & Hg & H). inversion Hg; subst q w0.
  apply bind_inv_ok in H as (n' & w0 & Hn' & H).
  apply from_option_inv in Hn' as [Hn' ->].
  rewrite Hn in Hn'. inversion Hn'; subst n'.
  apply bind_inv_ok in H as (sites' & w0 & Hs' & H).
  apply from_option_inv in Hs' as [Hs' ->].
  rewrite Hs in Hs'. inversion Hs'; subst sites'.
  destruct (pd_loop_cost params_ k force kwargs n sites w Hn Hlen Hv
              [0%Q] w w' pd eq_refl ltac:(reflexivity) H)
    as (groups & Hl & HF).
  exists groups. split; [exact Hl|]. split; [exact HF|].
  clear Hl H Hs Hs'. split.
  - induction HF as [|site pts sites groups (r & op & _ & _ & Hc) _ IH];
      [simpl; lia|].
    cbn [concat length]. rewrite length_app.
    assert (length pts <= 2).
    { destruct (force || _); [subst; simpl; lia|].
      destruct Hc as (x & s & _ & ->). simpl. lia. }
    lia.
  - intros ->. induction HF as [|site pts sites groups (r & op & _ & _ & Hc) _ IH];
      [reflexivity|].
    simpl in Hc. subst pts. simpl. exact IH.
Qed.
End Analytic_cost.

Lemma analytic_evaluations_witness :
  let w := Examples.fanout_traced in
  let r := _pd_analytic Examples.sum_device Examples.qubit_ops
             Examples.fanout_circuit 0 [1%Q; 2%Q] 0 false [] w in
  exists groups,
    evaluations (log (snd r)) = evaluations (log w) ++ concat groups
    /\ Forall2 (site_cost false [1%Q; 2%Q] 0 w) [(0, 0); (2, 0)] groups
    /\ length (concat groups) <= 2 * 2
    /\ (false = true -> concat groups = []).
Proof.
  intros w r.
  destruct r as [[pd|e] w'] eqn:E; [|vm_compute in E; discriminate].
  apply (analytic_evaluations Examples.sum_device Examples.qubit_ops
           Examples.fanout_circuit 0 [1%Q; 2%Q] 0 false [] 2 [(0, 0); (2, 0)]
           w w' pd).
  - reflexivity.
  - discriminate.
  - repeat constructor; eexists; reflexivity.
  - reflexivity.
  - exact E.
Defined.

Section Variance_frame.
Context {B : Type}.
Variable P : plugin B.
Variable L : oplib.
Variable func : qfunc.
Variable self : nat.

Lemma map_m_length {A C} (f : A -> M B C) l : forall (w w' : world B) ys,
  map_m f l w = (Ok ys, w') -> length ys = length l.
Proof.
  induction l as [|a l IH]; intros w w' ys H; simpl in H.
  - now inversion H.
  - apply bind_inv_ok in H as (c & w1 & _ & H).
    apply bind_inv_ok in H as (cs & w2 & Hcs & H). inversion H; subst.
    simpl. f_equal. eapply IH. exact Hcs.
Qed.

Lemma np_where_from_length mask a b n : forall i r,
  np_where_from mask a b n i = Ok r -> length r = length mask.
Proof.
  induction mask as [|m mask IH]; intros i r H; simpl in H.
  - now inversion H.
  - destruct (np_pick _ n i); [|discriminate].
    destruct (np_where_from mask a b n (S i)) eqn:Hr; [|discriminate].
    inversion H; subst. simpl. f_equal. eapply IH. exact Hr.
Qed.

Lemma cache_var_step params_ k kwargs pdA2 i :
  preserves (fun w : world B => cache (qn w))
    (var_step P L func self params_ k kwargs pdA2 i).
Proof.
  unfold var_step, set_ev_at, deepcopy.
  pres_with ltac:(first [ apply node_alloc; reflexivity
                        | apply node_store; reflexivity
                        | apply frame_Operation_parameters
                        | apply node_pd_analytic; intros; reflexivity ]).
Qed.

(** X17. When [_pd_analytic_var] returns, the column has one entry for
    each returned observable, the node holds as many returned observables
    as before, and the cache setting, switched on for the evaluations, is
    what it was. *)
Theorem variance_column_restores params_ k kwargs (w w' : world B) col :
  _pd_analytic_var P L func self params_ k kwargs w = (Ok col, w') ->
  length col = length (ev (qn w))
  /\ length (ev (qn w')) = length (ev (qn w))
  /\ cache (qn w') = cache (qn w).
Proof.
  unfold _pd_analytic_var. intros H.
  apply bind_inv_ok in H as (q & w0 & Hg & H). inversion Hg; subst q w0.
  apply bind_inv_ok in H as (old_ev & w1 & Hold & H).
  pose proof (map_m_length _ _ _ _ _ Hold) as Hlen_old.
  apply (preserves_inv (fun w : world B => cache (qn w))) in Hold;
    [|unfold deepcopy;
      pres_with ltac:(first [ apply node_alloc; reflexivity ])].
  apply bind_inv_ok in H as (where_var & w2 & Hwv & H).
  pose proof (map_m_length _ _ _ _ _ Hwv) as Hlen_wv.
  apply (preserves_inv (fun w : world B => cache (qn w))) in Hwv;
    [|unfold is_variance; pres_with idtac].
  apply bind_inv_ok in H as (pdA2 & w3 & Hloop & H).
  apply (preserves_inv (fun w : world B => cache (qn w))) in Hloop;
    [|pres_with ltac:(first [ apply cache_var_step ])].
  apply bind_inv_ok in H as (q3 & w4 & Hg3 & H). inversion Hg3; subst q3 w4.
  apply bind_inv_ok in H as ([] & w4 & Hc & H). inversion Hc; subst w4.
  apply bind_inv_ok in H as (evA & w5 & _ & H).
  apply bind_inv_ok in H as (pdA & w6 & _ & H).
  apply bind_inv_ok in H as ([] & w7 & H7 & H). inversion H7; subst w7.
  apply bind_inv_ok in H as ([] & w8 & H8 & H). inversion H8; subst w8.
  apply bind_inv_ok in H as (pd2 & w9 & Hp & H).
  apply from_option_inv in Hp as [_ ->].
  apply bind_inv_ok in H as (t & w9 & Ht & H). apply lift_inv in Ht as [_ ->].
  apply bind_inv_ok in H as (t' & w9 & Ht & H). apply lift_inv in Ht as [_ ->].
  apply lift_inv in H as [Hw ->].
  apply np_where_from_length in Hw.
  cbn [qn set_qn ev cache with_ev with_cache].
  repeat split; congruence.
Qed.
End Variance_frame.

Lemma variance_column_restores_witness :
  let w := Examples.two_var_traced in
  let r := _pd_analytic_var Examples.sum_device Examples.qubit_ops
             Examples.two_var_circuit 0 [1%Q] 0 [] w in
  match fst r with
  | Ok col => length col = 2 /\ length (ev (qn (snd r))) = 2
              /\ cache (qn (snd r)) = true
  | Raise _ => False
  end.
Proof.
  intros w r.
  destruct r as [[col|e] w'] eqn:E; [|vm_compute in E; discriminate].
  apply (variance_column_restores Examples.sum_device Examples.qubit_ops
           Examples.two_var_circuit 0 [1%Q] 0 [] w w' col E).
Defined.

Section Best_method_effects.
Context {B : Type}.

(** X18. The choice of the gradient method of a parameter has one side
    effect only, the gradient mark of operations: whether [_best_method]
    returns or raises, the node, the device, the bindings, the context and
    the log are as before, the store holds as many objects, and every
    object keeps all its fields but the gradient mark. *)
Theorem best_method_only_marks (k : nat) (w : world B) :
  let w' := snd (_best_method k w) in
  unmarked <$> heap w' = unmarked <$> heap w
  /\ length (heap w') = length (heap w)
  /\ qn w' = qn w /\ dev w' = dev w
  /\ free_param_values w' = free_param_values w
  /\ kwarg_values w' = kwarg_values w
  /\ _current_context w' = _current_context w
  /\ log w' = log w.
Proof.
  intros w'.
  pose proof (unmarked_best_method k w) as Hm. cbv beta in Hm. fold w' in Hm.
  pose proof (node_best_method
                (fun w : world B =>
                   (qn w, dev w, free_param_values w, kwarg_values w,
                    _current_context w, log w))
                ltac:(reflexivity) k w) as Hf.
  cbv beta in Hf. fold w' in Hf. injection Hf as H1 H2 H3 H4 H5 H6.
  split; [exact Hm|]. split.
  - rewrite <- (length_fmap unmarked (heap w')), Hm. apply length_fmap.
  - repeat split; assumption.
Qed.
End Best_method_effects.

Section Evaluate_post.
Context {B : Type}.
Variable P : plugin B.
Variable func : qfunc.
Variable self : nat.

Lemma circuit_checks_inv (w w' : world B) :
  circuit_checks P w = (Ok tt, w') -> w' = w /\ wires_ok P (heap w) (qn w).
Proof.
  intros H.
  assert (Hv : Forall (fun r => is_Some (heap w !! r))
                 (ev (qn w) ++ ops (qn w))).
  { unfold circuit_checks in H.
    apply bind_inv_ok in H as (q & w0 & Hg & H). inversion Hg; subst q w0.
    apply bind_inv_ok in H as (evs & w0 & He & H).
    apply map_m_deref_inv in He as (-> & _ & Hev).
    apply bind_inv_ok in H as ([] & w0 & Hn & H).
    destruct (bool_decide _); inversion Hn; subst w0.
    apply bind_inv_ok in H as (os & w0 & Ho & H).
    apply map_m_deref_inv in Ho as (-> & _ & Hops).
    apply Forall_app. auto. }
  rewrite (circuit_checks_value P w Hv) in H.
  pose proof (wires_ok_bool P w) as Hwb.
  destruct (_ && _); inversion H; subst w'.
  split; [reflexivity|]. apply Hwb. reflexivity.
Qed.

Lemma convert_inv c x res :
  convert c x = Ok res ->
  res = x /\ (c = Float -> exists y, res = [MNum y]).
Proof.
  destruct c; simpl.
  - intros [= <-]. split; [reflexivity | discriminate].
  - destruct x as [|[y|a] [|z x]]; try discriminate.
    intros [= <-]. split; [reflexivity | eauto].
  - intros [= <-]. split; [reflexivity | discriminate].
Qed.

(** X19. What an [evaluate] that returns has done, on a node with a
    cached circuit: the circuit was not traced again and neither the node
    nor the store has changed; the wires passed the checks and the device
    supports every operation; the values returned line up with the returned
    observables, a number for an expectation or a variance and an array for
    a sample, and are one number when the output conversion is [float]; the
    call left the flattened arguments and the keyword values bound, the
    queues of the device closed, and one entry in the log. *)
Theorem evaluate_postconditions args kwargs (w w' : world B) res :
  cached w ->
  evaluate P func self args kwargs w = (Ok res, w') ->
  heap w' = heap w /\ qn w' = qn w
  /\ wires_ok P (heap w) (qn w)
  /\ supported P (heap w) (queue (qn w)) (ev (qn w))
  /\ Forall2 result_of
       (List.filter has_return (objects (heap w) (ev (qn w)))) res
  /\ (output_conversion (qn w) = Some Float -> exists y, res = [MNum y])
  /\ free_param_values w' = flatten_args args
  /\ kwarg_values w' = kw_binding (qn w) kwargs
  /\ (op_queue (dev w') = Raise ValueError
      /\ obs_queue (dev w') = Raise ValueError
      /\ parameters (dev w') = Raise ValueError)
  /\ log w' = log w ++ [EvEvaluate (flatten_args args)].
Proof.
  intros [Hc Ho] H. unfold evaluate in H.
  apply bind_inv_ok in H as ([] & w0 & Hlog & H).
  inversion Hlog; subst w0. clear Hlog.
  apply bind_inv_ok in H as ([] & w1 & Hm & H).
  assert (Hskip : w1 = add_log (EvEvaluate (flatten_args args)) w).
  { unfold maybe_construct in Hm. unfold bind at 1 in Hm. cbn [gets] in Hm.
    cbn [qn add_log] in Hm.
    rewrite Hc, bool_decide_eq_false_2 in Hm by exact Ho.
    inversion Hm. reflexivity. }
  subst w1. clear Hm.
  unfold run_circuit in H.
  apply bind_inv_ok in H as ([] & w1 & Hb & H).
  assert (Hw1 : w1 = set_kwarg_values (kw_binding (qn w) kwargs)
                       (set_free_param_values (flatten_args args)
                          (add_log (EvEvaluate (flatten_args args)) w))).
  { inversion Hb. reflexivity. }
  clear Hb.
  apply bind_inv_ok in H as ([] & w2 & Hr & H).
  assert (Hw2 : w2 = set_dev (with_backend (reset P (dev w1))) w1).
  { inversion Hr. reflexivity. }
  clear Hr.
  apply bind_inv_ok in H as ([] & w3 & Hcc & H).
  apply circuit_checks_inv in Hcc as [-> Hwires].
  apply bind_inv_ok in H as (q & w3 & Hg & H). inversion Hg; subst q w3.
  clear Hg.
  apply bind_inv_ok in H as (x & w3 & Hex & H).
  pose proof (proj2 (proj2 (proj2 (queues_lifecycle P))) _ _ _ _ _ _ Hex)
    as Hqueues.
  pose proof (preserves_inv log _ _ _ _
                (node_execute P log ltac:(reflexivity) _ _ _) Hex) as Hlog.
  apply execute_inv in Hex as (HF & Hsup & Hh & Hq & Hfp & Hkw).
  apply bind_inv_ok in H as (c & w4 & Hoc & H).
  apply from_option_inv in Hoc as [Hoc ->].
  apply lift_inv in H as [Hconv ->].
  apply convert_inv in Hconv as [-> Hfloat].
  subst w2 w1. cbn [heap qn set_dev set_kwarg_values set_free_param_values
                      add_log free_param_values kwarg_values log] in *.
  split; [exact Hh|]. split; [exact Hq|]. split; [exact Hwires|].
  split; [exact Hsup|]. split; [exact HF|].
  split; [intros Hfl; apply Hfloat; congruence|].
  split; [exact Hfp|]. split; [exact Hkw|]. split; [exact Hqueues|].
  exact Hlog.
Qed.
End Evaluate_post.

Lemma evaluate_postconditions_witness :
  let w := Examples.rx_traced in
  let r := evaluate Examples.sum_device Examples.rx_circuit 0 [Leaf 1%Q] []
             w in
  match fst r with
  | Ok res =>
      heap (snd r) = heap w /\ qn (snd r) = qn w
      /\ (exists y, res = [MNum y])
      /\ free_param_values (snd r) = [1%Q]
      /\ op_queue (dev (snd r)) = Raise ValueError
  | Raise _ => False
  end.
Proof.
  intros w r.
  destruct r as [[res|e] w'] eqn:E; [|vm_compute in E; discriminate].
  destruct (evaluate_postconditions Examples.sum_device Examples.rx_circuit 0
              [Leaf 1%Q] [] w w' res
              ltac:(split; [reflexivity | discriminate]) E)
    as (Hh & Hq & _ & _ & _ & Hf & Hfp & _ & [Ho _] & _).
  cbn [fst snd]. repeat split; try assumption.
  apply Hf. reflexivity.
Defined.

Section Binding.
Context {B : Type}.

Lemma dict_get_update {K V} `{EqDecision K} (e : list (K * V)) :
  forall d k,
    NoDup (dict_keys e) ->
    dict_get (dict_update d e) k
    = match dict_get e k with
      | Some v => Some v
      | None => dict_get d k
      end.
Proof.
  unfold dict_update.
  induction e as [|[k0 v0] e IH]; intros d k Hnd; [reflexivity|].
  cbn [fold_left fst snd dict_get]. apply NoDup_cons in Hnd as [Hk Hnd].
  cbn [fst] in Hk.
  rewrite IH by exact Hnd. rewrite dict_get_set.
  destruct (decide (k0 = k)) as [->|Hne]; [|reflexivity].
  apply dict_get_None in Hk. now rewrite Hk.
Qed.

Lemma dict_get_map {K V W} `{EqDecision K} (f : V -> W) (d : list (K * V)) k :
  dict_get (List.map (fun kv => (fst kv, f (snd kv))) d) k
  = f <$> dict_get d k.
Proof.
  induction d as [|[k0 v0] d IH]; [reflexivity|]. simpl.
  destruct (decide (k0 = k)); [reflexivity | exact IH].
Qed.

Lemma dict_keys_map {K V W} (f : V -> W) (d : list (K * V)) :
  dict_keys (List.map (fun kv => (fst kv, f (snd kv))) d) = dict_keys d.
Proof.
  unfold dict_keys. induction d as [|[k0 v0] d IH]; [reflexivity|].
  simpl. now f_equal.
Qed.

(** X20. The binding that [evaluate] and [evaluate_obs] install: the free
    parameter values are the arguments; under a key, the keyword values
    are the flattened argument of the call when the call gives one and
    otherwise the flattened default of the quantum function, so that a
    keyword argument of the call overrides the default; nothing else
    changes, and the binding never raises. *)
Theorem binding_overrides_defaults args (kwargs : list (string * nested Q))
  (w : world B) :
  NoDup (dict_keys kwargs) ->
  NoDup (dict_keys (keyword_defaults (qn w))) ->
  exists w',
    set_binding args kwargs w = (Ok tt, w')
    /\ free_param_values w' = args
    /\ (forall k,
          dict_get (kwarg_values w') k
          = match dict_get kwargs k with
            | Some v => Some (_flatten v)
            | None => _flatten <$> dict_get (keyword_defaults (qn w)) k
            end)
    /\ heap w' = heap w /\ qn w' = qn w /\ dev w' = dev w /\ log w' = log w.
Proof.
  intros Hk Hd. eexists. split; [reflexivity|].
  cbn [free_param_values kwarg_values heap qn dev log
         set_kwarg_values set_free_param_values].
  split; [reflexivity|]. split; [|repeat split].
  intros k.
  rewrite dict_get_update by (rewrite dict_keys_map; exact Hk).
  rewrite dict_get_map.
  destruct (dict_get kwargs k); [reflexivity|]. simpl.
  rewrite dict_get_update by (rewrite dict_keys_map; exact Hd).
  rewrite dict_get_map. simpl.
  destruct (dict_get (keyword_defaults (qn w)) k); reflexivity.
Qed.
End Binding.

Lemma binding_overrides_defaults_witness :
  let w := set_qn (with_keyword_defaults
                     [("a", Leaf 1%Q); ("b", Seq [Leaf 2%Q; Leaf 3%Q])])
             (Examples.start false) in
  exists w',
    set_binding [5%Q] [("b", Leaf 7%Q)] w = (Ok tt, w')
    /\ dict_get (kwarg_values w') "a" = Some [1%Q]
    /\ dict_get (kwarg_values w') "b" = Some [7%Q]
    /\ dict_get (kwarg_values w') "c" = None.
Proof.
  intros w.
  destruct (binding_overrides_defaults [5%Q] [("b", Leaf 7%Q)] w)
    as (w' & Hb & _ & Hkw & _).
  - apply (bool_decide_unpack _). vm_compute. reflexivity.
  - apply (bool_decide_unpack _). vm_compute. reflexivity.
  - exists w'. split; [exact Hb|]. rewrite !Hkw. repeat split.
Defined.

Section Unused_parameters.
Context {B : Type}.
Variable P : plugin B.
Variable L : oplib.
Variable func : qfunc.
Variable self : nat.

Lemma dict_set_values_const {K V} `{EqDecision K} (v : V) (ks : list K) :
  forall d : list (K * V),
    Forall (fun x => x = v) (dict_values d) ->
    Forall (fun x => x = v)
      (dict_values (fold_left (fun d k => dict_set d k v) ks d)).
Proof.
  assert (Hone : forall (k : K) (d : list (K * V)),
             Forall (fun x => x = v) (dict_values d) ->
             Forall (fun x => x = v) (dict_values (dict_set d k v))).
  { intros k d. induction d as [|[k' v'] d IHd]; intros Hd.
    - repeat constructor.
    - cbn [dict_values List.map snd] in Hd. apply Forall_cons in Hd as [-> Hd].
      cbn [dict_set]. destruct (decide (k' = k)).
      + constructor; [reflexivity | exact Hd].
      + constructor; [reflexivity | exact (IHd Hd)]. }
  induction ks as [|k ks IH]; intros d Hd; [exact Hd|].
  cbn [fold_left]. apply IH, Hone, Hd.
Qed.

Lemma check_method_absent g which m :
  Forall (fun k => k ∉ dict_keys g) which -> check_method g which m = false.
Proof.
  intros Hab. apply not_true_is_false. intros Hc.
  apply check_method_true in Hc as (k & Hk & Hin).
  rewrite Forall_forall in Hab. apply (Hab k Hk).
  unfold dict_keys. apply (list_elem_of_fmap_2 fst) in Hin. exact Hin.
Qed.

Lemma unused_columns flat method h order y0 variances dim kwargs wh :
  forall w : world B,
    Forall (fun k => dict_get (variable_ops (qn w)) k = None) wh ->
    map_m (jacobian_column P L func self flat method h order y0 variances dim
             kwargs) wh w
    = (Ok (List.map (fun _ => repeat (Finite 0) dim) wh), w).
Proof.
  induction wh as [|k wh IH]; intros w Hu; [reflexivity|].
  inversion Hu as [|? ? Hk Hu']; subst.
  cbn [map_m]. unfold bind at 1. unfold jacobian_column at 1.
  unfold bind at 1. cbn [gets]. rewrite Hk. cbn [ret].
  rewrite (bind_ok _ _ _ _ _ (IH w Hu')). reflexivity.
Qed.

(** X21. Parameters that no operation uses: on a node with a cached
    circuit without samples, [jacobian] with the analytic method, asked for
    parameters none of which occurs in the circuit, returns a column of
    zeros for each of them, of the output dimension of the node, without
    evaluating the circuit or changing anything. *)
Theorem jacobian_unused_parameters params_ wh h order kwargs (w : world B) n :
  cached w ->
  Forall (fun r => is_Some (heap w !! r)) (ev (qn w)) ->
  Forall (fun o => return_type o <> Some Sample)
    (objects (heap w) (ev (qn w))) ->
  num_variables (qn w) = Some n ->
  dict_keys (grad_method_for_par (qn w)) = dict_keys (variable_ops (qn w)) ->
  wh <> [] -> NoDup wh -> Forall (fun k => k < n) wh ->
  Forall (fun k => dict_get (variable_ops (qn w)) k = None) wh ->
  jacobian P L func self params_ (Some wh) MethodA h order kwargs w
  = (Ok (List.map (fun _ => repeat (Finite 0) (output_dim (qn w))) wh), w).
Proof.
  intros Hc Hv Hns Hn Hkeys Hne Hnd Hlt Hun.
  assert (Hab : Forall (fun k => k ∉ dict_keys (grad_method_for_par (qn w)))
                  wh).
  { rewrite Hkeys. eapply Forall_impl; [exact Hun|].
    intros k Hk. now apply dict_get_None. }
  pose proof (jacobian_setup_value func self (values params_) (Some wh)
                MethodA kwargs w n Hc Hv Hns Hn) as Hset.
  cbv zeta in Hset. cbn [requested] in Hset.
  rewrite !(check_method_absent _ _ _ Hab) in Hset.
  assert (Hex : existsb (fun k => Nat.leb n k) wh = false).
  { apply not_true_is_false. intros He.
    apply existsb_leb in He as (k & Hk & Hle).
    rewrite Forall_forall in Hlt. specialize (Hlt k Hk). lia. }
  rewrite Hex, (bool_decide_eq_true_2 _ Hnd) in Hset.
  destruct wh as [|k0 wh0]; [congruence|].
  cbn [orb negb] in Hset.
  set (wh := k0 :: wh0) in *.
  unfold jacobian. rewrite (bind_ok _ _ _ _ _ Hset). cbn [fst snd].
  assert (Hy0 : jacobian_y0 P func self (values params_)
                  (fold_left (fun d k => dict_set d k (Some GA)) wh [])
                  order kwargs w = (Ok None, w)).
  { unfold jacobian_y0. rewrite bool_decide_eq_false_2; [reflexivity|].
    intros Hin.
    pose proof (dict_set_values_const (Some GA) wh []
                  ltac:(constructor)) as Hall.
    rewrite Forall_forall in Hall. specialize (Hall _ Hin). discriminate. }
  rewrite (bind_ok _ _ _ _ _ Hy0).
  unfold jacobian_columns. unfold bind at 1. cbn [gets].
  rewrite (bind_ok _ _ _ _ _ (map_m_deref _ w Hv)). cbv zeta.
  apply unused_columns. exact Hun.
Qed.
End Unused_parameters.

Lemma jacobian_unused_parameters_witness :
  jacobian Examples.sum_device Examples.qubit_ops Examples.rx_circuit 0
    [Leaf (NFloat 1); Leaf (NFloat 2)] (Some [1]) MethodA (1 # 10) 1 []
    rx_two_args
  = (Ok [[Finite 0]], rx_two_args).
Proof.
  apply (jacobian_unused_parameters Examples.sum_device Examples.qubit_ops
           Examples.rx_circuit 0 [Leaf (NFloat 1); Leaf (NFloat 2)] [1]
           (1 # 10) 1 [] rx_two_args 2).
  - split; [reflexivity | discriminate].
  - repeat constructor. eexists. reflexivity.
  - repeat constructor. discriminate.
  - reflexivity.
  - reflexivity.
  - discriminate.
  - apply (bool_decide_unpack _). vm_compute. reflexivity.
  - repeat constructor.
  - repeat constructor.
Defined.

Section Jacobian_traces.
Context {B : Type}.
Variable func : qfunc.
Variable self : nat.

(** X22. When [jacobian] traces the circuit: it constructs the circuit
    once before anything else exactly when the node has no operations or
    does not cache, with the parameters it was given and without the test
    on their number that [evaluate] makes; on a node with a cached circuit
    its validation constructs nothing. *)
Theorem jacobian_setup_traces params_ which method kwargs (w : world B) :
  constructs (log (snd (jacobian_setup func self params_ which method kwargs
                          w)))
  = constructs (log w)
    + (if bool_decide (ops (qn w) = []) || negb (cache (qn w)) then 1 else 0).
Proof.
  unfold jacobian_setup. unfold bind at 1. cbn [gets].
  set (rest := fun _ : unit => _).
  assert (Hrest : forall u, preserves (fun w : world B => constructs (log w))
                              (rest u)).
  { intros u. unfold rest, check_method.
    pres_with idtac. }
  destruct (bool_decide (ops (qn w) = []) || negb (cache (qn w))).
  - unfold bind.
    pose proof (count_construct func self params_ kwargs w) as Hc.
    destruct (construct func self params_ kwargs w) as [[[]|e] w1];
      simpl in Hc |- *.
    + rewrite Hrest. lia.
    + lia.
  - unfold bind. cbn [ret]. rewrite Hrest. lia.
Qed.
End Jacobian_traces.

Section Best_is_analytic.
Context {B : Type}.
Variable P : plugin B.
Variable L : oplib.
Variable func : qfunc.
Variable self : nat.

Lemma dict_get_fold_set {K V} `{EqDecision K} (v : V) (ks : list K) :
  forall (d : list (K * V)) k,
    k ∈ ks -> dict_get (fold_left (fun d k => dict_set d k v) ks d) k = Some v.
Proof.
  assert (Hkeep : forall (ks : list K) (d : list (K * V)) k,
             dict_get d k = Some v ->
             dict_get (fold_left (fun d k => dict_set d k v) ks d) k = Some v).
  { induction ks0 as [|k0 ks0 IH]; intros d k Hd; [exact Hd|].
    cbn [fold_left]. apply IH. rewrite dict_get_set.
    destruct (decide (k0 = k)); [reflexivity | exact Hd]. }
  induction ks as [|k0 ks IH]; intros d k Hin; [inversion Hin|].
  cbn [fold_left]. apply elem_of_cons in Hin as [->|Hin].
  - apply Hkeep. rewrite dict_get_set. now rewrite decide_True.
  - now apply IH.
Qed.

Lemma jacobian_column_ext flat m1 m2 h order y0 variances dim kwargs k :
  dict_get m1 k = dict_get m2 k ->
  jacobian_column P L func self flat m1 h order y0 variances dim kwargs k
  = jacobian_column P L func self flat m2 h order y0 variances dim kwargs k.
Proof. intros He. unfold jacobian_column. now rewrite He. Qed.

Lemma jacobian_columns_ext flat m1 m2 h order y0 kwargs which (w : world B) :
  (forall k, k ∈ which -> dict_get m1 k = dict_get m2 k) ->
  jacobian_columns P L func self flat m1 h order y0 kwargs which w
  = jacobian_columns P L func self flat m2 h order y0 kwargs which w.
Proof.
  intros He. unfold jacobian_columns.
  assert (Hmap : forall variances dim,
             map_m (jacobian_column P L func self flat m1 h order y0
                      variances dim kwargs) which
             = map_m (jacobian_column P L func self flat m2 h order y0
                        variances dim kwargs) which).
  { intros variances dim. induction which as [|k l IH]; [reflexivity|].
    cbn [map_m]. rewrite (jacobian_column_ext _ m1 m2) by (apply He; left).
    rewrite IH; [reflexivity|]. intros k' Hk'. apply He. now right. }
  unfold bind at 1 3. cbn [gets]. unfold bind.
  destruct (map_m deref (ev (qn w)) w) as [[evs|e] w1]; [|reflexivity].
  now rewrite Hmap.
Qed.

(** X23. The best method is the analytic method where everything is
    analytic: on a node with a cached circuit without samples, when the
    recorded method of every requested parameter is ['A'] and no parameter
    of the node has the method ['F'], [jacobian] with the method ['B'] and
    with the method ['A'] return the same Jacobian and leave the same
    state. *)
Theorem best_method_is_analytic params_ which h order kwargs (w : world B) n :
  cached w ->
  Forall (fun r => is_Some (heap w !! r)) (ev (qn w)) ->
  Forall (fun o => return_type o <> Some Sample)
    (objects (heap w) (ev (qn w))) ->
  num_variables (qn w) = Some n ->
  (forall k, k ∈ requested params_ which ->
             dict_get (grad_method_for_par (qn w)) k = Some (Some GA)) ->
  Some GF ∉ dict_values (grad_method_for_par (qn w)) ->
  jacobian P L func self params_ which MethodB h order kwargs w
  = jacobian P L func self params_ which MethodA h order kwargs w.
Proof.
  intros Hc Hv Hns Hn Hall Hnof.
  pose proof (jacobian_setup_value func self (values params_) which MethodA
                kwargs w n Hc Hv Hns Hn) as HA.
  pose proof (jacobian_setup_value func self (values params_) which MethodB
                kwargs w n Hc Hv Hns Hn) as HB.
  cbv zeta in HA, HB. rewrite requested_values in HA, HB.
  set (g := grad_method_for_par (qn w)) in *.
  set (req := requested params_ which) in *.
  assert (HF : check_method g req (Some GF) = false).
  { apply not_true_is_false. intros Hcm.
    apply check_method_true in Hcm as (k & Hk & Hin).
    apply Hnof. unfold dict_values.
    apply (list_elem_of_fmap_2 snd) in Hin. exact Hin. }
  rewrite HF in HA. rewrite !orb_false_r in HA, HB.
  unfold jacobian.
  destruct (_ || _).
  - rewrite (bind_raise _ _ _ _ _ HA), (bind_raise _ _ _ _ _ HB). reflexivity.
  - rewrite (bind_ok _ _ _ _ _ HA), (bind_ok _ _ _ _ _ HB). cbn [fst snd].
    assert (Hy0 : forall m, Some GF ∉ dict_values m ->
                  jacobian_y0 P func self (values params_) m order kwargs
                  = ret None).
    { intros m Hm. unfold jacobian_y0.
      now rewrite bool_decide_eq_false_2 by exact Hm. }
    rewrite (Hy0 g Hnof).
    rewrite (Hy0 (fold_left (fun d k => dict_set d k (Some GA)) req [])).
    2:{ intros Hin.
        pose proof (dict_set_values_const (Some GA) req []
                      ltac:(constructor)) as Hc'.
        rewrite Forall_forall in Hc'. specialize (Hc' _ Hin). discriminate. }
    assert (Hbr : forall A C (a : A) (k : A -> M B C) w0,
               bind (ret a) k w0 = k a w0) by reflexivity.
    rewrite !Hbr.
    rewrite (jacobian_columns_ext _ g
               (fold_left (fun d k => dict_set d k (Some GA)) req []));
      [reflexivity|].
    intros k Hk. rewrite (Hall k Hk). symmetry.
    now apply dict_get_fold_set.
Qed.
End Best_is_analytic.

Lemma best_method_is_analytic_witness :
  let w := Examples.fanout_traced in
  jacobian Examples.sum_device Examples.qubit_ops Examples.fanout_circuit 0
    [Leaf (NFloat 1); Leaf (NFloat 2)] None MethodB (1 # 10) 1 [] w
  = jacobian Examples.sum_device Examples.qubit_ops Examples.fanout_circuit 0
      [Leaf (NFloat 1); Leaf (NFloat 2)] None MethodA (1 # 10) 1 [] w.
Proof.
  intros w.
  apply (best_method_is_analytic Examples.sum_device Examples.qubit_ops
           Examples.fanout_circuit 0 [Leaf (NFloat 1); Leaf (NFloat 2)] None
           (1 # 10) 1 []
           w 2).
  - split; [reflexivity | discriminate].
  - repeat constructor. eexists. reflexivity.
  - repeat constructor. discriminate.
  - reflexivity.
  - intros k Hk. cbn in Hk.
    apply elem_of_cons in Hk as [->|Hk]; [reflexivity|].
    apply list_elem_of_singleton in Hk. subst k. reflexivity.
  - apply (bool_decide_unpack _). vm_compute. reflexivity.
Defined.

Section Unflatten_facts.
Context {A C : Type}.

Lemma flatten_map_length {D : Type} (f : A -> D) (x : nested A) :
  length (_flatten (nested_map f x)) = length (_flatten x).
Proof.
  induction x as [a|l IH] using nested_ind'; [reflexivity|].
  cbn [nested_map _flatten].
  induction IH as [|y l Hy _ IHl]; [reflexivity|].
  cbn [List.map concat]. rewrite !length_app, Hy, IHl. reflexivity.
Qed.

Lemma unflatten_seq_sound (l : list (nested C)) :
  Forall (fun m => forall (flat : list A) n rest,
              unflatten_one m flat = Some (n, rest) ->
              flat = _flatten n ++ rest /\ shape n = shape m) l ->
  forall (flat : list A) ns rest,
    unflatten_seq l flat = Some (ns, rest) ->
    flat = concat (List.map _flatten ns) ++ rest
    /\ List.map shape ns = List.map shape l.
Proof.
  induction 1 as [|m l Hm _ IH]; intros flat ns rest H.
  - inversion H; subst. auto.
  - cbn [unflatten_seq] in H.
    destruct (unflatten_one m flat) as [[n r1]|] eqn:H1; [|discriminate].
    fold (@unflatten_seq A C) in H.
    destruct (unflatten_seq l r1) as [[ns' r2]|] eqn:H2; [|discriminate].
    inversion H; subst ns rest. clear H.
    apply Hm in H1 as [-> Hs]. apply IH in H2 as [-> Hss].
    split; [|cbn [List.map]; now rewrite Hs, Hss].
    cbn [List.map concat]. now rewrite <- app_assoc.
Qed.

Lemma unflatten_one_sound (m : nested C) :
  forall (flat : list A) n rest,
    unflatten_one m flat = Some (n, rest) ->
    flat = _flatten n ++ rest /\ shape n = shape m.
Proof.
  induction m as [c|l IH] using nested_ind'; intros flat n rest H.
  - destruct flat as [|a flat']; [discriminate|]. inversion H; subst. auto.
  - cbn [unflatten_one] in H. fold (@unflatten_seq A C l flat) in H.
    destruct (unflatten_seq l flat) as [[ns r]|] eqn:Hs; [|discriminate].
    inversion H; subst n rest. clear H.
    apply (unflatten_seq_sound l IH) in Hs as [-> Hss].
    split; [reflexivity|]. unfold shape. cbn [nested_map].
    f_equal. exact Hss.
Qed.

Lemma unflatten_sound (flat : list A) (model_ : list (nested C)) ns :
  unflatten flat model_ = Ok ns ->
  flatten_args ns = flat /\ List.map shape ns = List.map shape model_.
Proof.
  unfold unflatten.
  destruct (unflatten_one (Seq model_) flat) as [[n rest]|] eqn:H;
    [|discriminate].
  apply unflatten_one_sound in H as [-> Hs].
  destruct n as [a|ns']; [destruct rest; discriminate|].
  destruct rest; [|discriminate]. intros [= <-].
  split.
  - cbn [_flatten]. now rewrite app_nil_r.
  - unfold shape in Hs. cbn [nested_map] in Hs. now inversion Hs.
Qed.
End Unflatten_facts.

Section Construct_variables.
Context {B : Type}.
Variable func : qfunc.

Lemma kwarg_variable_inv (kv : string * nested Q) (w w' : world B) kp :
  kwarg_variable kv w = (Ok kp, w') ->
  w' = w /\ fst kp = fst kv /\ shape (snd kp) = shape (snd kv)
  /\ _flatten (snd kp)
     = variables_for (Some (fst kv)) (length (_flatten (snd kv))).
Proof.
  unfold kwarg_variable. fold (variables_for (Some (fst kv))
                                 (length (_flatten (snd kv)))).
  destruct (unflatten_one _ _) as [[n rest]|] eqn:Hu; [|discriminate].
  intros H. inversion H; subst kp w'. clear H.
  apply unflatten_one_sound in Hu as [Hflat Hs].
  split; [reflexivity|]. split; [reflexivity|]. split; [exact Hs|].
  cbn [snd].
  assert (Hlen : length (_flatten n) = length (_flatten (snd kv))).
  { unfold shape in Hs.
    rewrite <- (flatten_map_length (fun _ => tt) n), Hs.
    apply flatten_map_length. }
  assert (Hrest : rest = []).
  { apply (f_equal length) in Hflat. rewrite length_app in Hflat.
    unfold variables_for in Hflat. rewrite length_map, length_seq in Hflat.
    destruct rest; [reflexivity | simpl in Hflat; lia]. }
  subst rest. rewrite app_nil_r in Hflat. now rewrite Hflat.
Qed.

Lemma map_m_kwarg_variable_inv (l : list (string * nested Q)) :
  forall (w w' : world B) kw,
    map_m kwarg_variable l w = (Ok kw, w') ->
    w' = w
    /\ Forall2 (fun kv kp =>
                  fst kp = fst kv /\ shape (snd kp) = shape (snd kv)
                  /\ _flatten (snd kp)
                     = variables_for (Some (fst kv))
                         (length (_flatten (snd kv)))) l kw.
Proof.
  induction l as [|kv l IH]; intros w w' kw H; simpl in H.
  - inversion H; subst. split; [reflexivity | constructor].
  - apply bind_inv_ok in H as (kp & w1 & Hk & H).
    apply kwarg_variable_inv in Hk as (-> & Hk).
    apply bind_inv_ok in H as (kps & w2 & Hl & H).
    apply IH in Hl as [-> HF]. inversion H; subst.
    split; [reflexivity|]. constructor; assumption.
Qed.

(** X24. What [construct] hands to the quantum function.  Every
    positional argument is replaced by [Variable] instances: the flattened
    positional arguments become the free variables 0, 1, 2, ... in order,
    arranged in the nested shape of the arguments.  The keyword arguments
    are the defaults of the function updated by those of the call; without
    caching they are passed as their values, with caching each of them is
    passed as variables named after its key, one for each flattened value,
    in the shape of the value. *)
Theorem construct_passes_variables args kwargs (w w1 : world B) vk :
  construct_begin func args kwargs w = (Ok vk, w1) ->
  let keyword_values := dict_update (dict_update [] (defaults func)) kwargs in
  flatten_args (fst vk) = variables_for None (length (flatten_args args))
  /\ List.map shape (fst vk) = List.map shape args
  /\ (cache (qn w) = false ->
      snd vk = List.map (fun kv => (fst kv, nested_map PNum (snd kv)))
                 keyword_values)
  /\ (cache (qn w) = true ->
      Forall2 (fun kv kp =>
                 fst kp = fst kv /\ shape (snd kp) = shape (snd kv)
                 /\ _flatten (snd kp)
                    = variables_for (Some (fst kv))
                        (length (_flatten (snd kv))))
        keyword_values (snd vk)).
Proof.
  intros H keyword_values. unfold construct_begin in H.
  apply bind_inv_ok in H as ([] & w2 & H2 & H). inversion H2; subst w2.
  apply bind_inv_ok in H as ([] & w3 & H3 & H). inversion H3; subst w3.
  apply bind_inv_ok in H as ([] & w4 & H4 & H). inversion H4; subst w4.
  cbv zeta in H.
  apply bind_inv_ok in H as ([] & w5 & H5 & H). inversion H5; subst w5.
  apply bind_inv_ok in H as ([] & w6 & H6 & H). inversion H6; subst w6.
  apply bind_inv_ok in H as (variables & w7 & Hu & H).
  apply lift_inv in Hu as [Hu ->].
  apply unflatten_sound in Hu as [Hflat Hshape].
  apply bind_inv_ok in H as ([] & w8 & H8 & H). inversion H8; subst w8.
  apply bind_inv_ok in H as (q & w9 & Hg & H). inversion Hg; subst q w9.
  apply bind_inv_ok in H as (kw & w9 & Hkw & H).
  apply bind_inv_ok in H as ([] & w10 & _ & H).
  apply bind_inv_ok in H as ([] & w11 & _ & H).
  inversion H; subst vk w1. clear H H2 H3 H4 H5 H6 H8 Hg. cbn [fst snd].
  split; [exact Hflat|]. split; [exact Hshape|].
  cbn [qn set_qn cache with_keyword_defaults with_model with_num_variables
         with_ev with_queue add_log] in Hkw.
  split.
  - intros Hc. rewrite Hc in Hkw. inversion Hkw. reflexivity.
  - intros Hc. rewrite Hc in Hkw.
    apply map_m_kwarg_variable_inv in Hkw as [_ HF]. exact HF.
Qed.
End Construct_variables.

Lemma construct_passes_variables_witness :
  let f := mkQFunc [("data", Seq [Leaf 1%Q; Leaf 2%Q])]
             (fun _ _ => mkScript [] (RetSeq [])) in
  let r := construct_begin f [Seq [Leaf 3%Q; Leaf 4%Q]; Leaf 5%Q] []
             (Examples.start true) in
  match fst r with
  | Ok vk =>
      flatten_args (fst vk) = variables_for None 3
      /\ List.map shape (fst vk)
         = [Seq [Leaf tt; Leaf tt]; Leaf tt]
      /\ Forall2 (fun (kv : string * nested Q) kp =>
                    fst kp = fst kv /\ shape (snd kp) = shape (snd kv)
                    /\ _flatten (snd kp)
                       = variables_for (Some (fst kv))
                           (length (_flatten (snd kv))))
           [("data", Seq [Leaf 1%Q; Leaf 2%Q])] (snd vk)
  | Raise _ => False
  end.
Proof.
  intros f r.
  destruct r as [[vk|e] w1] eqn:E; [|vm_compute in E; discriminate].
  destruct (construct_passes_variables f _ _ _ _ _ E) as (H1 & H2 & _ & H4).
  cbn [fst]. split; [exact H1|]. split; [exact H2|]. apply H4. reflexivity.
Defined.
